(** * The xrootd backend of rclone: session pool, transfer loop and
      checksum retrieval

    A shallow embedding of the two revisions of the xrootd backend:

    - the pooled revision ([Module Pooled]), which keeps idle xrootd
      clients in [f.pool] and hands them out through
      [getXrootdConnection] / [ConnectionFree];
    - the legacy revision ([Module Legacy], backend/xrootd/xrootd.go), which
      dials a new client in [xrdremote] for every operation.

    Go code is translated function by function.  State (the pool, the
    [conn] objects behind the pool's pointers, the objects' cached fields)
    is passed explicitly; every call that leaves the process (dial, stat,
    rename, write, ...) is appended to a trace and answered by an oracle
    that sees the whole trace so far, so a theorem quantified over the
    oracle holds for every behaviour of the server.  A Go panic is an
    outcome of its own, and [defer] runs its call on every exit path with
    the arguments it had when the [defer] statement was executed. *)

From Stdlib Require Import List String Ascii ZArith NArith Lia Bool Arith.
From Stdlib Require Import Strings.Byte Strings.HexString Sorting.Permutation.
Import ListNotations.

Local Open Scope string_scope.
Local Open Scope list_scope.

(** ** Values shared by both revisions *)

(** Go's [error] values that the backend produces or passes on.  A Go
    [error] that may be [nil] is an [option error]. *)
Inductive error : Type :=
| io_EOF
| ErrorCantMove
| ErrorDirNotFound
| ErrorDirectoryNotEmpty
| ErrorObjectNotFound
| ErrorNotAFile
| ErrUnsupported
| ErrServer (code : nat)              (* an error answered by the server or the transport *)
| ErrReader (code : nat)              (* an error of the upload's input reader *)
| ErrParse (name : string)            (* xrdio.Parse could not parse the name *)
| Errorf (msg : string) (cause : error)   (* fmt.Errorf(".. %w", err) *)
| Wrap (cause : error) (msg : string)     (* errors.Wrap(err, msg), err non-nil *)
| ErrLengthMismatch (want got : Z).   (* "object corrupted on transfer - length mismatch" *)

(** [errors.Wrap] returns [nil] when it is given [nil]. *)
Definition errors_Wrap (err : option error) (msg : string) : option error :=
  match err with
  | None => None
  | Some e => Some (Wrap e msg)
  end.

(** [errors.Cause]: the innermost error under the wrappers. *)
Fixpoint errors_Cause (e : error) : error :=
  match e with
  | Wrap c _ => errors_Cause c
  | _ => e
  end.

Definition is_nil {A} (o : option A) : bool :=
  match o with None => true | Some _ => false end.

(** [int64] arithmetic wraps around. *)
Definition wrap64 (z : Z) : Z := (z + 2 ^ 63) mod 2 ^ 64 - 2 ^ 63.

(** [os.FileInfo] as the backend reads it. *)
Record FileInfo : Type := mkFileInfo {
  fi_Name : string;
  fi_Size : Z;
  fi_ModTime : Z;
  fi_Mode : Z;
  fi_IsDir : bool
}.

(** [xrdio.URL] *)
Record URL : Type := mkURL {
  url_Addr : string;
  url_User : string;
  url_Path : string
}.

(** [Options]; the legacy revision has neither [HashChosen] nor [User]. *)
Record Options : Type := mkOptions {
  Servername : string;
  Port : string;
  Path_to_file : string;
  SizeCopyBufferKb : Z;
  HashChosen : string;
  User : string
}.

(** The immutable part of [Fs]; the pool of the pooled revision lives in
    the [world]. *)
Record Fs : Type := mkFs {
  fs_name : string;
  fs_root : string;
  fs_opt : Options;
  fs_url : string
}.

Record Object : Type := mkObject {
  o_fs : Fs;
  o_remote : string;
  o_size : Z;
  o_modTime : Z;
  o_mode : Z;
  o_hash : string
}.

Definition set_hash (o : Object) (h : string) : Object :=
  mkObject (o_fs o) (o_remote o) (o_size o) (o_modTime o) (o_mode o) h.

Definition set_modTime (o : Object) (t : Z) : Object :=
  mkObject (o_fs o) (o_remote o) (o_size o) t (o_mode o) (o_hash o).

(** A new [&Object{fs: f, remote: remote}]: the other fields are zero. *)
Definition new_Object (f : Fs) (remote : string) : Object :=
  mkObject f remote 0 0 0 "".

(** [fs.Object] is an interface: a value is an [*Object] of this package
    or an object of some other backend. *)
Inductive fs_Object : Type :=
| XrdObject (o : Object)
| OtherObject (remote : string).

(** [fs.ObjectInfo] of the upload's source: the methods [Update] calls. *)
Record ObjectInfo : Type := mkObjectInfo {
  src_Remote : string;
  src_Size : Z;
  src_ModTime : Z
}.

(** [fs.DirEntries] *)
Inductive DirEntry : Type :=
| EntDir (remote : string) (modTime : Z)
| EntObject (o : Object).

(** The three open modes the backend uses. *)
Inductive OpenOptions : Type :=
| OpenNew_MkPath                    (* OpenOptionsNew|OpenOptionsMkPath *)
| OpenMkPath_Delete                 (* OpenOptionsMkPath|OpenOptionsDelete *)
| OpenUpdate_MkPath_Delete          (* OpenOptionsOpenUpdate|OpenOptionsMkPath|OpenOptionsDelete *)
| OpenRead.                         (* OpenOptionsOpenRead *)

(** ** Trace of calls *)

(** Every call on an xrootd client, with the number of the client, and
    every [Read] of the upload's input.  [EvFree] records a call of
    [ConnectionFree] with its arguments (the function writes the same two
    facts to the debug log). *)
Inductive event : Type :=
| EvDial (addr user : string)
| EvClientClose (c : nat)
| EvStat (c : nat) (path : string)
| EvDirlist (c : nat) (path : string)
| EvMkdirAll (c : nat) (path : string)
| EvRemoveDir (c : nat) (path : string)
| EvRemoveAll (c : nat) (path : string)
| EvRemoveFile (c : nat) (path : string)
| EvRename (c : nat) (src dst : string)
| EvOpen (c : nat) (path : string) (opts : OpenOptions)
| EvWriteAt (c : nat) (path : string) (data : list byte) (off : Z)
| EvFileClose (c : nat) (path : string)
| EvChecksum (c : nat) (path : string)
| EvRead
| EvFree (c : nat) (err : option error).

(** ** The world *)

(** [pool]: the idle collection [f.pool], a slice of [*conn]; a pointer is
    [None] for [nil] and otherwise the index of the [conn] in [conns].
    [conns]: one entry for every client dialled so far, clients being
    numbered in the order they were dialled; in the pooled revision the
    entry is the [err] field of the [conn] that holds the client.
    [trace]: the calls made so far, oldest first. *)
Definition connptr : Type := option nat.

Record world : Type := mkWorld {
  pool : list connptr;
  conns : list (option error);
  trace : list event
}.

Definition empty_world : world := mkWorld [] [] [].

(** ** What is outside the repository *)

(** The URL parser and the path functions of the Go libraries, and the
    server.  Every answer of the server may depend on everything that was
    called before.  An error of the server or of the client library is a
    code; it reaches the backend as [ErrServer code], never as one of
    rclone's own error values. *)
Record Env : Type := mkEnv {
  xrdio_Parse : string -> error + URL;
  filepath_Base : string -> string;
  path_Join : string -> string -> string;
  srv_NewClient : list event -> string -> string -> option nat;
  srv_Stat : list event -> string -> nat + FileInfo;
  srv_Dirlist : list event -> string -> nat + list FileInfo;
  srv_MkdirAll : list event -> string -> option nat;
  srv_RemoveDir : list event -> string -> option nat;
  srv_RemoveAll : list event -> string -> option nat;
  srv_RemoveFile : list event -> string -> option nat;
  srv_Rename : list event -> string -> string -> option nat;
  srv_Open : list event -> string -> OpenOptions -> option nat;
  srv_WriteAt : list event -> string -> list byte -> Z -> option nat;
  srv_FileClose : list event -> string -> option nat;
  srv_ClientClose : list event -> option nat;
  srv_Checksum : list event -> string -> nat + string
}.

(** ** Computations *)

Inductive res (A : Type) : Type :=
| Ret (a : A)
| Panic (msg : string).
Arguments Ret {A} a.
Arguments Panic {A} msg.

Definition M (A : Type) : Type := world -> res A * world.

Definition ret {A} (a : A) : M A := fun w => (Ret a, w).

Definition bind {A B} (m : M A) (k : A -> M B) : M B :=
  fun w =>
    match m w with
    | (Ret a, w1) => k a w1
    | (Panic msg, w1) => (Panic msg, w1)
    end.

Definition panic {A} (msg : string) : M A := fun w => (Panic msg, w).

Declare Scope go_scope.
Delimit Scope go_scope with go.
Notation "x <- m ;; k" := (bind m (fun x => k))
  (at level 61, m at next level, right associativity) : go_scope.
Notation "' pat <- m ;; k" := (bind m (fun x => match x with pat => k end))
  (at level 61, pat pattern, m at next level, right associativity) : go_scope.
Notation "m ;;; k" := (bind m (fun _ => k))
  (at level 61, right associativity) : go_scope.
Local Open Scope go_scope.

(** [defer d] placed before [body]: [d] runs when [body] is left, by
    return or by panic; a panic of [d] replaces the outcome. *)
Definition defer {A} (d : M unit) (body : M A) : M A :=
  fun w =>
    match body w with
    | (r, w1) =>
        match d w1 with
        | (Ret _, w2) => (r, w2)
        | (Panic msg, w2) => (Panic msg, w2)
        end
    end.

Definition emit (e : event) : M unit :=
  fun w => (Ret tt, mkWorld (pool w) (conns w) (trace w ++ [e])).

(** A call that leaves the process: logged, then answered from the trace
    as it was before the call. *)
Definition call {A} (e : event) (answer : list event -> A) : M A :=
  fun w => (Ret (answer (trace w)), mkWorld (pool w) (conns w) (trace w ++ [e])).

Definition server_error (code : option nat) : option error :=
  match code with
  | Some n => Some (ErrServer n)
  | None => None
  end.

Definition server_result {A} (r : nat + A) : error + A :=
  match r with
  | inl n => inl (ErrServer n)
  | inr a => inr a
  end.

(** A call on the server that returns an [error]. *)
Definition call_err (e : event) (answer : list event -> option nat) : M (option error) :=
  call e (fun tr => server_error (answer tr)).

(** A call on the server that returns a value and an [error]. *)
Definition call_res {A} (e : event) (answer : list event -> nat + A) : M (error + A) :=
  call e (fun tr => server_result (answer tr)).

Definition nil_deref : string := "invalid memory address or nil pointer dereference".

(** Reading through a [*conn]. *)
Definition deref (c : connptr) : M nat :=
  match c with
  | Some i => ret i
  | None => panic nil_deref
  end.

Definition get_pool : M (list connptr) := fun w => (Ret (pool w), w).

Definition set_pool (p : list connptr) : M unit :=
  fun w => (Ret tt, mkWorld p (conns w) (trace w)).

Definition conn_err (w : world) (i : nat) : option error :=
  nth i (conns w) None.

Definition get_err (i : nat) : M (option error) := fun w => (Ret (conn_err w i), w).

Fixpoint list_set {A} (l : list A) (i : nat) (a : A) : list A :=
  match l, i with
  | [], _ => []
  | _ :: t, O => a :: t
  | h :: t, S j => h :: list_set t j a
  end.

Definition set_err (i : nat) (err : option error) : M unit :=
  fun w => (Ret tt, mkWorld (pool w) (list_set (conns w) i err) (trace w)).

(** [&conn{err: nil}]: a new [conn], numbered by its place in [conns]. *)
Definition alloc_conn : M nat :=
  fun w => (Ret (List.length (conns w)), mkWorld (pool w) (conns w ++ [None]) (trace w)).

(** The calls a computation added to the trace of [w]. *)
Definition new_events (w w' : world) : list event :=
  skipn (List.length (trace w)) (trace w').

(** ** Library functions the backend calls *)

(** [strings.Split(s, sep)] for a separator of one byte, which is what
    both call sites pass (a space, a NUL).  A string without the
    separator, the empty string included, gives a slice of length one. *)
Fixpoint strings_Split (s : string) (sep : ascii) : list string :=
  match s with
  | EmptyString => [EmptyString]
  | String ch rest =>
      if Ascii.eqb ch sep then EmptyString :: strings_Split rest sep
      else
        match strings_Split rest sep with
        | h :: t => String ch h :: t
        | [] => [String ch EmptyString]
        end
  end.

(** [hash/adler32]: the digest is the pair (a, b), [Sum32] is
    [b<<16 | a]. *)
Definition adler32_mod : N := 65521.

Definition digest : Type := (N * N)%type.

Definition adler32_New : digest := (1%N, 0%N).

Definition adler32_byte (d : digest) (x : byte) : digest :=
  let a := ((fst d + Byte.to_N x) mod adler32_mod)%N in
  (a, ((snd d + a) mod adler32_mod)%N).

Definition adler32_Write (d : digest) (p : list byte) : digest :=
  fold_left adler32_byte p d.

Definition adler32_Sum32 (d : digest) : N := (N.shiftl (snd d) 16 + fst d)%N.

Definition adler32_Checksum (p : list byte) : N :=
  adler32_Sum32 (adler32_Write adler32_New p).

(** [fmt.Sprintf("%x", n)] for an unsigned [n]: lower case, no padding. *)
Definition Sprintf_x (n : N) : string :=
  match n with
  | N0 => "0"
  | Npos p => HexString.Raw.of_pos p ""
  end.

(** [hash.Type] *)
Inductive hash_Type : Type :=
| Adler32HashType
| OtherHashType (id : nat).

Definition hash_Type_eqb (a b : hash_Type) : bool :=
  match a, b with
  | Adler32HashType, Adler32HashType => true
  | OtherHashType x, OtherHashType y => Nat.eqb x y
  | _, _ => false
  end.

(** The upload's input, an [io.Reader]: what each [Read] returns, in
    order; a [Read] after the last one returns [0, io.EOF]. *)
Definition reader : Type := list (list byte * option error).

Definition is_EOF (e : option error) : bool :=
  match e with
  | Some io_EOF => true
  | _ => false
  end.

(** ** Code that is the same in both revisions *)

Definition lift {A} (r : res A) : M A := fun w => (r, w).

(** A client that was just dialled gets the next number. *)
Definition new_client : M nat := alloc_conn.

Definition set_size (o : Object) (n : Z) : Object :=
  mkObject (o_fs o) (o_remote o) n (o_modTime o) (o_mode o) (o_hash o).

Definition set_mode (o : Object) (m : Z) : Object :=
  mkObject (o_fs o) (o_remote o) (o_size o) (o_modTime o) m (o_hash o).

Definition setMetadata (o : Object) (info : FileInfo) : Object :=
  let o1 := if negb (o_size o =? fi_Size info)%Z then set_size o (fi_Size info) else o in
  let o2 := if negb (o_modTime o1 =? fi_ModTime info)%Z
            then set_modTime o1 (fi_ModTime info) else o1 in
  if negb (o_mode o2 =? fi_Mode info)%Z then set_mode o2 (fi_Mode info) else o2.

(** The loop of [display] over the listing. *)
Definition display_entry (env : Env) (f : Fs) (dir : string) (info : FileInfo) : DirEntry :=
  let remote := path_Join env dir (fi_Name info) in
  if fi_IsDir info then EntDir remote (fi_ModTime info)
  else EntObject (setMetadata (new_Object f remote) info).

(** [display]; [fsx] is the file system of client [c]. *)
Definition display (env : Env) (f : Fs) (c : nat) (root : string) (info : FileInfo)
  (dir : string) : M (list DirEntry * option error) :=
  let dirt := path_Join env root (fi_Name info) in
  r <- call_res (EvDirlist c dirt) (fun tr => srv_Dirlist env tr dirt);;
  match r with
  | inl e => ret ([], Some (Errorf ("could not list dir " ++ dirt)%string e))
  | inr ents => ret (map (display_entry env f dir) ents, None)
  end.

(** [(o *Object) path] *)
Definition Object_path (env : Env) (o : Object) : string :=
  if negb (String.eqb (filepath_Base env (fs_url (o_fs o))) (o_remote o))
  then (fs_url (o_fs o) ++ "/" ++ o_remote o)%string
  else fs_url (o_fs o).

Definition client_Close (env : Env) (c : nat) : M (option error) :=
  call_err (EvClientClose c) (srv_ClientClose env).

(** The stream a download reads from.  The results of the calls on the
    underlying [xrdio.File] are arguments. *)
Record xrdOpenFile : Type := mkOpenFile {
  file_o : Object;
  file_bytes : Z;
  file_eof : bool
}.

Definition newObjectReader (o : Object) : xrdOpenFile := mkOpenFile o 0 false.

(** [Read]: [n, err] is what [file.xrdfile.Read(p)] returned.  Both
    revisions add [n] to [file.bytes], set [eof] on [io.EOF] and return
    [n, err]. *)
Definition xrdOpenFile_Read (file : xrdOpenFile) (n : Z) (err : option error)
  : xrdOpenFile * (Z * option error) :=
  let bytes := wrap64 (file_bytes file + n) in
  (mkOpenFile (file_o file) bytes (if is_EOF err then true else file_eof file), (n, err)).

(** The stream after a sequence of [Read]s. *)
Definition read_all (file : xrdOpenFile) (reads : list (Z * option error)) : xrdOpenFile :=
  fold_left (fun fl r => fst (xrdOpenFile_Read fl (fst r) (snd r))) reads file.

(** ** The pooled revision *)

Module Pooled.

Section Code.

Variable env : Env.

(** [xrdremote]: only parses the name. *)
Definition xrdremote (name : string) : error + string :=
  match xrdio_Parse env name with
  | inl e => inl (Errorf ("could not parse " ++ name)%string e)
  | inr url => inr (url_Path url)
  end.

(** [XrootdConnection]: a new [conn] around a newly dialled client. *)
Definition XrootdConnection (f : Fs) : M (connptr * option error) :=
  err <- call_err (EvDial (Servername (fs_opt f)) (User (fs_opt f)))
              (fun tr => srv_NewClient env tr (Servername (fs_opt f)) (User (fs_opt f)));;
  match err with
  | Some _ =>
      ret (None, errors_Wrap err "XrootdConnection: failure to initialize a new XrootD client ")
  | None =>
      c <- new_client;;
      ret (Some c, None)
  end.

(** The loop of [getXrootdConnection], run under [f.poolMu]:
    [for len(f.pool) > 0 { c = f.pool[0]; f.pool = f.pool[1:]; ... }].
    The argument is [f.pool] as the iteration finds it; the result is [c]
    after the loop. *)
Fixpoint pool_loop (p : list connptr) : M connptr :=
  match p with
  | [] => ret None
  | c :: rest =>
      set_pool rest;;;
      match c with
      | Some i =>
          e <- get_err i;;
          match e with
          | None => ret (Some i)
          | Some _ => client_Close env i;;; pool_loop rest
          end
      | None => panic nil_deref
      end
  end.

Definition getXrootdConnection (f : Fs) : M (connptr * option error) :=
  p <- get_pool;;
  c <- pool_loop p;;
  match c with
  | Some i => ret (Some i, None)
  | None =>
      ' (c, err) <- XrootdConnection f;;
      match err with
      | Some _ => ret (None, err)
      | None => ret (c, None)
      end
  end.

(** [ConnectionFree]: [c.err = err], then close the client or append the
    [conn] to the pool.  The test [c.err != nil] reads the field that was
    just assigned, so it is a test of [err]. *)
Definition ConnectionFree (c : connptr) (err : option error) : M unit :=
  i <- deref c;;
  set_err i err;;;
  emit (EvFree i err);;;
  match err with
  | Some _ => client_Close env i;;; ret tt
  | None =>
      p <- get_pool;;
      set_pool (p ++ [c])
  end.

(** [Fs.List] *)
Definition List (f : Fs) (dir : string) : M (list DirEntry * option error) :=
  let xrddir := (fs_url f ++ "/" ++ dir)%string in
  match xrdremote xrddir with
  | inl e => ret ([], Some (Errorf "could not stat" e))
  | inr path =>
      let path := if String.eqb path "" then "." else path in
      ' (c, errClient) <- getXrootdConnection f;;
      match errClient with
      | Some _ => ret ([], errors_Wrap errClient "List")
      | None =>
          defer (ConnectionFree c errClient)
            (i <- deref c;;
             r <- call_res (EvStat i path) (fun tr => srv_Stat env tr path);;
             match r with
             | inl _ => ret ([], Some ErrorDirNotFound)
             | inr fi =>
                 ' (entries, err) <- display env f i path fi dir;;
                 match err with
                 | Some _ => ret (entries, err)
                 | None => ret (entries, None)
                 end
             end)
      end
  end.

(** [Fs.Mkdir].  The check after [getXrootdConnection] reads [err], the
    result of [xrdremote], which is nil there. *)
Definition Mkdir (f : Fs) (dir : string) : M (option error) :=
  let xrddir := (fs_url f ++ "/" ++ dir)%string in
  match xrdremote xrddir with
  | inl e => ret (Some e)
  | inr path =>
      let err : option error := None in
      ' (c, errClient) <- getXrootdConnection f;;
      match err with
      | Some _ => ret (errors_Wrap err "mkdir")
      | None =>
          defer (ConnectionFree c errClient)
            (i <- deref c;;
             errClient <- call_err (EvMkdirAll i path) (fun tr => srv_MkdirAll env tr path);;
             match errClient with
             | Some _ => ret errClient
             | None => ret None
             end)
      end
  end.

(** [Fs.Rmdir] *)
Definition Rmdir (f : Fs) (dir : string) : M (option error) :=
  ' (entries, err) <- List f dir;;
  match err with
  | Some _ => ret (errors_Wrap err "Rmdir")
  | None =>
      if negb (Nat.eqb (List.length entries) 0) then ret (Some ErrorDirectoryNotEmpty)
      else
        let xrddir := (fs_url f ++ "/" ++ dir)%string in
        match xrdremote xrddir with
        | inl e => ret (Some e)
        | inr path =>
            let err : option error := None in
            ' (c, errClient) <- getXrootdConnection f;;
            match err with
            | Some _ => ret (errors_Wrap err "Rmdir")
            | None =>
                defer (ConnectionFree c errClient)
                  (i <- deref c;;
                   errClient <- call_err (EvRemoveDir i path) (fun tr => srv_RemoveDir env tr path);;
                   match errClient with
                   | Some _ => ret errClient
                   | None => ret None
                   end)
            end
        end
  end.

(** [Fs.Purge] *)
Definition Purge (f : Fs) : M (option error) :=
  match xrdremote (fs_root f) with
  | inl e => ret (Some e)
  | inr path =>
      let err : option error := None in
      ' (c, errClient) <- getXrootdConnection f;;
      match err with
      | Some _ => ret (errors_Wrap err "Purge")
      | None =>
          defer (ConnectionFree c errClient)
            (i <- deref c;;
             errClient <- call_err (EvRemoveAll i path) (fun tr => srv_RemoveAll env tr path);;
             match errClient with
             | Some _ => ret errClient
             | None => ret None
             end)
      end
  end.

(** [Fs.stat]; the release is deferred with a literal [nil]. *)
Definition Fs_stat (f : Fs) (remote : string) : M (option FileInfo * option error) :=
  let xrddir :=
    if negb (String.eqb (filepath_Base env (fs_url f)) remote)
    then (fs_url f ++ "/" ++ remote)%string else fs_url f in
  match xrdremote xrddir with
  | inl e => ret (None, Some (Errorf "could not stat" e))
  | inr path =>
      ' (c, errClient) <- getXrootdConnection f;;
      match errClient with
      | Some _ => ret (None, errors_Wrap errClient "stat: failed to open client")
      | None =>
          defer (ConnectionFree c None)
            (i <- deref c;;
             r <- call_res (EvStat i path) (fun tr => srv_Stat env tr path);;
             match r with
             | inl e => ret (None, Some e)
             | inr info => ret (Some info, None)
             end)
      end
  end.

(** [Object.stat] *)
Definition Object_stat (o : Object) : M (Object * option error) :=
  ' (info, err) <- Fs_stat (o_fs o) (o_remote o);;
  match err with
  | Some _ => ret (o, Some ErrorObjectNotFound)
  | None =>
      match info with
      | None => panic nil_deref
      | Some info =>
          if fi_IsDir info then ret (o, Some (Wrap ErrorNotAFile (o_remote o)))
          else ret (setMetadata o info, None)
      end
  end.

(** [Fs.NewObject] *)
Definition NewObject (f : Fs) (remote : string) : M (option Object * option error) :=
  ' (o, err) <- Object_stat (new_Object f remote);;
  match err with
  | Some _ => ret (None, err)
  | None => ret (Some o, None)
  end.

(** [Fs.Move].  When no session can be had, the code wraps [err], which
    is nil at that place, so both results are nil. *)
Definition Move (f : Fs) (src : fs_Object) (remote : string)
  : M (option Object * option error) :=
  match src with
  | OtherObject _ => ret (None, Some ErrorCantMove)
  | XrdObject srcObj =>
      let xrddst := (fs_url f ++ "/" ++ remote)%string in
      match xrdremote (Object_path env srcObj) with
      | inl e => ret (None, errors_Wrap (Some e) "Move: source path failure")
      | inr pathsrc =>
          match xrdremote xrddst with
          | inl e => ret (None, errors_Wrap (Some e) "Move: destination path failed")
          | inr pathdst =>
              let err : option error := None in
              ' (c, errClient) <- getXrootdConnection f;;
              match errClient with
              | Some _ => ret (None, errors_Wrap err "Move: failed to open client")
              | None =>
                  defer (ConnectionFree c errClient)
                    (i <- deref c;;
                     errClient <- call_err (EvRename i pathsrc pathdst)
                                       (fun tr => srv_Rename env tr pathsrc pathdst);;
                     match errClient with
                     | Some _ => ret (None, errors_Wrap errClient "Move Rename failed")
                     | None =>
                         ' (dstObj, err) <- NewObject f remote;;
                         match err with
                         | Some _ => ret (None, errors_Wrap err "Move NewObject failed")
                         | None => ret (dstObj, None)
                         end
                     end)
              end
          end
      end
  end.

(** The part of [Object.Hash] after the query: [cached] is [o.hash]
    before, [data] is [string(resp.Data)]; the result is [o.hash] after,
    which is also what [Hash] returns. *)
Definition parse_checksum (cached : string) (t : hash_Type) (data : string) : res string :=
  let stringdata := strings_Split data " " in
  match stringdata with
  | [] => Panic "index out of range [0] with length 0"
  | s0 :: tl =>
      if String.eqb s0 "adler32" && hash_Type_eqb t Adler32HashType then
        match tl with
        | [] => Panic "index out of range [1] with length 1"
        | s1 :: _ =>
            match strings_Split s1 "000" with
            | [] => Panic "index out of range [0] with length 0"
            | hash :: _ =>
                if Nat.eqb (String.length hash) 8 then Ret hash else Ret cached
            end
        end
      else Ret cached
  end.

(** [Object.Hash] *)
Definition Hash (o : Object) (t : hash_Type) : M (Object * (string * option error)) :=
  if String.eqb (HashChosen (fs_opt (o_fs o))) "none" then ret (o, ("", None))
  else if negb (hash_Type_eqb t Adler32HashType) then ret (o, ("", Some ErrUnsupported))
  else
    match xrdremote (Object_path env o) with
    | inl e => ret (o, ("", Some e))
    | inr path =>
        ' (c, errClient) <- getXrootdConnection (o_fs o);;
        match errClient with
        | Some _ => ret (o, ("", errors_Wrap errClient "Hash"))
        | None =>
            defer (ConnectionFree c errClient)
              (i <- deref c;;
               r <- call_res (EvChecksum i path) (fun tr => srv_Checksum env tr path);;
               match r with
               | inl e => ret (o, ("", Some e))
               | inr data =>
                   h <- lift (parse_checksum (o_hash o) t data);;
                   ret (set_hash o h, (h, None))
               end)
        end
    end.

(** [xrdOpenFile.Close]; [cerr] is what [file.xrdfile.Close()] returned.
    A length mismatch is written to the debug log only. *)
Definition xrdOpenFile_Close (file : xrdOpenFile) (cerr : option error) : option error :=
  match cerr with
  | Some _ => cerr
  | None => None
  end.

(** [Object.SetModTime] *)
Definition SetModTime (o : Object) (modTime : Z) : M (Object * option error) :=
  ' (o1, err) <- Object_stat (set_modTime o modTime);;
  match err with
  | Some _ => ret (o1, errors_Wrap err "SetModTime stat failed")
  | None => ret (o1, None)
  end.

(** The closure [remove] of [Update]. *)
Definition Update_remove (o : Object) : M unit :=
  match xrdremote (Object_path env o) with
  | inl _ => ret tt
  | inr path =>
      ' (c, errClient) <- getXrootdConnection (o_fs o);;
      match errClient with
      | Some _ => ret tt
      | None =>
          defer (ConnectionFree c errClient)
            (i <- deref c;;
             _ <- call_err (EvRemoveFile i path) (fun tr => srv_RemoveFile env tr path);;
             ret tt)
      end
  end.

(** One turn of the [for] loop of [Update]: [data, err_read] is what
    [in.Read] returned, [again] is the next turn.  The result is
    [index], [turn] and [errClient] when the loop is left. *)
Definition loop_turn (c : nat) (path : string) (index turn : Z)
  (data : list byte) (err_read : option error)
  (again : Z -> Z -> M (Z * Z * option error)) : M (Z * Z * option error) :=
  emit EvRead;;;
  if negb (is_nil err_read) && negb (is_EOF err_read) then ret (index, turn, err_read)
  else
    err_write <- call_err (EvWriteAt c path data index)
                      (fun tr => srv_WriteAt env tr path data index);;
    match err_write with
    | Some _ => ret (index, turn, err_write)
    | None =>
        let index := wrap64 (index + Z.of_nat (List.length data)) in
        let turn := wrap64 (turn + 1) in
        if is_EOF err_read then ret (index, turn, None)
        else again index turn
    end.

Fixpoint stream_loop (c : nat) (path : string) (input : reader) (index turn : Z)
  : M (Z * Z * option error) :=
  match input with
  | [] => loop_turn c path index turn [] (Some io_EOF) (fun i t => ret (i, t, None))
  | (data, err_read) :: rest =>
      loop_turn c path index turn data err_read (stream_loop c path rest)
  end.

(** [Update] from the loop on: the loop, the cleanup after an abort, the
    diagnostic [index/turn], the close and [SetModTime]. *)
Definition Update_stream (o : Object) (c : nat) (path : string) (input : reader)
  (src : ObjectInfo) : M (Object * option error) :=
  ' (index, turn, errClient) <- stream_loop c path input 0 0;;
  match errClient with
  | Some _ => Update_remove o;;; ret (o, errClient)
  | None =>
      (if (turn =? 0)%Z then panic "integer divide by zero" else ret tt);;;
      err <- call_err (EvFileClose c path) (fun tr => srv_FileClose env tr path);;
      match err with
      | Some _ => Update_remove o;;; ret (o, errors_Wrap err "could not close output file")
      | None =>
          ' (o1, err) <- SetModTime o (src_ModTime src);;
          match err with
          | Some _ => ret (o1, errors_Wrap err "Update: SetModTime failed")
          | None => ret (o1, None)
          end
      end
  end.

(** [Object.Update] *)
Definition Update (o : Object) (input : reader) (src : ObjectInfo)
  : M (Object * option error) :=
  let o := set_hash o "" in
  match xrdremote (Object_path env o) with
  | inl e => ret (o, Some e)
  | inr path =>
      ' (c, errClient) <- getXrootdConnection (o_fs o);;
      match errClient with
      | Some _ => ret (o, errors_Wrap errClient "Update")
      | None =>
          defer (ConnectionFree c errClient)
            (i <- deref c;;
             r <- call_res (EvStat i path) (fun tr => srv_Stat env tr path);;
             let fileExists :=
               match r with
               | inr info => negb (fi_IsDir info)
               | inl _ => false
               end in
             let opts := if negb fileExists then OpenNew_MkPath else OpenMkPath_Delete in
             errClient <- call_err (EvOpen i path opts) (fun tr => srv_Open env tr path opts);;
             match errClient with
             | Some _ => ret (o, errClient)
             | None =>
                 defer (_ <- call_err (EvFileClose i path) (fun tr => srv_FileClose env tr path);;
                        ret tt)
                   (Update_stream o i path input src)
             end)
      end
  end.

(** [Fs.Put] *)
Definition Put (f : Fs) (input : reader) (src : ObjectInfo)
  : M (option Object * option error) :=
  ' (o, err) <- Update (new_Object f (src_Remote src)) input src;;
  match err with
  | Some _ => ret (None, err)
  | None => ret (Some o, None)
  end.

(** [Object.Remove] *)
Definition Remove (o : Object) : M (option error) :=
  match xrdremote (Object_path env o) with
  | inl e => ret (Some e)
  | inr path =>
      ' (c, errClient) <- getXrootdConnection (o_fs o);;
      match errClient with
      | Some _ => ret (errors_Wrap errClient "mkdir")
      | None =>
          defer (ConnectionFree c errClient)
            (i <- deref c;;
             errClient <- call_err (EvRemoveFile i path) (fun tr => srv_RemoveFile env tr path);;
             match errClient with
             | Some _ => ret errClient
             | None => ret None
             end)
      end
  end.

End Code.

End Pooled.

(** ** The legacy revision (backend/xrootd/xrootd.go) *)

Module Legacy.

Section Code.

Variable env : Env.

(** [xrdremote]: parses the name and dials a new client. *)
Definition xrdremote (name : string) : M (connptr * string * option error) :=
  match xrdio_Parse env name with
  | inl e => ret (None, "", Some (Errorf ("could not parse " ++ name)%string e))
  | inr url =>
      err <- call_err (EvDial (url_Addr url) (url_User url))
                  (fun tr => srv_NewClient env tr (url_Addr url) (url_User url));;
      match err with
      | Some _ => ret (None, url_Path url, err)
      | None =>
          c <- new_client;;
          ret (Some c, url_Path url, None)
      end
  end.

(** A deferred [client.Close()]. *)
Definition deferred_Close (client : connptr) : M unit :=
  i <- deref client;;
  _ <- client_Close env i;;
  ret tt.

(** [Fs.List] *)
Definition List (f : Fs) (dir : string) : M (list DirEntry * option error) :=
  let xrddir := (fs_url f ++ "/" ++ dir)%string in
  ' (client, path, err) <- xrdremote xrddir;;
  let path := if String.eqb path "" then "." else path in
  match err with
  | Some e => ret ([], Some (Errorf "could not stat" e))
  | None =>
      defer (deferred_Close client)
        (i <- deref client;;
         r <- call_res (EvStat i path) (fun tr => srv_Stat env tr path);;
         match r with
         | inl _ => ret ([], Some ErrorDirNotFound)
         | inr fi =>
             ' (entries, err) <- display env f i path fi dir;;
             match err with
             | Some _ => ret (entries, err)
             | None =>
                 err <- client_Close env i;;
                 match err with
                 | Some _ => ret (entries, err)
                 | None => ret (entries, None)
                 end
             end
         end)
  end.

(** [Fs.Rmdir] *)
Definition Rmdir (f : Fs) (dir : string) : M (option error) :=
  ' (entries, err) <- List f dir;;
  match err with
  | Some _ => ret (errors_Wrap err "Rmdir")
  | None =>
      if negb (Nat.eqb (List.length entries) 0) then ret (Some ErrorDirectoryNotEmpty)
      else
        let xrddir := (fs_url f ++ "/" ++ dir)%string in
        ' (client, path, err) <- xrdremote xrddir;;
        match err with
        | Some _ => ret err
        | None =>
            defer (deferred_Close client)
              (i <- deref client;;
               err <- call_err (EvRemoveDir i path) (fun tr => srv_RemoveDir env tr path);;
               match err with
               | Some _ => ret err
               | None =>
                   err <- client_Close env i;;
                   match err with
                   | Some _ => ret err
                   | None => ret None
                   end
               end)
        end
  end.

(** [Fs.stat] *)
Definition Fs_stat (f : Fs) (remote : string) : M (option FileInfo * option error) :=
  let xrddir :=
    if negb (String.eqb (filepath_Base env (fs_url f)) remote)
    then (fs_url f ++ "/" ++ remote)%string else fs_url f in
  ' (client, path, err) <- xrdremote xrddir;;
  match err with
  | Some e => ret (None, Some (Errorf "could not stat" e))
  | None =>
      defer (deferred_Close client)
        (i <- deref client;;
         r <- call_res (EvStat i path) (fun tr => srv_Stat env tr path);;
         match r with
         | inl e => ret (None, Some e)
         | inr info =>
             err <- client_Close env i;;
             match err with
             | Some _ => ret (Some info, err)
             | None => ret (Some info, None)
             end
         end)
  end.

(** [Object.stat] *)
Definition Object_stat (o : Object) : M (Object * option error) :=
  ' (info, err) <- Fs_stat (o_fs o) (o_remote o);;
  match err with
  | Some _ => ret (o, Some ErrorObjectNotFound)
  | None =>
      match info with
      | None => panic nil_deref
      | Some info =>
          if fi_IsDir info then ret (o, Some (Wrap ErrorNotAFile (o_remote o)))
          else ret (setMetadata o info, None)
      end
  end.

(** [Fs.NewObject] *)
Definition NewObject (f : Fs) (remote : string) : M (option Object * option error) :=
  ' (o, err) <- Object_stat (new_Object f remote);;
  match err with
  | Some _ => ret (None, err)
  | None => ret (Some o, None)
  end.

(** [Fs.Move]: one client for the source address, one for the
    destination; the rename goes through the second. *)
Definition Move (f : Fs) (src : fs_Object) (remote : string)
  : M (option Object * option error) :=
  match src with
  | OtherObject _ => ret (None, Some ErrorCantMove)
  | XrdObject srcObj =>
      let xrddst := (fs_url f ++ "/" ++ remote)%string in
      ' (client, pathsrc, err) <- xrdremote (Object_path env srcObj);;
      match err with
      | Some _ => ret (None, errors_Wrap err "Move")
      | None =>
          defer (deferred_Close client)
            (' (client, pathdst, err) <- xrdremote xrddst;;
             match err with
             | Some _ => ret (None, errors_Wrap err "Move")
             | None =>
                 defer (deferred_Close client)
                   (i <- deref client;;
                    err <- call_err (EvRename i pathsrc pathdst)
                                (fun tr => srv_Rename env tr pathsrc pathdst);;
                    match err with
                    | Some _ => ret (None, errors_Wrap err "Move Rename failed")
                    | None =>
                        ' (dstObj, err) <- NewObject f remote;;
                        match err with
                        | Some _ => ret (None, errors_Wrap err "Move NewObject failed")
                        | None =>
                            err <- client_Close env i;;
                            match err with
                            | Some _ => ret (dstObj, err)
                            | None => ret (dstObj, None)
                            end
                        end
                    end)
             end)
      end
  end.

(** [string(resp.Data[8:16])].  Go checks the upper bound of a slice
    expression against the capacity; the response is taken to have no
    spare capacity. *)
Definition parse_checksum (data : string) : res string :=
  if Nat.ltb (String.length data) 16 then Panic "slice bounds out of range"
  else Ret (String.substring 8 8 data).

(** [Object.Hash] *)
Definition Hash (o : Object) (t : hash_Type) : M (Object * (string * option error)) :=
  if negb (hash_Type_eqb t Adler32HashType) then ret (o, ("", Some ErrUnsupported))
  else
    ' (client, path, err) <- xrdremote (Object_path env o);;
    match err with
    | Some _ => ret (o, ("", err))
    | None =>
        i <- deref client;;
        err <- call_err (EvOpen i path OpenRead) (fun tr => srv_Open env tr path OpenRead);;
        match err with
        | Some _ => ret (o, ("", err))
        | None =>
            defer (_ <- call_err (EvFileClose i path) (fun tr => srv_FileClose env tr path);;
                   ret tt)
              (r <- call_res (EvChecksum i path) (fun tr => srv_Checksum env tr path);;
               match r with
               | inl e => ret (o, ("", Some e))
               | inr data =>
                   h <- lift (parse_checksum data);;
                   ret (set_hash o h, (h, None))
               end)
        end
    end.

(** [xrdOpenFile.Close]; [cerr] is what [file.xrdfile.Close()] returned. *)
Definition xrdOpenFile_Close (file : xrdOpenFile) (cerr : option error) : option error :=
  if negb (o_size (file_o file) =? file_bytes file)%Z
  then Some (ErrLengthMismatch (o_size (file_o file)) (file_bytes file))
  else cerr.

(** [Object.SetModTime] *)
Definition SetModTime (o : Object) (modTime : Z) : M (Object * option error) :=
  ' (o1, err) <- Object_stat (set_modTime o modTime);;
  match err with
  | Some _ => ret (o1, errors_Wrap err "SetModTime stat failed")
  | None => ret (o1, None)
  end.

(** The closure [remove] of [Update]. *)
Definition Update_remove (o : Object) : M unit :=
  ' (client, path, removeErr) <- xrdremote (Object_path env o);;
  match removeErr with
  | Some _ => ret tt
  | None =>
      defer (deferred_Close client)
        (i <- deref client;;
         _ <- call_err (EvRemoveFile i path) (fun tr => srv_RemoveFile env tr path);;
         _ <- client_Close env i;;
         ret tt)
  end.

(** One turn of the [for] loop of [Update].  The last component of the
    result is the error [Update] returns from inside the loop, if it does;
    [checksum] is the running adler32 digest. *)
Definition loop_turn (o : Object) (c : nat) (path : string) (index turn : Z)
  (checksum : digest) (data : list byte) (err_read : option error)
  (again : Z -> Z -> digest -> M (Z * Z * digest * option error))
  : M (Z * Z * digest * option error) :=
  emit EvRead;;;
  if negb (is_nil err_read) && negb (is_EOF err_read)
  then ret (index, turn, checksum, errors_Wrap err_read "update: could not read data")
  else
    err <- call_err (EvWriteAt c path data index)
                (fun tr => srv_WriteAt env tr path data index);;
    match err with
    | Some _ =>
        Update_remove o;;;
        ret (index, turn, checksum, errors_Wrap err "update: could not copy to output file")
    | None =>
        let checksum := adler32_Write checksum data in
        let index := wrap64 (index + Z.of_nat (List.length data)) in
        let turn := wrap64 (turn + 1) in
        if is_EOF err_read then ret (index, turn, checksum, None)
        else again index turn checksum
    end.

Fixpoint stream_loop (o : Object) (c : nat) (path : string) (input : reader)
  (index turn : Z) (checksum : digest) : M (Z * Z * digest * option error) :=
  match input with
  | [] =>
      loop_turn o c path index turn checksum [] (Some io_EOF)
        (fun i t d => ret (i, t, d, None))
  | (data, err_read) :: rest =>
      loop_turn o c path index turn checksum data err_read (stream_loop o c path rest)
  end.

(** [Update] from the loop on. *)
Definition Update_stream (o : Object) (c : nat) (path : string) (input : reader)
  (src : ObjectInfo) : M (Object * option error) :=
  ' (index, turn, checksum, exit) <- stream_loop o c path input 0 0 adler32_New;;
  match exit with
  | Some _ => ret (o, exit)
  | None =>
      let o := set_hash o (Sprintf_x (adler32_Sum32 checksum)) in
      (if (turn =? 0)%Z then panic "integer divide by zero" else ret tt);;;
      err <- call_err (EvFileClose c path) (fun tr => srv_FileClose env tr path);;
      match err with
      | Some _ => Update_remove o;;; ret (o, errors_Wrap err "could not close output file")
      | None =>
          ' (o1, err) <- SetModTime o (src_ModTime src);;
          match err with
          | Some _ => ret (o1, errors_Wrap err "Update: SetModTime failed")
          | None => ret (o1, None)
          end
      end
  end.

(** [Object.Update] *)
Definition Update (o : Object) (input : reader) (src : ObjectInfo)
  : M (Object * option error) :=
  let o := set_hash o "" in
  ' (client, path, err) <- xrdremote (Object_path env o);;
  match err with
  | Some _ => ret (o, err)
  | None =>
      defer (deferred_Close client)
        (i <- deref client;;
         err <- call_err (EvOpen i path OpenNew_MkPath)
                     (fun tr => srv_Open env tr path OpenNew_MkPath);;
         err <- match err with
                | Some _ =>
                    call_err (EvOpen i path OpenUpdate_MkPath_Delete)
                         (fun tr => srv_Open env tr path OpenUpdate_MkPath_Delete)
                | None => ret None
                end;;
         match err with
         | Some _ => ret (o, err)
         | None => Update_stream o i path input src
         end)
  end.

(** [Fs.Put] *)
Definition Put (f : Fs) (input : reader) (src : ObjectInfo)
  : M (option Object * option error) :=
  ' (o, err) <- Update (new_Object f (src_Remote src)) input src;;
  match err with
  | Some _ => ret (None, err)
  | None => ret (Some o, None)
  end.

End Code.

End Legacy.

(** ** Sequences of acquire and release

    A caller holds the sessions it acquired and has not released yet, and
    releases only those ("callers must not use a Session after releasing
    it").  [held] and [dead] are bookkeeping about the sequence, not state
    of the program: the sessions checked out, and the sessions that were
    released with an error. *)
Inductive pool_op : Type :=
| Acquire
| Release (c : nat) (err : option error).

Record gstate : Type := mkG {
  gw : world;
  held : list nat;
  dead : list nat
}.

Definition mem (c : nat) (l : list nat) : bool := existsb (Nat.eqb c) l.

Definition drop (c : nat) (l : list nat) : list nat :=
  filter (fun x => negb (Nat.eqb c x)) l.

(** One operation; the second component is the session an [Acquire]
    returned.  [None]: the operation panics or releases a session that is
    not held. *)
Definition pool_step (env : Env) (f : Fs) (op : pool_op) (g : gstate)
  : option (gstate * connptr) :=
  match op with
  | Acquire =>
      match Pooled.getXrootdConnection env f (gw g) with
      | (Ret (Some c, _), w') => Some (mkG w' (c :: held g) (dead g), Some c)
      | (Ret (None, _), w') => Some (mkG w' (held g) (dead g), None)
      | (Panic _, _) => None
      end
  | Release c err =>
      if mem c (held g) then
        match Pooled.ConnectionFree env (Some c) err (gw g) with
        | (Ret _, w') =>
            Some (mkG w' (drop c (held g))
                      (if is_nil err then dead g else c :: dead g), None)
        | (Panic _, _) => None
        end
      else None
  end.

Fixpoint pool_run (env : Env) (f : Fs) (ops : list pool_op) (g : gstate)
  : option (gstate * list connptr) :=
  match ops with
  | [] => Some (g, [])
  | op :: rest =>
      match pool_step env f op g with
      | None => None
      | Some (g1, r) =>
          match pool_run env f rest g1 with
          | None => None
          | Some (g2, rs) => Some (g2, r :: rs)
          end
      end
  end.

(** The pool invariant, with the bookkeeping it is stated against: no nil
    and no repetition in the pool; a pooled session has no recorded error
    and is neither held nor dead; a held session is not dead; every
    session was allocated. *)
Record pool_inv (g : gstate) : Prop := mkInv {
  inv_nonnil : ~ In None (pool (gw g));
  inv_nodup : NoDup (pool (gw g));
  inv_pool : forall c, In (Some c) (pool (gw g)) ->
      conn_err (gw g) c = None /\ c < List.length (conns (gw g))
      /\ ~ In c (held g) /\ ~ In c (dead g);
  inv_held : forall c, In c (held g) ->
      c < List.length (conns (gw g)) /\ ~ In c (dead g);
  inv_dead : forall c, In c (dead g) -> c < List.length (conns (gw g))
}.

Definition start : gstate := mkG empty_world [] [].

(** ** Reasoning about traces and results

    [wp m Q]: from every world, [m] only appends to the trace, and its
    outcome together with what it appended satisfies [Q].  The rules
    below quantify over what a computation reads from the world and what
    the server answers. *)
Definition wp {A} (m : M A) (Q : res A -> list event -> Prop) : Prop :=
  forall w, exists evs, trace (snd (m w)) = trace w ++ evs /\ Q (fst (m w)) evs.

(** The bytes written by the [WriteAt] calls of a trace, in order. *)
Fixpoint written_bytes (evs : list event) : list byte :=
  match evs with
  | [] => []
  | EvWriteAt _ _ data _ :: rest => data ++ written_bytes rest
  | _ :: rest => written_bytes rest
  end.

Fixpoint count_reads (evs : list event) : nat :=
  match evs with
  | [] => 0
  | EvRead :: rest => S (count_reads rest)
  | _ :: rest => count_reads rest
  end.

Definition is_delete (e : event) : bool :=
  match e with
  | EvRemoveDir _ _ | EvRemoveAll _ _ | EvRemoveFile _ _ => true
  | _ => false
  end.

Definition is_RemoveFile (e : event) : bool :=
  match e with
  | EvRemoveFile _ _ => true
  | _ => false
  end.

Definition is_Checksum (e : event) : bool :=
  match e with
  | EvChecksum _ _ => true
  | _ => false
  end.

(** A release that carries an error. *)
Definition is_free_err (e : event) : bool :=
  match e with
  | EvFree _ (Some _) => true
  | _ => false
  end.

Definition is_read_or_write (e : event) : bool :=
  match e with
  | EvRead | EvWriteAt _ _ _ _ => true
  | _ => false
  end.

(** No event of [evs] satisfies [p]. *)
Definition none_of (p : event -> bool) (evs : list event) : Prop :=
  forallb (fun e => negb (p e)) evs = true.

Definition divide_by_zero : string := "integer divide by zero".

(** The chunks an upload writes: the reads up to the first one that
    reports [io.EOF], that one included. *)
Fixpoint upload_chunks (input : reader) : list (list byte) :=
  match input with
  | [] => [[]]
  | (data, err) :: rest =>
      if is_EOF err then [data] else data :: upload_chunks rest
  end.

(** The operations that acquire a pooled session, with the error each
    returns. *)
Inductive operation : Type :=
| OpList (f : Fs) (dir : string)
| OpMkdir (f : Fs) (dir : string)
| OpRmdir (f : Fs) (dir : string)
| OpPurge (f : Fs)
| OpMove (f : Fs) (src : fs_Object) (remote : string)
| OpStat (f : Fs) (remote : string)
| OpHash (o : Object) (t : hash_Type)
| OpUpdate (o : Object) (input : reader) (src : ObjectInfo)
| OpRemove (o : Object).

Definition run_op (env : Env) (op : operation) : M (option error) :=
  match op with
  | OpList f dir => r <- Pooled.List env f dir;; ret (snd r)
  | OpMkdir f dir => Pooled.Mkdir env f dir
  | OpRmdir f dir => Pooled.Rmdir env f dir
  | OpPurge f => Pooled.Purge env f
  | OpMove f src remote => r <- Pooled.Move env f src remote;; ret (snd r)
  | OpStat f remote => r <- Pooled.Fs_stat env f remote;; ret (snd r)
  | OpHash o t => r <- Pooled.Hash env o t;; ret (snd (snd r))
  | OpUpdate o input src => r <- Pooled.Update env o input src;; ret (snd r)
  | OpRemove o => Pooled.Remove env o
  end.

(** The calls [getXrootdConnection] can make: closing errored sessions it
    pops, and dialling. *)
Definition pool_event (e : event) : bool :=
  match e with
  | EvDial _ _ | EvClientClose _ => true
  | _ => false
  end.

(** What [getXrootdConnection] returns: a session and no error, or no
    session and an error; it panics only on a nil entry of the pool. *)
Definition acquired (r : res (connptr * option error)) : Prop :=
  match r with
  | Ret (Some _, None) => True
  | Ret (None, Some _) => True
  | Ret _ => False
  | Panic msg => msg = nil_deref
  end.

(** Every event of [evs] satisfies [fp]. *)
Definition only (fp : event -> bool) (evs : list event) : Prop :=
  forallb fp evs = true.

(** The calls of the operations that only look: dial, close, stat, list,
    and a release without an error. *)
Definition quiet (e : event) : bool :=
  match e with
  | EvDial _ _ | EvClientClose _ | EvStat _ _ | EvDirlist _ _ | EvFree _ None => true
  | _ => false
  end.

(** The calls of the cleanup after a failed upload. *)
Definition cleanup (e : event) : bool :=
  match e with
  | EvDial _ _ | EvClientClose _ | EvRemoveFile _ _ | EvFree _ None => true
  | _ => false
  end.

Definition is_write (e : event) : bool :=
  match e with
  | EvWriteAt _ _ _ _ => true
  | _ => false
  end.

Definition not_free_err (e : event) : bool := negb (is_free_err e).

(** An operation's object result keeps the cached hash [h]. *)
Definition keeps_hash {E} (h : string) (r : res (Object * E)) : Prop :=
  match r with
  | Ret (o, _) => o_hash o = h
  | Panic _ => True
  end.

(** What the legacy [xrdremote] returns: a client and no error, or no
    client and an error, which is not one made by [errors.Wrap]. *)
Definition dialled (r : res (connptr * string * option error)) : Prop :=
  match r with
  | Ret (Some _, _, None) => True
  | Ret (None, _, Some (Wrap _ _)) => False
  | Ret (None, _, Some _) => True
  | Ret _ => False
  | Panic msg => msg = nil_deref
  end.

(** The only panic of the operations that look and clean up is the nil
    dereference. *)
Definition nil_panic {A} (r : res A) : Prop :=
  match r with
  | Panic msg => msg = nil_deref
  | Ret _ => True
  end.


(** What the loop of the legacy [Update] has done when it is left without
    an error: it wrote the chunks of the input, in order, and the digest
    went over exactly these bytes. *)
Definition loop_done (input : reader) (d : digest)
  (r : res (Z * Z * digest * option error)) (evs : list event) : Prop :=
  match r with
  | Ret (_, _, d', None) =>
      written_bytes evs = List.concat (upload_chunks input)
      /\ d' = adler32_Write d (written_bytes evs)
  | _ => True
  end.

(** What a legacy [Update] that returns no error has done. *)
Definition published (input : reader) (r : res (Object * option error))
  (evs : list event) : Prop :=
  match r with
  | Ret (o', None) =>
      written_bytes evs = List.concat (upload_chunks input)
      /\ o_hash o' = Sprintf_x (adler32_Checksum (written_bytes evs))
  | _ => True
  end.

(** A [Hash] that returns without an error has sent a checksum query. *)
Definition queried (r : res (Object * (string * option error))) (evs : list event) : Prop :=
  match r with
  | Ret (_, (_, None)) => existsb is_Checksum evs = true
  | _ => True
  end.




(** The digest of a well-formed checksum answer: eight hexadecimal
    digits. *)
Definition is_hex_digit (ch : ascii) : bool :=
  let n := nat_of_ascii ch in
  (Nat.leb 48 n && Nat.leb n 57) || (Nat.leb 97 n && Nat.leb n 102)
  || (Nat.leb 65 n && Nat.leb n 70).

Fixpoint string_forallb (p : ascii -> bool) (s : string) : bool :=
  match s with
  | EmptyString => true
  | String ch rest => p ch && string_forallb p rest
  end.

(** ["adler32 <digest>\x00"] *)
Definition well_formed_answer (d : string) : string :=
  ("adler32 " ++ d ++ String "000" "")%string.

(** The sum of the byte counts a sequence of [Read]s returned. *)
Definition delivered (reads : list (Z * option error)) : Z :=
  fold_left (fun acc r => (acc + fst r)%Z) reads 0%Z.

(** [Hash] returned the digest [d] and cached it, or returned an error. *)
Definition digest_is (d : string) (r : res (Object * (string * option error))) : Prop :=
  match r with
  | Ret (o', (h, None)) => h = d /\ o_hash o' = d
  | _ => True
  end.

(** ** Concrete servers and inputs *)

Module Fixture.

(** Stand-ins for the library functions; nothing proved with them depends
    on what they compute. *)
Definition parse (name : string) : error + URL :=
  inr (mkURL "localhost:1094" "user" name).

Definition join (a b : string) : string := (a ++ "/" ++ b)%string.

Definition info_file : FileInfo := mkFileInfo "a.txt" 3 1590000000 420 false.

(** A server on which every call succeeds; the directory listing has one
    entry and the checksum answer is the one quoted in the source. *)
Definition env_ok : Env :=
  mkEnv parse (fun s => s) join
        (fun _ _ _ => None)
        (fun _ _ => inr info_file)
        (fun _ _ => inr [info_file])
        (fun _ _ => None) (fun _ _ => None) (fun _ _ => None) (fun _ _ => None)
        (fun _ _ _ => None)
        (fun _ _ _ => None)
        (fun _ _ _ _ => None)
        (fun _ _ => None)
        (fun _ => None)
        (fun _ _ => inr (String.append "adler32 95ec3712" (String "000" ""))).

Definition with_Stat (env : Env) (s : list event -> string -> nat + FileInfo) : Env :=
  mkEnv (xrdio_Parse env) (filepath_Base env) (path_Join env)
        (srv_NewClient env) s (srv_Dirlist env) (srv_MkdirAll env) (srv_RemoveDir env)
        (srv_RemoveAll env) (srv_RemoveFile env) (srv_Rename env) (srv_Open env)
        (srv_WriteAt env) (srv_FileClose env) (srv_ClientClose env) (srv_Checksum env).

Definition with_Checksum (env : Env) (s : list event -> string -> nat + string) : Env :=
  mkEnv (xrdio_Parse env) (filepath_Base env) (path_Join env)
        (srv_NewClient env) (srv_Stat env) (srv_Dirlist env) (srv_MkdirAll env)
        (srv_RemoveDir env) (srv_RemoveAll env) (srv_RemoveFile env) (srv_Rename env)
        (srv_Open env) (srv_WriteAt env) (srv_FileClose env) (srv_ClientClose env) s.

(** The server answers every stat with an error. *)
Definition env_stat_fails : Env := with_Stat env_ok (fun _ _ => inl 1).

(** The server answers the checksum query with the algorithm name only. *)
Definition env_bare_name : Env := with_Checksum env_ok (fun _ _ => inr "adler32").

Definition fs_a : Fs :=
  mkFs "a" "" (mkOptions "hostA" "1094" "/data" 1024 "adler32" "user")
       "root://hostA:1094//data/".


Definition obj_a : Object := new_Object fs_a "a.txt".

Definition src_info : ObjectInfo := mkObjectInfo "a.txt" 3 1590000000.

(** "abc" in one read that also reports the end of the data. *)
Definition input_abc : reader := [([x61; x62; x63], Some io_EOF)].

(** Two bytes, then a read error. *)
Definition input_broken : reader := [([x61; x62], None); ([], Some (ErrReader 7))].


(** An object of ten bytes, and a download that delivered four. *)
Definition obj_ten : Object := mkObject fs_a "a.txt" 10 0 0 "".

Definition short_download : xrdOpenFile :=
  read_all (newObjectReader obj_ten) [(4%Z, Some io_EOF)].

Definition ops_example : list pool_op :=
  [Acquire; Release 0 (Some (ErrServer 1)); Acquire; Release 1 None; Acquire].

(** The sessions the acquires of [ops_example] return on [env_ok], and
    the state it ends in. *)
Definition ops_example_rets : list connptr :=
  Eval vm_compute in
    match pool_run env_ok fs_a ops_example start with
    | Some (_, rs) => rs
    | None => []
    end.

Definition ops_example_final : gstate :=
  Eval vm_compute in
    match pool_run env_ok fs_a ops_example start with
    | Some (g, _) => g
    | None => start
    end.

End Fixture.

(** ** The rest of the two revisions

    The directory move, [NewFs], and the legacy operations that the
    properties of the upload and of the pool did not need. *)

(** The values of rclone's [error] that only [dirExists], [DirMove] and
    [NewFs] return, beside the errors above.  None of them is ever
    wrapped by these functions. *)
Inductive fs_error : Type :=
| ErrorCantDirMove
| ErrorDirExists
| ErrorIsFile
| OtherError (e : error).

Definition other (e : option error) : option fs_error :=
  match e with
  | Some x => Some (OtherError x)
  | None => None
  end.

(** [fs.Fs] is an interface: an [*Fs] of this package or the file system
    of another backend. *)
Inductive fs_Fs : Type :=
| XrdFs (f : Fs)
| OtherFs (name : string).

Definition is_ObjectNotFound (e : error) : bool :=
  match e with
  | ErrorObjectNotFound => true
  | _ => false
  end.

Definition is_NotAFile (e : error) : bool :=
  match e with
  | ErrorNotAFile => true
  | _ => false
  end.

(** The URL [NewFs] builds from the options and the root. *)
Definition make_url (opt : Options) (root : string) : string :=
  ("root://" ++ Servername opt ++ ":" ++ Port opt ++ "/" ++ Path_to_file opt ++ "/" ++ root)%string.

(** [fs.OpenOption] as [Open] reads it: a seek option, a range option,
    which carries its [Decode], or another option. *)
Inductive fs_OpenOption : Type :=
| SeekOption (Offset : Z)
| RangeOption (Decode : Z -> Z * Z)
| OtherOption (Mandatory : bool).

(** The loop of [Open] over the options: [offset] and [limit] after
    it. *)
Definition Open_options (size : Z) (options : list fs_OpenOption) : Z * Z :=
  fold_left (fun acc option =>
               match option with
               | SeekOption off => (off, snd acc)
               | RangeOption decode => decode size
               | OtherOption _ => acc
               end)
            options (0%Z, (-1)%Z).

(** What [Open] returns, the reader with the limit it is wrapped with,
    and whether [Open] closed the file it had opened. *)
Record opened : Type := mkOpened {
  open_in : option (xrdOpenFile * Z);
  open_err : option error;
  open_closed : bool
}.

Module PooledRest.

Section Code.

Variable env : Env.

(** [filepath.Dir] and [os.IsNotExist], of the Go library. *)
Variable filepath_Dir : string -> string.
Variable os_IsNotExist : error -> bool.

(** [Fs.dirExists] *)
Definition dirExists (f : Fs) (dir : string) : M (bool * option fs_error) :=
  match Pooled.xrdremote env dir with
  | inl e => ret (false, Some (OtherError (Errorf "could not stat" e)))
  | inr path =>
      ' (c, errClient) <- Pooled.getXrootdConnection env f;;
      match errClient with
      | Some _ => ret (false, other (errors_Wrap errClient "dirExists: failed to open client"))
      | None =>
          defer (Pooled.ConnectionFree env c errClient)
            (i <- deref c;;
             r <- call_res (EvStat i path) (fun tr => srv_Stat env tr path);;
             match r with
             | inl e =>
                 if os_IsNotExist e then ret (false, None)
                 else ret (false, other (errors_Wrap (Some e) "dirExists stat failed"))
             | inr info =>
                 if negb (fi_IsDir info) then ret (false, Some ErrorIsFile)
                 else ret (true, None)
             end)
      end
  end.

(** [Fs.DirMove].  The error of [dirExists] is dropped, and the test
    after [MkdirAll] reads [errClient], which is nil there, while the
    result of [MkdirAll] went to [err].  The message of the last wrap is
    kept without the two paths the source formats into it. *)
Definition DirMove (f : Fs) (src : fs_Fs) (srcRemote dstRemote : string)
  : M (option fs_error) :=
  match src with
  | OtherFs _ => ret (Some ErrorCantDirMove)
  | XrdFs srcFs =>
      let srcPath := path_Join env (fs_root srcFs) srcRemote in
      let dstPath := (fs_url f ++ "/" ++ dstRemote)%string in
      match Pooled.xrdremote env dstPath with
      | inl e => ret (other (errors_Wrap (Some e) "dirMove: can't find the Path"))
      | inr path =>
          ' (ok, err) <- dirExists f path;;
          if (ok : bool) then ret (Some ErrorDirExists)
          else
            ' (c, errClient) <- Pooled.getXrootdConnection env f;;
            match errClient with
            | Some _ => ret (other (errors_Wrap errClient "DirMove"))
            | None =>
                defer (Pooled.ConnectionFree env c errClient)
                  (i <- deref c;;
                   err <- call_err (EvMkdirAll i (filepath_Dir path))
                                   (fun tr => srv_MkdirAll env tr (filepath_Dir path));;
                   match errClient with
                   | Some _ =>
                       ret (other (errors_Wrap errClient "DirMove mkParentDir dst failed"))
                   | None =>
                       errClient <- call_err (EvRename i srcPath path)
                                             (fun tr => srv_Rename env tr srcPath path);;
                       match errClient with
                       | Some _ => ret (other (errors_Wrap errClient "DirMove Rename failed"))
                       | None => ret None
                       end
                   end)
            end
      end
  end.

(** [NewFs]; [cfg] is what [configstruct.Set] made of the configuration.
    The [Fs] is returned with the root it has at the return. *)
Definition NewFs (name root : string) (cfg : error + Options)
  : M (option Fs * option fs_error) :=
  match cfg with
  | inl e => ret (None, Some (OtherError e))
  | inr opt =>
      let url := make_url opt root in
      let f := mkFs name root opt url in
      match Pooled.xrdremote env url with
      | inl e => ret (None, other (errors_Wrap (Some e) "NewFs"))
      | inr path =>
          if negb (String.eqb root "") then
            let remote := filepath_Base env path in
            let root1 := filepath_Dir path in
            let root1 := if String.eqb root1 "." then "" else root1 in
            let f := mkFs name root1 opt url in
            ' (_, err) <- Pooled.NewObject env f remote;;
            match err with
            | Some e =>
                if is_ObjectNotFound e || is_NotAFile (errors_Cause e)
                then ret (Some (mkFs name path opt url), None)
                else ret (None, Some (OtherError e))
            | None => ret (Some f, Some ErrorIsFile)
            end
          else ret (Some f, None)
      end
  end.

(** [Object.Open]; [xrdio_Open] is the error of [xrdio.Open], [Seek]
    is what [xrdfile.Seek(offset, io.SeekStart)] returns. *)
Definition Open (o : Object) (options : list fs_OpenOption) (xrdio_Open : option error)
  (Seek : Z -> Z * option error) : opened :=
  let (offset, limit) := Open_options (o_size o) options in
  match xrdio_Open with
  | Some _ => mkOpened None (errors_Wrap xrdio_Open "Open failed") false
  | None =>
      if (offset >? 0)%Z then
        let (off, err) := Seek offset in
        if negb (is_nil err) || negb (off =? offset)%Z
        then mkOpened None (errors_Wrap err "Open Seek failed") true
        else mkOpened (Some (newObjectReader o, limit)) None false
      else mkOpened (Some (newObjectReader o, limit)) None false
  end.

End Code.

End PooledRest.

Module LegacyRest.

Section Code.

Variable env : Env.
Variable filepath_Dir : string -> string.
Variable os_IsNotExist : error -> bool.

(** [Fs.Mkdir] *)
Definition Mkdir (f : Fs) (dir : string) : M (option error) :=
  let xrddir := (fs_url f ++ "/" ++ dir)%string in
  ' (client, path, err) <- Legacy.xrdremote env xrddir;;
  match err with
  | Some _ => ret err
  | None =>
      defer (Legacy.deferred_Close env client)
        (i <- deref client;;
         err <- call_err (EvMkdirAll i path) (fun tr => srv_MkdirAll env tr path);;
         match err with
         | Some _ => ret err
         | None =>
             err <- client_Close env i;;
             match err with
             | Some _ => ret err
             | None => ret None
             end
         end)
  end.

(** [Fs.Purge] *)
Definition Purge (f : Fs) : M (option error) :=
  ' (client, path, err) <- Legacy.xrdremote env (fs_root f);;
  match err with
  | Some _ => ret err
  | None =>
      defer (Legacy.deferred_Close env client)
        (i <- deref client;;
         err <- call_err (EvRemoveAll i path) (fun tr => srv_RemoveAll env tr path);;
         match err with
         | Some _ => ret err
         | None =>
             err <- client_Close env i;;
             match err with
             | Some _ => ret err
             | None => ret None
             end
         end)
  end.

(** [Object.Remove] *)
Definition Remove (o : Object) : M (option error) :=
  ' (client, path, err) <- Legacy.xrdremote env (Object_path env o);;
  match err with
  | Some _ => ret err
  | None =>
      defer (Legacy.deferred_Close env client)
        (i <- deref client;;
         err <- call_err (EvRemoveFile i path) (fun tr => srv_RemoveFile env tr path);;
         match err with
         | Some _ => ret err
         | None =>
             err <- client_Close env i;;
             match err with
             | Some _ => ret err
             | None => ret None
             end
         end)
  end.

(** [Fs.dirExists] *)
Definition dirExists (f : Fs) (dir : string) : M (bool * option fs_error) :=
  ' (client, path, err) <- Legacy.xrdremote env dir;;
  match err with
  | Some e => ret (false, Some (OtherError (Errorf "could not stat" e)))
  | None =>
      defer (Legacy.deferred_Close env client)
        (i <- deref client;;
         r <- call_res (EvStat i path) (fun tr => srv_Stat env tr path);;
         match r with
         | inl e =>
             if os_IsNotExist e then ret (false, None)
             else ret (false, other (errors_Wrap (Some e) "dirExists stat failed"))
         | inr info =>
             if negb (fi_IsDir info) then ret (false, Some ErrorIsFile)
             else ret (true, None)
         end)
  end.

(** [Fs.DirMove] *)
Definition DirMove (f : Fs) (src : fs_Fs) (srcRemote dstRemote : string)
  : M (option fs_error) :=
  match src with
  | OtherFs _ => ret (Some ErrorCantDirMove)
  | XrdFs srcFs =>
      let srcPath := path_Join env (fs_root srcFs) srcRemote in
      let dstPath := (fs_url f ++ "/" ++ dstRemote)%string in
      ' (client, path, err) <- Legacy.xrdremote env dstPath;;
      match err with
      | Some _ => ret (other (errors_Wrap err "dirMove not open client"))
      | None =>
          defer (Legacy.deferred_Close env client)
            (' (ok, err) <- dirExists f path;;
             if (ok : bool) then ret (Some ErrorDirExists)
             else
               i <- deref client;;
               err <- call_err (EvMkdirAll i (filepath_Dir path))
                               (fun tr => srv_MkdirAll env tr (filepath_Dir path));;
               match err with
               | Some _ => ret (other (errors_Wrap err "DirMove mkParentDir dst failed"))
               | None =>
                   err <- call_err (EvRename i srcPath path)
                                   (fun tr => srv_Rename env tr srcPath path);;
                   match err with
                   | Some _ => ret (other (errors_Wrap err "DirMove Rename failed"))
                   | None =>
                       err <- client_Close env i;;
                       match err with
                       | Some _ => ret (other err)
                       | None => ret None
                       end
                   end
               end)
      end
  end.

(** [NewFs] *)
Definition NewFs (name root : string) (cfg : error + Options)
  : M (option Fs * option fs_error) :=
  match cfg with
  | inl e => ret (None, Some (OtherError e))
  | inr opt =>
      let url := make_url opt root in
      let f := mkFs name root opt url in
      ' (cli, path, err) <- Legacy.xrdremote env url;;
      match err with
      | Some _ => ret (None, other (errors_Wrap err "NewFs"))
      | None =>
          defer (Legacy.deferred_Close env cli)
            (if negb (String.eqb root "") then
               let remote := filepath_Base env path in
               let root1 := filepath_Dir path in
               let root1 := if String.eqb root1 "." then "" else root1 in
               let f := mkFs name root1 opt url in
               ' (_, err) <- Legacy.NewObject env f remote;;
               match err with
               | Some e =>
                   if is_ObjectNotFound e || is_NotAFile (errors_Cause e)
                   then ret (Some (mkFs name path opt url), None)
                   else ret (None, Some (OtherError e))
               | None => ret (Some f, Some ErrorIsFile)
               end
             else ret (Some f, None))
      end
  end.

(** [Object.Open], which does not close the file when the seek is
    rejected; [xrdio_Open] is the error of [xrdio.Open], [Seek]
    is what [xrdfile.Seek(offset, io.SeekStart)] returns. *)
Definition Open (o : Object) (options : list fs_OpenOption) (xrdio_Open : option error)
  (Seek : Z -> Z * option error) : opened :=
  let (offset, limit) := Open_options (o_size o) options in
  match xrdio_Open with
  | Some _ => mkOpened None (errors_Wrap xrdio_Open "Open failed") false
  | None =>
      if (offset >? 0)%Z then
        let (off, err) := Seek offset in
        if negb (is_nil err) || negb (off =? offset)%Z
        then mkOpened None (errors_Wrap err "Open Seek failed") false
        else mkOpened (Some (newObjectReader o, limit)) None false
      else mkOpened (Some (newObjectReader o, limit)) None false
  end.

End Code.

End LegacyRest.

(** ** Reading a trace *)

(** The client a call was made on. *)
Definition client_of (e : event) : option nat :=
  match e with
  | EvStat c _ | EvDirlist c _ | EvMkdirAll c _ | EvRemoveDir c _ | EvRemoveAll c _
  | EvRemoveFile c _ | EvRename c _ _ | EvOpen c _ _ | EvWriteAt c _ _ _
  | EvFileClose c _ | EvChecksum c _ => Some c
  | _ => None
  end.

(** The clients some call of the trace was made on, the sessions the
    trace released, and the clients it closed. *)
Fixpoint used (evs : list event) : list nat :=
  match evs with
  | [] => []
  | e :: rest =>
      match client_of e with
      | Some c => c :: used rest
      | None => used rest
      end
  end.

Fixpoint freed (evs : list event) : list nat :=
  match evs with
  | [] => []
  | EvFree c _ :: rest => c :: freed rest
  | _ :: rest => freed rest
  end.

Fixpoint closed (evs : list event) : list nat :=
  match evs with
  | [] => []
  | EvClientClose c :: rest => c :: closed rest
  | _ :: rest => closed rest
  end.

(** Every client the trace used is in [open] or among those the trace
    settled, where [done] reads the settled ones off a trace. *)
Definition accounted (done : list event -> list nat) (open : list nat) (evs : list event)
  : Prop :=
  forall x, In x (used evs) -> In x open \/ In x (done evs).

(** Every call of the trace was made on [c]. *)
Definition uses_only (c : nat) (evs : list event) : Prop :=
  forall x, In x (used evs) -> x = c.

(** Every session the trace used was released in it; every client the
    trace used was closed in it. *)
Definition all_released (evs : list event) : Prop := accounted freed [] evs.

Definition all_closed (evs : list event) : Prop := accounted closed [] evs.

Definition is_ClientClose (e : event) : bool :=
  match e with
  | EvClientClose _ => true
  | _ => false
  end.

Definition is_Dial (e : event) : bool :=
  match e with
  | EvDial _ _ => true
  | _ => false
  end.

Definition is_Dirlist (e : event) : bool :=
  match e with
  | EvDirlist _ _ => true
  | _ => false
  end.

(** Every deleting call of the trace comes after a [Dirlist] call of the
    trace; [seen] tells whether one was made before the trace. *)
Fixpoint deletes_after_listing (seen : bool) (evs : list event) : bool :=
  match evs with
  | [] => true
  | e :: rest =>
      (if is_delete e then seen else true)
      && deletes_after_listing (seen || is_Dirlist e) rest
  end.

(** What [Rmdir] needs of [List]: it deletes nothing, and it has made a
    [Dirlist] call when it returns without an error. *)
Definition listed (r : res (list DirEntry * option error)) (evs : list event) : Prop :=
  none_of is_delete evs
  /\ match r with
     | Ret (_, None) => existsb is_Dirlist evs = true
     | _ => True
     end.

(** The calls that change something on the server. *)
Definition is_modifying (e : event) : bool :=
  match e with
  | EvMkdirAll _ _ | EvRemoveDir _ _ | EvRemoveAll _ _ | EvRemoveFile _ _
  | EvRename _ _ _ | EvOpen _ _ _ | EvWriteAt _ _ _ _ => true
  | _ => false
  end.

Definition is_MkdirAll (e : event) : bool :=
  match e with
  | EvMkdirAll _ _ => true
  | _ => false
  end.

Definition is_Rename (e : event) : bool :=
  match e with
  | EvRename _ _ _ => true
  | _ => false
  end.

(** What [WriteAt(data, off)] makes of a file: the bytes from [off] on
    are replaced, a gap before [off] is filled with zero bytes. *)
Definition write_at (content data : list byte) (off : Z) : list byte :=
  let o := Z.to_nat off in
  firstn o content ++ repeat x00 (o - List.length content) ++ data
  ++ skipn (o + List.length data) content.

(** The file the writes of a trace leave, starting from [content]. *)
Fixpoint replay (evs : list event) (content : list byte) : list byte :=
  match evs with
  | [] => content
  | EvWriteAt _ _ data off :: rest => replay rest (write_at content data off)
  | _ :: rest => replay rest content
  end.

(** The operations of the legacy revision that dial a client, [Hash]
    apart. *)
Inductive legacy_operation : Type :=
| LList (f : Fs) (dir : string)
| LMkdir (f : Fs) (dir : string)
| LRmdir (f : Fs) (dir : string)
| LPurge (f : Fs)
| LMove (f : Fs) (src : fs_Object) (remote : string)
| LDirMove (f : Fs) (src : fs_Fs) (srcRemote dstRemote : string)
| LStat (f : Fs) (remote : string)
| LUpdate (o : Object) (input : reader) (src : ObjectInfo)
| LRemove (o : Object).

Definition run_legacy (env : Env) (dir_of : string -> string) (not_exist : error -> bool)
  (op : legacy_operation) : M unit :=
  match op with
  | LList f dir => _ <- Legacy.List env f dir;; ret tt
  | LMkdir f dir => _ <- LegacyRest.Mkdir env f dir;; ret tt
  | LRmdir f dir => _ <- Legacy.Rmdir env f dir;; ret tt
  | LPurge f => _ <- LegacyRest.Purge env f;; ret tt
  | LMove f src remote => _ <- Legacy.Move env f src remote;; ret tt
  | LDirMove f src a b => _ <- LegacyRest.DirMove env dir_of not_exist f src a b;; ret tt
  | LStat f remote => _ <- Legacy.Fs_stat env f remote;; ret tt
  | LUpdate o input src => _ <- Legacy.Update env o input src;; ret tt
  | LRemove o => _ <- LegacyRest.Remove env o;; ret tt
  end.

(** What [Object.stat] may return: the object as it was with one of two
    errors, or the object with new metadata and the same [fs], [remote]
    and cached hash. *)
Definition stat_outcome (o : Object) (r : res (Object * option error)) : Prop :=
  match r with
  | Ret (o', None) =>
      o_fs o' = o_fs o /\ o_remote o' = o_remote o /\ o_hash o' = o_hash o
  | Ret (o', Some e) =>
      o' = o /\ (e = ErrorObjectNotFound \/ e = Wrap ErrorNotAFile (o_remote o))
  | Panic _ => True
  end.

(** The root [NewFs] gives the [Fs] when the root names a file: the
    parent, with ["."] turned into the empty string. *)
Definition parent_of (dir_of : string -> string) (path : string) : string :=
  if String.eqb (dir_of path) "." then "" else dir_of path.

(** What [NewFs] returns once the configuration and the URL were
    accepted: an [Fs] with the path as its root (the empty root stays)
    and no error; an [Fs] rooted at the parent and [ErrorIsFile]; or, in
    the legacy revision only, the wrapped error of the dial. *)
Definition newfs_result (dial_can_fail : bool) (root path parent : string)
  (r : res (option Fs * option fs_error)) : Prop :=
  match r with
  | Ret (Some f, None) => fs_root f = (if String.eqb root "" then "" else path)
  | Ret (Some f, Some ErrorIsFile) => root <> "" /\ fs_root f = parent
  | Ret (None, Some (OtherError (Wrap (ErrServer _) _))) => dial_can_fail = true
  | Ret _ => False
  | Panic msg => msg = nil_deref
  end.

(** What [NewObject] returns: an object and no error, or no object and an
    error that [NewFs] takes for "no such file". *)
Definition found (r : res (option Object * option error)) : Prop :=
  match r with
  | Ret (Some _, None) => True
  | Ret (None, Some e) => is_ObjectNotFound e || is_NotAFile (errors_Cause e) = true
  | Ret _ => False
  | Panic msg => msg = nil_deref
  end.

(** The error [XrootdConnection] makes of a failed dial. *)
Definition dial_error (code : nat) : error :=
  Wrap (ErrServer code) "XrootdConnection: failure to initialize a new XrootD client ".

(** What [Fs.stat] makes of the server's answer. *)
Definition stat_answer (r : nat + FileInfo) : option FileInfo * option error :=
  match r with
  | inl code => (None, Some (ErrServer code))
  | inr info => (Some info, None)
  end.

(** [info] is an answer of the server to some stat. *)
Definition stat_answers (env : Env) (info : FileInfo) : Prop :=
  exists tr path, srv_Stat env tr path = inr info.

Definition from_server {E} (env : Env) (r : res (option FileInfo * E)) : Prop :=
  match r with
  | Ret (Some info, _) => stat_answers env info
  | _ => True
  end.


(** What [SetModTime] leaves in the object: after an error, the time
    that was asked for; without one, the time a stat of the server
    reported. *)
Definition modtime_outcome (env : Env) (o : Object) (t : Z)
  (r : res (Object * option error)) : Prop :=
  match r with
  | Ret (o1, Some _) => o1 = set_modTime o t
  | Ret (o1, None) => exists info, stat_answers env info /\ o_modTime o1 = fi_ModTime info
  | Panic _ => True
  end.

(** The object returned is the object the operation was called on, as
    far as [fs] and [remote] go. *)
Definition same_object {E} (o : Object) (r : res (Object * E)) : Prop :=
  match r with
  | Ret (o', _) => o_fs o' = o_fs o /\ o_remote o' = o_remote o
  | Panic _ => True
  end.

(** What [Put] returns: the object named by the source on [f] and no
    error, or no object and an error. *)
Definition put_outcome (f : Fs) (src : ObjectInfo)
  (r : res (option Object * option error)) : Prop :=
  match r with
  | Ret (Some o, None) => o_fs o = f /\ o_remote o = src_Remote src
  | Ret (None, Some _) => True
  | Ret _ => False
  | Panic _ => True
  end.

(** [DirMove] returned the error it makes of a failed [MkdirAll]. *)
Definition mkdir_failed (r : res (option fs_error)) : bool :=
  match r with
  | Ret (Some (OtherError (Wrap _ msg))) => String.eqb msg "DirMove mkParentDir dst failed"
  | _ => false
  end.

(** The operation returned no error. *)
Definition loop_ok {A} (r : res (A * option error)) : bool :=
  match r with
  | Ret (_, None) => true
  | _ => false
  end.

(** What an upload that returned no error ([ok]) has done to a file that
    held [content]: the chunks of the input were appended in order, with
    one read for each chunk. *)
Definition stored (input : reader) (content : list byte) (ok : bool) (evs : list event)
  : Prop :=
  ok = true ->
  replay evs content = content ++ List.concat (upload_chunks input)
  /\ count_reads evs = List.length (upload_chunks input).

(** What a legacy [Mkdir], [Purge] or [Remove] that returned no error
    has done: one dial, the one call, and two closes of the client, the
    one in the body and the deferred one. *)
Definition closed_twice (r : res (option error)) (evs : list event) : Prop :=
  r = Ret None ->
  exists host user c call,
    evs = [EvDial host user; call; EvClientClose c; EvClientClose c]
    /\ client_of call = Some c /\ is_modifying call = true.

(** The seek of [Open] returned no error and another offset than the
    one asked for. *)
Definition short_seek (offset : Z) (xrdio_Open : option error) (Seek : Z -> Z * option error)
  : Prop :=
  xrdio_Open = None /\ (0 < offset)%Z
  /\ snd (Seek offset) = None /\ fst (Seek offset) <> offset.

(** [Open] sought and gave up: an error, or another offset. *)
Definition seek_rejected (offset : Z) (xrdio_Open : option error)
  (Seek : Z -> Z * option error) : Prop :=
  xrdio_Open = None /\ (0 < offset)%Z
  /\ (snd (Seek offset) <> None \/ fst (Seek offset) <> offset).

(** The pool holds only sessions that exist and have no recorded
    error. *)
Definition pool_healthy (w : world) : Prop :=
  forall c, In c (pool w) ->
    exists i, c = Some i /\ conn_err w i = None /\ i < List.length (conns w).

(** The sessions checked out are pairwise distinct. *)
Definition held_distinct (g : gstate) : Prop := NoDup (held g).

(** The sessions dialled since the world [base], in the order of their
    numbers. *)
Definition dialled_since (base w : world) : list connptr :=
  map Some (seq (List.length (conns base))
                (List.length (conns w) - List.length (conns base))).

(** A healthy pool; the sessions in [held], which are checked out,
    exist; and the pool together with the sessions checked out holds the
    sessions the pool of [base] held and the sessions dialled since, each
    as often. *)
Definition good (base : world) (held : list nat) (w : world) : Prop :=
  pool_healthy w
  /\ (forall c, In c held -> c < List.length (conns w))
  /\ List.length (conns base) <= List.length (conns w)
  /\ Permutation (pool w ++ map Some held) (pool base ++ dialled_since base w).

(** From a good world, [m] ends in a good world and its outcome
    satisfies [Q]. *)
Definition safe {A} (base : world) (held : list nat) (m : M A) (Q : res A -> Prop) : Prop :=
  forall w, good base held w -> good base held (snd (m w)) /\ Q (fst (m w)).




(** More servers. *)
Module Fixture2.

(** Nothing can be dialled. *)
Definition env_no_dial : Env :=
  mkEnv (xrdio_Parse Fixture.env_ok) (filepath_Base Fixture.env_ok)
        (path_Join Fixture.env_ok)
        (fun _ _ _ => Some 111)
        (srv_Stat Fixture.env_ok) (srv_Dirlist Fixture.env_ok) (srv_MkdirAll Fixture.env_ok)
        (srv_RemoveDir Fixture.env_ok) (srv_RemoveAll Fixture.env_ok)
        (srv_RemoveFile Fixture.env_ok) (srv_Rename Fixture.env_ok)
        (srv_Open Fixture.env_ok) (srv_WriteAt Fixture.env_ok)
        (srv_FileClose Fixture.env_ok) (srv_ClientClose Fixture.env_ok)
        (srv_Checksum Fixture.env_ok).

(** Every stat answers with a directory; [MkdirAll] fails. *)
Definition info_dir : FileInfo := mkFileInfo "d" 0 1590000000 493 true.

Definition env_dir : Env := Fixture.with_Stat Fixture.env_ok (fun _ _ => inr info_dir).

Definition env_mkdir_fails : Env :=
  mkEnv (xrdio_Parse Fixture.env_ok) (filepath_Base Fixture.env_ok)
        (path_Join Fixture.env_ok)
        (srv_NewClient Fixture.env_ok)
        (fun _ _ => inl 2) (srv_Dirlist Fixture.env_ok) (fun _ _ => Some 13)
        (srv_RemoveDir Fixture.env_ok) (srv_RemoveAll Fixture.env_ok)
        (srv_RemoveFile Fixture.env_ok) (srv_Rename Fixture.env_ok)
        (srv_Open Fixture.env_ok) (srv_WriteAt Fixture.env_ok)
        (srv_FileClose Fixture.env_ok) (srv_ClientClose Fixture.env_ok)
        (srv_Checksum Fixture.env_ok).

(** Every call succeeds but [client.Close]. *)
Definition env_close_fails : Env :=
  mkEnv (xrdio_Parse Fixture.env_ok) (filepath_Base Fixture.env_ok)
        (path_Join Fixture.env_ok)
        (srv_NewClient Fixture.env_ok)
        (srv_Stat Fixture.env_ok) (srv_Dirlist Fixture.env_ok) (srv_MkdirAll Fixture.env_ok)
        (srv_RemoveDir Fixture.env_ok) (srv_RemoveAll Fixture.env_ok)
        (srv_RemoveFile Fixture.env_ok) (srv_Rename Fixture.env_ok)
        (srv_Open Fixture.env_ok) (srv_WriteAt Fixture.env_ok)
        (srv_FileClose Fixture.env_ok) (fun _ => Some 9)
        (srv_Checksum Fixture.env_ok).

(** Stand-ins for [filepath.Dir] and [os.IsNotExist]. *)
Definition dir_of (s : string) : string := s.

Definition not_exist (e : error) : bool :=
  match e with
  | ErrServer 2 => true
  | _ => false
  end.

(** A world with one idle session. *)
Definition world_idle : world := mkWorld [Some 0] [None] [EvDial "hostA" "user"].

(** A world whose pool begins with two sessions with a recorded error,
    followed by two without. *)
Definition world_errored : world :=
  mkWorld [Some 0; Some 1; Some 2; Some 3]
          [Some (ErrServer 1); Some (ErrServer 2); None; None] [].

End Fixture2.

(** * Properties *)

(** ** Rules for [wp] *)

Section WpRules.

Context {A B : Type}.

Lemma wp_ret (a : A) (Q : res A -> list event -> Prop) :
  Q (Ret a) [] -> wp (ret a) Q.
Proof.
  intros H w. exists []. cbn. now rewrite app_nil_r.
Qed.

Lemma wp_panic (msg : string) (Q : res A -> list event -> Prop) :
  Q (Panic msg) [] -> wp (panic msg) Q.
Proof.
  intros H w. exists []. cbn. now rewrite app_nil_r.
Qed.

Lemma wp_lift (r : res A) (Q : res A -> list event -> Prop) :
  Q r [] -> wp (lift r) Q.
Proof.
  intros H w. exists []. cbn. now rewrite app_nil_r.
Qed.

Lemma wp_call (e : event) (answer : list event -> A) (Q : res A -> list event -> Prop) :
  (forall a, Q (Ret a) [e]) -> wp (call e answer) Q.
Proof.
  intros H w. exists [e]. cbn. auto.
Qed.

Lemma wp_call_res (e : event) (answer : list event -> nat + A)
  (Q : res (error + A) -> list event -> Prop) :
  (forall tr, Q (Ret (server_result (answer tr))) [e]) -> wp (call_res e answer) Q.
Proof.
  intros H w. exists [e]. cbn. auto.
Qed.

Lemma wp_bind (m : M A) (k : A -> M B) (Q : res B -> list event -> Prop) :
  wp m (fun r evs1 =>
          match r with
          | Ret a => wp (k a) (fun r2 evs2 => Q r2 (evs1 ++ evs2))
          | Panic msg => Q (Panic msg) evs1
          end) ->
  wp (bind m k) Q.
Proof.
  intros H w. unfold bind. destruct (H w) as (evs1 & E1 & H1).
  destruct (m w) as [[a | msg] w1]; cbn in *.
  - destruct (H1 w1) as (evs2 & E2 & H2).
    exists (evs1 ++ evs2). rewrite E2, E1, app_assoc. auto.
  - exists evs1. auto.
Qed.

Lemma wp_defer (d : M unit) (body : M A) (Q : res A -> list event -> Prop) :
  wp body (fun r evs1 =>
             wp d (fun r2 evs2 =>
                     match r2 with
                     | Ret _ => Q r (evs1 ++ evs2)
                     | Panic msg => Q (Panic msg) (evs1 ++ evs2)
                     end)) ->
  wp (defer d body) Q.
Proof.
  intros H w. unfold defer. destruct (H w) as (evs1 & E1 & H1).
  destruct (body w) as [r w1]; cbn in *.
  destruct (H1 w1) as (evs2 & E2 & H2).
  destruct (d w1) as [[u | msg] w2]; cbn in *;
    exists (evs1 ++ evs2); rewrite E2, E1, app_assoc; auto.
Qed.

Lemma wp_conseq (m : M A) (Q1 Q2 : res A -> list event -> Prop) :
  wp m Q1 -> (forall r evs, Q1 r evs -> Q2 r evs) -> wp m Q2.
Proof.
  intros H HQ w. destruct (H w) as (evs & E & H1). exists evs. auto.
Qed.

End WpRules.

Lemma wp_call_err (e : event) (answer : list event -> option nat)
  (Q : res (option error) -> list event -> Prop) :
  (forall tr, Q (Ret (server_error (answer tr))) [e]) -> wp (call_err e answer) Q.
Proof.
  intros H w. exists [e]. cbn. auto.
Qed.

Lemma wp_emit (e : event) (Q : res unit -> list event -> Prop) :
  Q (Ret tt) [e] -> wp (emit e) Q.
Proof.
  intros H w. exists [e]. cbn. auto.
Qed.

Lemma wp_get_pool (Q : res (list connptr) -> list event -> Prop) :
  (forall p, Q (Ret p) []) -> wp get_pool Q.
Proof.
  intros H w. exists []. cbn. now rewrite app_nil_r.
Qed.

Lemma wp_set_pool (p : list connptr) (Q : res unit -> list event -> Prop) :
  Q (Ret tt) [] -> wp (set_pool p) Q.
Proof.
  intros H w. exists []. cbn. now rewrite app_nil_r.
Qed.

Lemma wp_get_err (i : nat) (Q : res (option error) -> list event -> Prop) :
  (forall e, Q (Ret e) []) -> wp (get_err i) Q.
Proof.
  intros H w. exists []. cbn. now rewrite app_nil_r.
Qed.

Lemma wp_set_err (i : nat) (err : option error) (Q : res unit -> list event -> Prop) :
  Q (Ret tt) [] -> wp (set_err i err) Q.
Proof.
  intros H w. exists []. cbn. now rewrite app_nil_r.
Qed.

Lemma wp_new_client (Q : res nat -> list event -> Prop) :
  (forall c, Q (Ret c) []) -> wp new_client Q.
Proof.
  intros H w. exists []. cbn. now rewrite app_nil_r.
Qed.

Lemma wp_deref (c : connptr) (Q : res nat -> list event -> Prop) :
  match c with
  | Some i => Q (Ret i) []
  | None => Q (Panic nil_deref) []
  end ->
  wp (deref c) Q.
Proof.
  destruct c; intros H; [now apply wp_ret | now apply wp_panic].
Qed.

(** What [wp] says about one run. *)
Lemma wp_run {A} (m : M A) (Q : res A -> list event -> Prop) (w : world) :
  wp m Q -> Q (fst (m w)) (new_events w (snd (m w))).
Proof.
  intros H. destruct (H w) as (evs & E & HQ). unfold new_events.
  rewrite E, skipn_app, skipn_all, Nat.sub_diag. cbn. exact HQ.
Qed.

(** Two properties of the same run. *)
Lemma wp_conj {A} (m : M A) (Q1 Q2 : res A -> list event -> Prop) :
  wp m Q1 -> wp m Q2 -> wp m (fun r evs => Q1 r evs /\ Q2 r evs).
Proof.
  intros H1 H2 w. destruct (H1 w) as (e1 & E1 & P1). destruct (H2 w) as (e2 & E2 & P2).
  rewrite E1 in E2. apply app_inv_head in E2. subst e2. exists e1. auto.
Qed.

Lemma none_of_app (p : event -> bool) (a b : list event) :
  none_of p (a ++ b) <-> none_of p a /\ none_of p b.
Proof.
  unfold none_of. rewrite forallb_app. apply andb_true_iff.
Qed.

Lemma none_of_nil (p : event -> bool) : none_of p [].
Proof. reflexivity. Qed.

Lemma none_of_one (p : event -> bool) (e : event) : p e = false -> none_of p [e].
Proof. unfold none_of. cbn. intros ->. reflexivity. Qed.

(** After the rule for a call on the server: one case for each kind of
    answer. *)
Ltac server_cases :=
  cbv beta;
  try match goal with
      | |- context [server_error ?x] => destruct x; cbn [server_error]
      | |- context [server_result ?x] => destruct x; cbn [server_result]
      end.

(** One step of a [wp] proof: the rule for the head of the computation,
    or a case split on what the computation branches on. *)
Ltac wp_step :=
  match goal with
  | |- _ => progress cbn [errors_Wrap fst snd]
  | |- wp (bind _ _) _ => apply wp_bind
  | |- wp (defer _ _) _ => apply wp_defer
  | |- wp (ret _) _ => apply wp_ret
  | |- wp (panic _) _ => apply wp_panic
  | |- wp (lift _) _ => apply wp_lift
  | |- wp (call_err _ _) _ => apply wp_call_err; intros ?; server_cases
  | |- wp (call_res _ _) _ => apply wp_call_res; intros ?; server_cases
  | |- wp (client_Close _ _) _ => apply wp_call_err; intros ?; server_cases
  | |- wp (emit _) _ => apply wp_emit
  | |- wp get_pool _ => apply wp_get_pool; intros
  | |- wp (set_pool _) _ => apply wp_set_pool
  | |- wp (get_err _) _ => apply wp_get_err; intros
  | |- wp (set_err _ _) _ => apply wp_set_err
  | |- wp new_client _ => apply wp_new_client; intros
  | |- wp (deref _) _ => apply wp_deref
  | |- wp (if (?a =? ?b)%Z then _ else _) _ =>
      let v := eval vm_compute in (a =? b)%Z in
      match v with
      | true => change (a =? b)%Z with true
      | false => change (a =? b)%Z with false
      end; cbv iota
  | |- wp (match ?x with _ => _ end) _ => destruct x
  | |- wp (if ?x then _ else _) _ => destruct x
  | |- match ?x with _ => _ end => destruct x
  | |- wp (let _ := _ in _) _ => cbv zeta
  end.

Ltac none_of_solve :=
  repeat rewrite none_of_app; cbn; repeat split;
  try apply none_of_nil; try (apply none_of_one; reflexivity);
  try reflexivity; try discriminate; auto.

(** ** The session pool *)

Lemma length_list_set {A} (l : list A) (i : nat) (a : A) :
  List.length (list_set l i a) = List.length l.
Proof.
  revert i. induction l as [| h t IH]; intros [| j]; cbn; auto.
Qed.

Lemma nth_list_set_same {A} (l : list A) (i : nat) (a d : A) :
  i < List.length l -> nth i (list_set l i a) d = a.
Proof.
  revert i. induction l as [| h t IH]; intros [| j]; cbn; intros H; try lia; auto.
  apply IH. lia.
Qed.

Lemma nth_list_set_other {A} (l : list A) (i j : nat) (a d : A) :
  i <> j -> nth j (list_set l i a) d = nth j l d.
Proof.
  revert i j. induction l as [| h t IH]; intros [| i] [| j] H; cbn; auto; try lia.
Qed.

Lemma mem_In (c : nat) (l : list nat) : mem c l = true <-> In c l.
Proof.
  unfold mem. rewrite existsb_exists. split.
  - intros (x & Hx & E). apply Nat.eqb_eq in E. now subst.
  - intros H. exists c. split; auto. apply Nat.eqb_refl.
Qed.

Lemma In_drop (c x : nat) (l : list nat) : In x (drop c l) <-> In x l /\ x <> c.
Proof.
  unfold drop. rewrite filter_In. split; intros [H1 H2]; split; auto.
  - apply negb_true_iff, Nat.eqb_neq in H2. congruence.
  - apply negb_true_iff, Nat.eqb_neq. congruence.
Qed.

(** [ConnectionFree] with an error: the error is recorded, the client is
    closed, the pool is left as it was. *)
Lemma ConnectionFree_error (env : Env) (c : nat) (e : error) (w : world) :
  Pooled.ConnectionFree env (Some c) (Some e) w =
  (Ret tt, mkWorld (pool w) (list_set (conns w) c (Some e))
                   ((trace w ++ [EvFree c (Some e)]) ++ [EvClientClose c])).
Proof. reflexivity. Qed.

(** [ConnectionFree] without an error: the session goes to the tail of the
    pool and no call is made. *)
Lemma ConnectionFree_nil (env : Env) (c : nat) (w : world) :
  Pooled.ConnectionFree env (Some c) None w =
  (Ret tt, mkWorld (pool w ++ [Some c]) (list_set (conns w) c None)
                   (trace w ++ [EvFree c None])).
Proof. reflexivity. Qed.

(** The loop of [getXrootdConnection] returns the first entry without a
    recorded error; the entries in front of it are closed and dropped. *)
Lemma pool_loop_returns (env : Env) (p : list connptr) (w w' : world) (c : nat) :
  Pooled.pool_loop env p w = (Ret (Some c), w') ->
  exists skipped rest,
    p = map Some skipped ++ Some c :: rest
    /\ Forall (fun i => conn_err w i <> None) skipped
    /\ conn_err w c = None
    /\ pool w' = rest /\ conns w' = conns w
    /\ trace w' = trace w ++ map EvClientClose skipped.
Proof.
  revert w. induction p as [| [i |] rest IH]; intros w H.
  - discriminate.
  - cbn in H. unfold bind, set_pool, get_err, conn_err in H. cbn in H.
    destruct (nth i (conns w) None) as [e |] eqn:Ei.
    + apply IH in H.
      destruct H as (sk & rs & Hp & Hsk & Hc & Hpool & Hconns & Htr).
      exists (i :: sk), rs. unfold conn_err in *. cbn in *. repeat split; auto.
      * now rewrite Hp.
      * constructor; auto. congruence.
      * rewrite Htr, <- app_assoc. reflexivity.
    + inversion H; subst. exists [], rest. cbn. rewrite app_nil_r.
      repeat split; auto.
  - discriminate.
Qed.

Lemma getXrootdConnection_head (env : Env) (f : Fs) (w : world) (c : nat) rest :
  pool w = Some c :: rest -> conn_err w c = None ->
  Pooled.getXrootdConnection env f w =
  (Ret (Some c, None), mkWorld rest (conns w) (trace w)).
Proof.
  intros Hp He. unfold Pooled.getXrootdConnection, bind, get_pool. rewrite Hp.
  cbn. unfold bind, set_pool, get_err. cbn. unfold conn_err in *. cbn. rewrite He. reflexivity.
Qed.

Lemma getXrootdConnection_empty (env : Env) (f : Fs) (w : world) :
  pool w = [] ->
  Pooled.getXrootdConnection env f w =
  match srv_NewClient env (trace w) (Servername (fs_opt f)) (User (fs_opt f)) with
  | None =>
      (Ret (Some (List.length (conns w)), None),
       mkWorld [] (conns w ++ [None])
               (trace w ++ [EvDial (Servername (fs_opt f)) (User (fs_opt f))]))
  | Some e =>
      (Ret (None, Some (Wrap (ErrServer e)
                             "XrootdConnection: failure to initialize a new XrootD client ")),
       mkWorld [] (conns w)
               (trace w ++ [EvDial (Servername (fs_opt f)) (User (fs_opt f))]))
  end.
Proof.
  intros Hp. unfold Pooled.getXrootdConnection, bind, get_pool. rewrite Hp.
  cbn. unfold bind, call_err, call. cbn. rewrite Hp.
  destruct (srv_NewClient env (trace w) _ _); reflexivity.
Qed.

Lemma start_inv : pool_inv start.
Proof.
  constructor; cbn; try tauto. constructor.
Qed.

(** One operation of a disciplined sequence keeps the invariant, never
    revives a dead session, returns no dead session, and a release with an
    error makes the session dead. *)
Lemma pool_step_inv (env : Env) (f : Fs) (op : pool_op) (g g' : gstate) (r : connptr) :
  pool_inv g -> pool_step env f op g = Some (g', r) ->
  pool_inv g'
  /\ (forall c, In c (dead g) -> In c (dead g'))
  /\ (forall c, r = Some c -> ~ In c (dead g'))
  /\ (forall c e, op = Release c (Some e) -> In c (dead g')).
Proof.
  intros [Hnn Hnd Hpool Hheld Hdead] Hstep. destruct g as [w hl dl]. cbn in *.
  destruct op as [| c err]; unfold pool_step in Hstep; cbn [gw held dead] in Hstep.
  - (* Acquire *)
    destruct (pool w) as [| [c |] rest] eqn:Hp.
    + rewrite (getXrootdConnection_empty env f w Hp) in Hstep.
      destruct (srv_NewClient env (trace w) _ _) as [e |]; inversion Hstep; subst; clear Hstep;
        (split; [constructor | split; [| split]]); cbn; auto; try discriminate;
        try (now intros ? []).
      * intros c [<- | Hc]; rewrite length_app; cbn.
        -- split; [lia |]. intros Hd. apply Hdead in Hd. lia.
        -- destruct (Hheld c Hc). split; [lia | auto].
      * intros c Hc. rewrite length_app. apply Hdead in Hc. lia.
      * intros c [= <-] Hd. apply Hdead in Hd. lia.
    + destruct (Hpool c (or_introl eq_refl)) as (He & Hlt & Hnh & Hndd).
      rewrite (getXrootdConnection_head env f w c rest Hp He) in Hstep.
      inversion Hstep; subst; clear Hstep.
      inversion Hnd as [| x l Hnotin Hnd']; subst.
      (split; [constructor | split; [| split]]); cbn; auto; try discriminate;
        try (now intros ? []).
      * intros Hin. apply Hnn. now right.
      * intros c' Hc'. destruct (Hpool c' (or_intror Hc')) as (? & ? & ? & ?).
        repeat split; auto. intros [<- | ?]; auto.
      * intros c' [<- | Hc']; auto.
      * intros c' [= <-]. auto.
    + exfalso. apply Hnn. now left.
  - (* Release *)
    destruct (mem c hl) eqn:Hm; [| discriminate].
    apply mem_In in Hm. destruct (Hheld c Hm) as [Hlt Hnd_c].
    assert (Hnp : ~ In (Some c) (pool w)).
    { intros Hin. destruct (Hpool c Hin) as (_ & _ & Hn & _). auto. }
    destruct err as [e |].
    + rewrite ConnectionFree_error in Hstep. inversion Hstep; subst; clear Hstep.
      (split; [constructor | split; [| split]]); cbn; auto; try discriminate;
        try (now intros ? []).
      * intros c' Hc'. destruct (Hpool c' Hc') as (He & ? & ? & ?).
        assert (c <> c') by (intros ->; auto).
        unfold conn_err in *. cbn. rewrite nth_list_set_other by auto.
        rewrite length_list_set. repeat split; auto.
        -- rewrite In_drop. tauto.
        -- intros [-> | ?]; auto.
      * intros c' Hc'. apply In_drop in Hc'. destruct Hc' as [Hc' Hne].
        destruct (Hheld c' Hc'). rewrite length_list_set. split; auto.
        intros [-> | ?]; auto.
      * intros c' [<- | Hc']; rewrite length_list_set; auto.
      * intros c' e' [= -> _]. now left.
    + rewrite ConnectionFree_nil in Hstep. inversion Hstep; subst; clear Hstep.
      (split; [constructor | split; [| split]]); cbn; auto; try discriminate;
        try (now intros ? []).
      * rewrite in_app_iff. cbn. intros [? | [? | []]]; auto. discriminate.
      * apply NoDup_app; auto.
        -- constructor; [intros [] | constructor].
        -- intros x Hx [<- | []]. auto.
      * intros c' Hc'. rewrite length_list_set. unfold conn_err in *. cbn.
        apply in_app_iff in Hc'. destruct Hc' as [Hc' | [[= <-] | []]].
        -- destruct (Hpool c' Hc') as (He & ? & ? & ?).
           assert (c <> c') by (intros ->; auto).
           rewrite nth_list_set_other by auto. repeat split; auto.
           rewrite In_drop. tauto.
        -- rewrite nth_list_set_same by auto. repeat split; auto.
           rewrite In_drop. tauto.
      * intros c' Hc'. apply In_drop in Hc'. destruct Hc' as [Hc' Hne].
        destruct (Hheld c' Hc'). rewrite length_list_set. split; auto.
      * intros c' Hc'. rewrite length_list_set. auto.
Qed.

Lemma pool_run_inv (env : Env) (f : Fs) (ops : list pool_op) (g g' : gstate)
  (rs : list connptr) :
  pool_inv g -> pool_run env f ops g = Some (g', rs) ->
  pool_inv g'
  /\ (forall c, In c (dead g) -> In c (dead g'))
  /\ (forall c, In c (dead g) -> ~ In (Some c) rs).
Proof.
  revert g g' rs. induction ops as [| op rest IH]; intros g g' rs Hinv Hrun; cbn in Hrun.
  - inversion Hrun; subst. split; [assumption | split; [auto | intros c _ []]].
  - destruct (pool_step env f op g) as [[g1 r] |] eqn:Hstep; [| discriminate].
    destruct (pool_run env f rest g1) as [[g2 rs'] |] eqn:Hrest; [| discriminate].
    inversion Hrun; subst; clear Hrun.
    destruct (pool_step_inv env f op g g1 r Hinv Hstep) as (Hinv1 & Hmono & Hret & _).
    destruct (IH g1 g' rs' Hinv1 Hrest) as (Hinv2 & Hmono2 & Hrs).
    split; [assumption | split; [auto |]].
    intros c Hc [-> | Hin].
    + apply (Hret c eq_refl). auto.
    + apply (Hrs c); auto.
Qed.

Lemma pool_run_never_returns_dead (env : Env) (f : Fs) (ops : list pool_op)
  (g g' : gstate) (rs : list connptr) :
  pool_inv g -> pool_run env f ops g = Some (g', rs) ->
  forall i j c e,
    nth_error ops i = Some (Release c (Some e)) -> i < j ->
    nth_error rs j <> Some (Some c).
Proof.
  revert g rs. induction ops as [| op rest IH]; intros g rs Hinv Hrun i j c e Hi Hlt.
  - destruct i; discriminate.
  - cbn in Hrun.
    destruct (pool_step env f op g) as [[g1 r] |] eqn:Hstep; [| discriminate].
    destruct (pool_run env f rest g1) as [[g2 rs'] |] eqn:Hrest; [| discriminate].
    inversion Hrun; subst; clear Hrun.
    destruct (pool_step_inv env f op g g1 r Hinv Hstep) as (Hinv1 & _ & _ & Hrel).
    destruct j as [| j]; [lia |]. cbn.
    destruct i as [| i]; cbn in Hi.
    + inversion Hi; subst.
      destruct (pool_run_inv env f rest g1 g' rs' Hinv1 Hrest) as (_ & _ & Hrs).
      intros Hn. apply nth_error_In in Hn. apply (Hrs c); auto. eapply Hrel; eauto.
    + apply (IH g1 rs' Hinv1 Hrest i j c e Hi). lia.
Qed.

(** The loop of [getXrootdConnection] on a pool that begins with
    sessions with a recorded error: each of them is popped and closed, in
    order, and the loop goes on with what follows them. *)
Lemma pool_loop_skips (env : Env) (skipped : list nat) (rest : list connptr) (w : world) :
  Forall (fun i => conn_err w i <> None) skipped ->
  pool w = map Some skipped ++ rest ->
  Pooled.pool_loop env (pool w) w
  = Pooled.pool_loop env rest
      (mkWorld rest (conns w) (trace w ++ map EvClientClose skipped)).
Proof.
  revert w. induction skipped as [| i sk IH]; intros w Hsk Hp.
  - cbn in *. rewrite Hp, app_nil_r. destruct w as [p c t]. cbn in *. now subst.
  - inversion Hsk as [| x l Hi Hsk']; subst. rewrite Hp. cbn [map app Pooled.pool_loop].
    unfold bind at 1. cbn [set_pool]. unfold bind at 1. unfold get_err at 1.
    unfold conn_err in Hi |- *. cbn [conns].
    destruct (nth i (conns w) None) as [e |] eqn:Ei; [| contradiction].
    unfold bind at 1. unfold client_Close, call_err, call. cbn [trace pool conns].
    specialize (IH (mkWorld (map Some sk ++ rest) (conns w) (trace w ++ [EvClientClose i]))).
    cbn [pool conns trace] in IH. rewrite IH; auto.
    rewrite <- app_assoc. reflexivity.
Qed.

(** [getXrootdConnection] when a session without a recorded error
    follows the errored ones: these are closed and dropped, that one is
    returned, nothing is dialled. *)
Lemma getXrootdConnection_skips (env : Env) (f : Fs) (w : world) (skipped : list nat)
  (c : nat) (rest : list connptr) :
  pool w = map Some skipped ++ Some c :: rest ->
  Forall (fun i => conn_err w i <> None) skipped ->
  conn_err w c = None ->
  Pooled.getXrootdConnection env f w
  = (Ret (Some c, None),
     mkWorld rest (conns w) (trace w ++ map EvClientClose skipped)).
Proof.
  intros Hp Hsk Hc. unfold Pooled.getXrootdConnection, bind at 1, get_pool.
  unfold bind at 1. rewrite (pool_loop_skips env skipped (Some c :: rest) w Hsk Hp).
  cbn [Pooled.pool_loop]. unfold bind, set_pool, get_err, conn_err in *. cbn.
  rewrite Hc. reflexivity.
Qed.

(** [getXrootdConnection] when every session of the pool has a recorded
    error: all are closed and dropped, and a session is dialled. *)
Lemma getXrootdConnection_exhausts (env : Env) (f : Fs) (w : world) (skipped : list nat) :
  pool w = map Some skipped ->
  Forall (fun i => conn_err w i <> None) skipped ->
  Pooled.getXrootdConnection env f w
  = match srv_NewClient env (trace w ++ map EvClientClose skipped)
                        (Servername (fs_opt f)) (User (fs_opt f)) with
    | None =>
        (Ret (Some (List.length (conns w)), None),
         mkWorld [] (conns w ++ [None])
                 ((trace w ++ map EvClientClose skipped)
                  ++ [EvDial (Servername (fs_opt f)) (User (fs_opt f))]))
    | Some code =>
        (Ret (None, Some (Wrap (ErrServer code)
                               "XrootdConnection: failure to initialize a new XrootD client ")),
         mkWorld [] (conns w)
                 ((trace w ++ map EvClientClose skipped)
                  ++ [EvDial (Servername (fs_opt f)) (User (fs_opt f))]))
    end.
Proof.
  intros Hp Hsk.
  assert (Hp' : pool w = map Some skipped ++ []) by now rewrite app_nil_r.
  unfold Pooled.getXrootdConnection, bind at 1, get_pool.
  unfold bind at 1. rewrite (pool_loop_skips env skipped [] w Hsk Hp').
  cbn [Pooled.pool_loop]. unfold ret.
  unfold Pooled.XrootdConnection, bind, call_err, call. cbn.
  destruct (srv_NewClient env (trace w ++ map EvClientClose skipped) _ _); reflexivity.
Qed.

(** C1.  [ConnectionFree] with an error records it, closes the session
    and leaves the pool as it was.  [getXrootdConnection] pops and closes,
    in order, the sessions with a recorded error at the front of the
    pool and drops them: when a session without a recorded error follows
    them it returns that one, with what came after it as the pool, and
    dials nothing; when none follows, the pool is left empty and a
    session is dialled.  The loop returns only an entry without a
    recorded error.  And along every sequence of acquires and releases
    in which only held sessions are released, started in a state that
    satisfies the pool invariant, every session in the idle pool has no
    recorded error and a session released with an error is not returned
    by any later acquire. *)
Theorem released_with_error_never_acquired_again (env : Env) (f : Fs) :
  (forall c e w,
      Pooled.ConnectionFree env (Some c) (Some e) w
      = (Ret tt, mkWorld (pool w) (list_set (conns w) c (Some e))
                         ((trace w ++ [EvFree c (Some e)]) ++ [EvClientClose c])))
  /\ (forall w skipped c rest,
         pool w = map Some skipped ++ Some c :: rest ->
         Forall (fun i => conn_err w i <> None) skipped ->
         conn_err w c = None ->
         Pooled.getXrootdConnection env f w
         = (Ret (Some c, None),
            mkWorld rest (conns w) (trace w ++ map EvClientClose skipped)))
  /\ (forall w skipped,
         pool w = map Some skipped ->
         Forall (fun i => conn_err w i <> None) skipped ->
         Pooled.getXrootdConnection env f w
         = match srv_NewClient env (trace w ++ map EvClientClose skipped)
                               (Servername (fs_opt f)) (User (fs_opt f)) with
           | None =>
               (Ret (Some (List.length (conns w)), None),
                mkWorld [] (conns w ++ [None])
                        ((trace w ++ map EvClientClose skipped)
                         ++ [EvDial (Servername (fs_opt f)) (User (fs_opt f))]))
           | Some code =>
               (Ret (None,
                     Some (Wrap (ErrServer code)
                             "XrootdConnection: failure to initialize a new XrootD client ")),
                mkWorld [] (conns w)
                        ((trace w ++ map EvClientClose skipped)
                         ++ [EvDial (Servername (fs_opt f)) (User (fs_opt f))]))
           end)
  /\ (forall p w w' c,
         Pooled.pool_loop env p w = (Ret (Some c), w') ->
         exists skipped rest,
           p = map Some skipped ++ Some c :: rest
           /\ Forall (fun i => conn_err w i <> None) skipped
           /\ conn_err w c = None
           /\ pool w' = rest
           /\ trace w' = trace w ++ map EvClientClose skipped)
  /\ (forall ops g g' rs,
         pool_inv g -> pool_run env f ops g = Some (g', rs) ->
         (forall c, In (Some c) (pool (gw g')) -> conn_err (gw g') c = None)
         /\ (forall i j c e,
               nth_error ops i = Some (Release c (Some e)) -> i < j ->
               nth_error rs j <> Some (Some c))).
Proof.
  split; [| split; [| split; [| split]]].
  - intros c e w. apply ConnectionFree_error.
  - intros w skipped c rest. apply getXrootdConnection_skips.
  - intros w skipped. apply getXrootdConnection_exhausts.
  - intros p w w' c H.
    destruct (pool_loop_returns env p w w' c H) as (sk & rest & H1 & H2 & H3 & H4 & _ & H5).
    exists sk, rest. auto.
  - intros ops g g' rs Hinv Hrun. split.
    + destruct (pool_run_inv env f ops g g' rs Hinv Hrun) as ([_ _ Hpool _ _] & _).
      intros c Hc. now destruct (Hpool c Hc).
    + exact (pool_run_never_returns_dead env f ops g g' rs Hinv Hrun).
Qed.

Lemma released_with_error_never_acquired_again_witness :
  pool_inv start
  /\ pool_run Fixture.env_ok Fixture.fs_a Fixture.ops_example start
     = Some (Fixture.ops_example_final, Fixture.ops_example_rets)
  /\ Fixture.ops_example_rets = [Some 0; None; Some 1; None; Some 1]
  /\ nth_error Fixture.ops_example_rets 4 <> Some (Some 0)
  /\ Pooled.getXrootdConnection Fixture.env_ok Fixture.fs_a Fixture2.world_errored
     = (Ret (Some 2, None), mkWorld [Some 3] (conns Fixture2.world_errored)
                                    [EvClientClose 0; EvClientClose 1]).
Proof.
  assert (Hrun : pool_run Fixture.env_ok Fixture.fs_a Fixture.ops_example start
                 = Some (Fixture.ops_example_final, Fixture.ops_example_rets))
    by (vm_compute; reflexivity).
  split; [exact start_inv |].
  split; [exact Hrun |].
  split; [reflexivity |].
  split.
  - apply (proj2 (proj2 (proj2 (proj2 (proj2 (released_with_error_never_acquired_again
                                                Fixture.env_ok Fixture.fs_a))))
                    Fixture.ops_example start _ _ start_inv Hrun)
             1 4 0 (ErrServer 1)); [reflexivity | lia].
  - apply (proj1 (proj2 (released_with_error_never_acquired_again
                           Fixture.env_ok Fixture.fs_a))
             Fixture2.world_errored [0; 1] 2 [Some 3]).
    + reflexivity.
    + repeat constructor; discriminate.
    + reflexivity.
Defined.

(** The discipline is needed.  A caller that releases the same session a
    second time, now without an error, overwrites the recorded error of
    the [conn] it shares with nobody any more, and the closed session is
    appended to the pool and handed out again.  No operation of the
    backend does this: each releases its session once, in a [defer]. *)
Lemma second_release_is_outside_the_discipline :
  pool_run Fixture.env_ok Fixture.fs_a
    [Acquire; Release 0 (Some (ErrServer 1)); Release 0 None] start = None
  /\ (let w1 := snd (Pooled.getXrootdConnection Fixture.env_ok Fixture.fs_a empty_world) in
      let w2 := snd (Pooled.ConnectionFree Fixture.env_ok (Some 0) (Some (ErrServer 1)) w1) in
      let w3 := snd (Pooled.ConnectionFree Fixture.env_ok (Some 0) None w2) in
      fst (Pooled.getXrootdConnection Fixture.env_ok Fixture.fs_a w3) = Ret (Some 0, None)).
Proof.
  vm_compute. split; reflexivity.
Qed.

(** ** Which calls an operation makes *)

Lemma only_nil (fp : event -> bool) : only fp [].
Proof. reflexivity. Qed.

Lemma only_app (fp : event -> bool) (a b : list event) :
  only fp (a ++ b) <-> only fp a /\ only fp b.
Proof.
  unfold only. rewrite forallb_app. apply andb_true_iff.
Qed.

Lemma only_weaken (fp fp' : event -> bool) (evs : list event) :
  (forall e, fp e = true -> fp' e = true) -> only fp evs -> only fp' evs.
Proof.
  unfold only. rewrite !forallb_forall. auto.
Qed.

Lemma none_of_only (p : event -> bool) (evs : list event) :
  none_of p evs <-> only (fun e => negb (p e)) evs.
Proof. reflexivity. Qed.

Lemma only_none_of (fp p : event -> bool) (evs : list event) :
  (forall e, fp e = true -> p e = false) -> only fp evs -> none_of p evs.
Proof.
  intros H. apply only_weaken. intros e He. now rewrite (H e He).
Qed.

Lemma written_bytes_app (a b : list event) :
  written_bytes (a ++ b) = written_bytes a ++ written_bytes b.
Proof.
  induction a as [| e a IH]; cbn; auto.
  destruct e; auto. rewrite IH, app_assoc. reflexivity.
Qed.

Lemma count_reads_app (a b : list event) :
  count_reads (a ++ b) = count_reads a + count_reads b.
Proof.
  induction a as [| e a IH]; cbn; auto.
  destruct e; auto. rewrite IH. reflexivity.
Qed.

Lemma written_bytes_none (evs : list event) :
  none_of is_write evs -> written_bytes evs = [].
Proof.
  unfold none_of. induction evs as [| e evs IH]; cbn; auto.
  intros H. apply andb_true_iff in H. destruct H as [He H].
  destruct e; cbn in He; try discriminate; auto.
Qed.

Lemma count_reads_none (evs : list event) :
  none_of is_read_or_write evs -> count_reads evs = 0.
Proof.
  unfold none_of. induction evs as [| e evs IH]; cbn; auto.
  intros H. apply andb_true_iff in H. destruct H as [He H].
  destruct e; cbn in He; try discriminate; auto.
Qed.

(** Closes the side conditions of a footprint proof: every event that was
    appended satisfies the footprint. *)
Ltac only_solve :=
  unfold none_of, only in *;
  repeat first
    [ progress cbn
    | rewrite forallb_app
    | match goal with
      | H : forallb _ _ = true |- _ => rewrite H
      end ];
  try reflexivity; auto.

(** Uses the footprint lemma [L] of a sub-operation and weakens its
    footprint to the one wanted. *)
Ltac wp_use L :=
  eapply wp_conseq; [apply L |]; cbn beta; intros.

Lemma wp_pool_loop (env : Env) (p : list connptr) :
  wp (Pooled.pool_loop env p) (fun r evs => only pool_event evs /\ nil_panic r).
Proof.
  induction p as [| c rest IH]; cbn [Pooled.pool_loop].
  - apply wp_ret. split; reflexivity.
  - repeat wp_step; try (split; reflexivity).
    all: wp_use IH; destruct H; split; [only_solve | assumption].
Qed.

Lemma wp_acquire (env : Env) (f : Fs) :
  wp (Pooled.getXrootdConnection env f)
     (fun r evs => only pool_event evs /\ acquired r).
Proof.
  unfold Pooled.getXrootdConnection, Pooled.XrootdConnection.
  wp_step. wp_step. wp_step.
  wp_use wp_pool_loop. destruct H as [Hev H]. destruct r as [[i |] | msg].
  - wp_step. split; [only_solve | exact I].
  - repeat wp_step; (split; [only_solve | exact I]).
  - split; [only_solve | exact H].
Qed.

(** An event inside one footprint is inside another: by cases. *)
Ltac fp_side :=
  intros []; cbn; intros; try congruence;
  repeat match goal with
         | o : option error |- _ => destruct o
         end;
  cbn in *; congruence.

(** After [wp_acquire] or the legacy [xrdremote]: weakens the footprint
    of the acquisition to [fp]. *)
Ltac weaken_to fp :=
  match goal with
  | H : only pool_event ?evs /\ _ |- _ =>
      let Hev := fresh "Hev" in
      destruct H as [Hev H];
      apply (only_weaken _ fp) in Hev; [| fp_side]
  end.

Lemma Pooled_Fs_stat_quiet (env : Env) (f : Fs) (remote : string) :
  wp (Pooled.Fs_stat env f remote) (fun r evs => only quiet evs /\ nil_panic r).
Proof.
  unfold Pooled.Fs_stat. repeat wp_step; try (split; reflexivity).
  wp_use wp_acquire. weaken_to quiet.
  destruct r as [[[i |] [e |]] | msg]; cbn in H; try contradiction.
  - unfold Pooled.ConnectionFree. repeat wp_step; (split; [only_solve | exact I]).
  - repeat wp_step; (split; [only_solve | exact I]).
  - split; [only_solve | exact H].
Qed.

Ltac fin := first [ split; [only_solve | cbn; auto] | only_solve ].

(** Case split on the result of an acquisition. *)
Ltac acq_cases r H :=
  destruct r as [[[? |] [? |]] | ?]; cbn in H; try contradiction.

Lemma setMetadata_hash (o : Object) (info : FileInfo) :
  o_hash (setMetadata o info) = o_hash o.
Proof.
  unfold setMetadata.
  destruct (negb (o_size o =? fi_Size info)%Z); cbn;
    match goal with |- context [negb (?a =? ?b)%Z] => destruct (negb (a =? b)%Z) end; cbn;
    match goal with |- context [negb (?a =? ?b)%Z] => destruct (negb (a =? b)%Z) end;
    reflexivity.
Qed.

Lemma Pooled_Object_stat_quiet (env : Env) (o : Object) :
  wp (Pooled.Object_stat env o)
     (fun r evs => only quiet evs /\ nil_panic r /\ keeps_hash (o_hash o) r).
Proof.
  unfold Pooled.Object_stat. wp_step.
  wp_use Pooled_Fs_stat_quiet. destruct H as [Hev H].
  destruct r as [[info err] | msg]; [| cbn; auto].
  repeat wp_step; cbn; repeat split; try only_solve.
  apply setMetadata_hash.
Qed.


Lemma Pooled_SetModTime_quiet (env : Env) (o : Object) (modTime : Z) :
  wp (Pooled.SetModTime env o modTime)
     (fun r evs => only quiet evs /\ nil_panic r /\ keeps_hash (o_hash o) r).
Proof.
  unfold Pooled.SetModTime. wp_step.
  wp_use Pooled_Object_stat_quiet. destruct H as (Hev & H & Hh).
  destruct r as [[o1 err] | msg]; [| cbn; auto].
  repeat wp_step; cbn; repeat split; try only_solve.
Qed.

Lemma display_quiet (env : Env) (f : Fs) (c : nat) (root : string) (info : FileInfo)
  (dir : string) :
  wp (display env f c root info dir) (fun r evs => only quiet evs /\ nil_panic r).
Proof.
  unfold display. repeat wp_step; fin.
Qed.

Lemma Pooled_List_quiet (env : Env) (f : Fs) (dir : string) :
  wp (Pooled.List env f dir) (fun r evs => only quiet evs /\ nil_panic r).
Proof.
  unfold Pooled.List. repeat wp_step; try fin.
  wp_use wp_acquire. weaken_to quiet. acq_cases r H.
  - unfold Pooled.ConnectionFree. repeat wp_step; try fin.
    wp_use display_quiet. destruct H0 as [Hd Hp].
    destruct r as [[entries err] | msg]; repeat wp_step; fin.
  - repeat wp_step; fin.
  - fin.
Qed.

Lemma Pooled_Update_remove_cleanup (env : Env) (o : Object) :
  wp (Pooled.Update_remove env o) (fun r evs => only cleanup evs /\ nil_panic r).
Proof.
  unfold Pooled.Update_remove. repeat wp_step; try fin.
  wp_use wp_acquire. weaken_to cleanup. acq_cases r H.
  - unfold Pooled.ConnectionFree. repeat wp_step; fin.
  - repeat wp_step; fin.
  - fin.
Qed.

(** The loop of the pooled [Update] reads and writes, nothing else. *)
Lemma Pooled_stream_loop_events (env : Env) (c : nat) (path : string) (input : reader)
  (index turn : Z) :
  wp (Pooled.stream_loop env c path input index turn)
     (fun r evs => only is_read_or_write evs /\ nil_panic r).
Proof.
  revert index turn. induction input as [| [data err_read] rest IH]; intros index turn;
    cbn [Pooled.stream_loop]; unfold Pooled.loop_turn; repeat wp_step; try fin.
  all: try (wp_use IH; destruct H; fin).
Qed.

(** Weakens the footprint [fp] of a sub-operation to [fp']. *)
Ltac reweaken fp' :=
  match goal with
  | H : only ?fp ?evs |- _ =>
      apply (only_weaken fp fp') in H; [| fp_side]
  end.

Lemma Pooled_Update_stream_post (env : Env) (o : Object) (c : nat) (path : string)
  (input : reader) (src : ObjectInfo) :
  wp (Pooled.Update_stream env o c path input src)
     (fun r evs => only not_free_err evs /\ keeps_hash (o_hash o) r).
Proof.
  unfold Pooled.Update_stream. wp_step.
  wp_use Pooled_stream_loop_events. destruct H as [Hev Hp]. reweaken not_free_err.
  destruct r as [[[index turn] errClient] | msg]; [| fin].
  destruct errClient as [e |].
  - wp_step. wp_use Pooled_Update_remove_cleanup. destruct H as [Hc _].
    reweaken not_free_err. destruct r; repeat wp_step; fin.
  - repeat wp_step; try fin.
    + wp_use Pooled_Update_remove_cleanup. destruct H as [Hc _].
      reweaken not_free_err. destruct r; repeat wp_step; fin.
    + wp_use Pooled_SetModTime_quiet. destruct H as (Hc & _ & Hh).
      reweaken not_free_err. destruct r as [[o1 err] |]; repeat wp_step; fin.
Qed.

Lemma Pooled_Update_post (env : Env) (o : Object) (input : reader) (src : ObjectInfo) :
  wp (Pooled.Update env o input src)
     (fun r evs => only not_free_err evs /\ keeps_hash "" r).
Proof.
  unfold Pooled.Update. repeat wp_step; try fin.
  wp_use wp_acquire. weaken_to not_free_err. acq_cases r H.
  - unfold Pooled.ConnectionFree. repeat wp_step; try fin.
    all: wp_use Pooled_Update_stream_post; destruct H0 as [Hs Hh];
      destruct r as [[o1 err] |]; repeat wp_step; fin.
  - repeat wp_step; fin.
  - fin.
Qed.










(** *** The legacy revision *)

Lemma Legacy_xrdremote_dials (env : Env) (name : string) :
  wp (Legacy.xrdremote env name) (fun r evs => only pool_event evs /\ dialled r).
Proof.
  unfold Legacy.xrdremote. repeat wp_step; fin.
Qed.

(** Case split on the result of the legacy [xrdremote]. *)
Ltac dial_cases r H :=
  destruct r as [[[[? |] ?] [? |]] | ?]; cbn in H; try contradiction.

Lemma Legacy_Fs_stat_quiet (env : Env) (f : Fs) (remote : string) :
  wp (Legacy.Fs_stat env f remote) (fun r evs => only quiet evs /\ nil_panic r).
Proof.
  unfold Legacy.Fs_stat. repeat wp_step; try fin.
  wp_use Legacy_xrdremote_dials. weaken_to quiet. dial_cases r H.
  - unfold Legacy.deferred_Close. repeat wp_step; fin.
  - repeat wp_step; fin.
  - fin.
Qed.

Lemma Legacy_Object_stat_quiet (env : Env) (o : Object) :
  wp (Legacy.Object_stat env o)
     (fun r evs => only quiet evs /\ nil_panic r /\ keeps_hash (o_hash o) r).
Proof.
  unfold Legacy.Object_stat. wp_step.
  wp_use Legacy_Fs_stat_quiet. destruct H as [Hev H].
  destruct r as [[info err] | msg]; [| cbn; auto].
  repeat wp_step; cbn; repeat split; try only_solve.
  apply setMetadata_hash.
Qed.


Lemma Legacy_SetModTime_quiet (env : Env) (o : Object) (modTime : Z) :
  wp (Legacy.SetModTime env o modTime)
     (fun r evs => only quiet evs /\ nil_panic r /\ keeps_hash (o_hash o) r).
Proof.
  unfold Legacy.SetModTime. wp_step.
  wp_use Legacy_Object_stat_quiet. destruct H as (Hev & H & Hh).
  destruct r as [[o1 err] | msg]; [| cbn; auto].
  repeat wp_step; cbn; repeat split; try only_solve.
Qed.

Lemma Legacy_List_quiet (env : Env) (f : Fs) (dir : string) :
  wp (Legacy.List env f dir) (fun r evs => only quiet evs /\ nil_panic r).
Proof.
  unfold Legacy.List. repeat wp_step; try fin.
  wp_use Legacy_xrdremote_dials. weaken_to quiet. dial_cases r H.
  - unfold Legacy.deferred_Close. repeat wp_step; try fin.
    wp_use display_quiet. destruct H0 as [Hd Hp].
    destruct r as [[entries err] | msg]; repeat wp_step; fin.
  - repeat wp_step; fin.
  - fin.
Qed.

Lemma Legacy_Update_remove_cleanup (env : Env) (o : Object) :
  wp (Legacy.Update_remove env o) (fun r evs => only cleanup evs /\ nil_panic r).
Proof.
  unfold Legacy.Update_remove. repeat wp_step; try fin.
  wp_use Legacy_xrdremote_dials. weaken_to cleanup. dial_cases r H.
  - unfold Legacy.deferred_Close. repeat wp_step; fin.
  - repeat wp_step; fin.
  - fin.
Qed.

Lemma adler32_Write_app (d : digest) (a b : list byte) :
  adler32_Write d (a ++ b) = adler32_Write (adler32_Write d a) b.
Proof. apply fold_left_app. Qed.


Lemma Legacy_stream_loop_done (env : Env) (o : Object) (c : nat) (path : string)
  (input : reader) (index turn : Z) (d : digest) :
  wp (Legacy.stream_loop env o c path input index turn d)
     (fun r evs => nil_panic r /\ loop_done input d r evs).
Proof.
  revert index turn d.
  induction input as [| [data err_read] rest IH]; intros index turn d;
    cbn [Legacy.stream_loop]; unfold Legacy.loop_turn.
  - repeat wp_step; cbn; auto.
    wp_use Legacy_Update_remove_cleanup. destruct H as [_ Hp].
    destruct r; repeat wp_step; cbn; auto.
  - destruct err_read as [e |]; [destruct e |]; cbn [is_nil is_EOF negb andb];
      repeat wp_step; cbn; auto;
      try (wp_use Legacy_Update_remove_cleanup; destruct H as [_ Hp];
           destruct r; repeat wp_step; cbn; auto).
    + rewrite !app_nil_r. auto.
    + wp_use IH. destruct H as [Hp Hd]. split; [assumption |].
      destruct r as [[[[i t] d'] [x |]] |]; cbn in *; auto.
      destruct Hd as [Hw Hd]. rewrite Hw. split; [reflexivity |].
      rewrite Hd, Hw. symmetry. apply adler32_Write_app.
Qed.

Lemma written_bytes_only (fp : event -> bool) (evs : list event) :
  (forall e, fp e = true -> is_write e = false) -> only fp evs -> written_bytes evs = [].
Proof.
  intros Hfp H. apply written_bytes_none. now apply (only_none_of fp).
Qed.

Lemma quiet_no_write (evs : list event) : only quiet evs -> written_bytes evs = [].
Proof. apply written_bytes_only. fp_side. Qed.

Lemma pool_event_no_write (evs : list event) : only pool_event evs -> written_bytes evs = [].
Proof. apply written_bytes_only. fp_side. Qed.

Ltac wb_norm :=
  repeat first [rewrite written_bytes_app | progress cbn [written_bytes app]].


Lemma Legacy_Update_stream_published (env : Env) (o : Object) (c : nat) (path : string)
  (input : reader) (src : ObjectInfo) :
  wp (Legacy.Update_stream env o c path input src) (published input).
Proof.
  unfold Legacy.Update_stream. wp_step.
  wp_use Legacy_stream_loop_done. destruct H as [_ Hd].
  destruct r as [[[[index turn] d] [e |]] |]; cbn in Hd; repeat wp_step; cbn; auto.
  - wp_use Legacy_Update_remove_cleanup. destruct r; repeat wp_step; cbn; auto.
  - wp_use Legacy_SetModTime_quiet. destruct H as (Hq & _ & Hh). destruct Hd as [Hw Hd].
    apply quiet_no_write in Hq.
    destruct r as [[o1 err] |]; repeat wp_step; cbn; auto.
    cbn in Hh. wb_norm. rewrite Hq, !app_nil_r.
    split; [assumption |]. rewrite Hh. unfold adler32_Checksum. now rewrite <- Hd.
Qed.

Lemma Legacy_Update_published (env : Env) (o : Object) (input : reader) (src : ObjectInfo) :
  wp (Legacy.Update env o input src) (published input).
Proof.
  unfold Legacy.Update. repeat wp_step.
  wp_use Legacy_xrdremote_dials. destruct H as [Hev H]. apply pool_event_no_write in Hev.
  dial_cases r H; repeat wp_step; cbn; auto.
  all: unfold Legacy.deferred_Close; repeat wp_step; cbn; auto.
  all: wp_use Legacy_Update_stream_published;
    destruct r as [[o1 [? |]] |]; repeat wp_step; cbn in *; auto;
    wb_norm; rewrite Hev; cbn; rewrite ?app_nil_r; assumption.
Qed.

(** ** Rmdir *)

(** An error of the pooled [List] comes without entries; an error of the
    legacy [List] that comes with entries is the one of its last
    [client.Close]. *)
Lemma Pooled_List_error_no_entries (env : Env) (f : Fs) (dir : string) :
  wp (Pooled.List env f dir)
     (fun r _ => match r with Ret (entries, Some _) => entries = [] | _ => True end).
Proof.
  unfold Pooled.List. repeat wp_step; auto.
  wp_use wp_acquire. destruct H as [_ H]. acq_cases r H.
  - unfold Pooled.ConnectionFree, display. repeat wp_step; auto.
  - repeat wp_step; auto.
  - auto.
Qed.

Lemma Legacy_List_error_entries (env : Env) (f : Fs) (dir : string) :
  wp (Legacy.List env f dir)
     (fun r evs => match r with
                   | Ret (entries, Some e) =>
                       entries = [] \/ exists code, e = ErrServer code
                   | _ => True
                   end).
Proof.
  unfold Legacy.List, display. repeat wp_step; auto.
  wp_use Legacy_xrdremote_dials. destruct H as [_ H]. dial_cases r H.
  - unfold Legacy.deferred_Close. repeat wp_step; eauto.
  - repeat wp_step; auto.
  - repeat wp_step; auto.
Qed.

Lemma deletes_after_listing_app (seen : bool) (a b : list event) :
  deletes_after_listing seen (a ++ b)
  = deletes_after_listing seen a
    && deletes_after_listing (seen || existsb is_Dirlist a) b.
Proof.
  revert seen. induction a as [| e a IH]; intros seen; cbn.
  - now rewrite orb_false_r.
  - rewrite IH, <- andb_assoc, orb_assoc. reflexivity.
Qed.

Lemma deletes_after_listing_none (seen : bool) (evs : list event) :
  none_of is_delete evs -> deletes_after_listing seen evs = true.
Proof.
  unfold none_of. revert seen. induction evs as [| e evs IH]; intros seen; cbn; auto.
  intros H. apply andb_true_iff in H. destruct H as [He H].
  apply negb_true_iff in He. rewrite He, IH; auto.
Qed.

Lemma deletes_after_listing_seen (evs : list event) :
  deletes_after_listing true evs = true.
Proof.
  induction evs as [| e evs IH]; cbn; auto.
  rewrite IH. now destruct (is_delete e).
Qed.

Lemma Pooled_List_listed (env : Env) (f : Fs) (dir : string) :
  wp (Pooled.List env f dir) listed.
Proof.
  unfold listed.
  apply (wp_conseq _ (fun r evs => (only quiet evs /\ nil_panic r)
                                   /\ match r with
                                      | Ret (_, None) => existsb is_Dirlist evs = true
                                      | _ => True
                                      end)).
  - apply wp_conj; [apply Pooled_List_quiet |].
    unfold Pooled.List, display. repeat wp_step; auto.
    wp_use wp_acquire. destruct H as [_ H]. acq_cases r H; auto.
    + unfold Pooled.ConnectionFree. repeat wp_step; auto.
      all: rewrite !existsb_app; cbn; now rewrite ?orb_true_r.
    + repeat wp_step; auto.
  - intros r evs [[Hq _] H]. split; [| exact H].
    revert Hq. apply only_none_of. fp_side.
Qed.

Lemma Legacy_List_listed (env : Env) (f : Fs) (dir : string) :
  wp (Legacy.List env f dir) listed.
Proof.
  unfold listed.
  apply (wp_conseq _ (fun r evs => (only quiet evs /\ nil_panic r)
                                   /\ match r with
                                      | Ret (_, None) => existsb is_Dirlist evs = true
                                      | _ => True
                                      end)).
  - apply wp_conj; [apply Legacy_List_quiet |].
    unfold Legacy.List, display. repeat wp_step; auto.
    wp_use Legacy_xrdremote_dials. destruct H as [_ H]. dial_cases r H.
    + unfold Legacy.deferred_Close. repeat wp_step; auto.
      all: rewrite !existsb_app; cbn; now rewrite ?orb_true_r.
    + repeat wp_step; auto.
    + repeat wp_step; auto.
  - intros r evs [[Hq _] H]. split; [| exact H].
    revert Hq. apply only_none_of. fp_side.
Qed.

(** Closes a goal about [deletes_after_listing] on a trace put together
    from parts that delete nothing and single calls. *)
Ltac dal_solve :=
  lazymatch goal with
  | |- wp _ _ => fail
  | |- _ =>
      cbv beta;
      repeat match goal with
             | H : only pool_event ?evs |- _ =>
                 apply (only_none_of _ is_delete) in H; [| fp_side]
             end;
      repeat first
        [ rewrite deletes_after_listing_app
        | rewrite existsb_app
        | rewrite deletes_after_listing_seen
        | match goal with
          | H : none_of is_delete ?evs |- context [deletes_after_listing _ ?evs] =>
              rewrite (deletes_after_listing_none _ evs H)
          | H : existsb is_Dirlist _ = true |- _ => rewrite H
          end
        | progress cbn [deletes_after_listing existsb app is_delete is_Dirlist
                        andb orb] ];
      try reflexivity
  end.

Lemma Pooled_Rmdir_lists_first (env : Env) (f : Fs) (dir : string) :
  wp (Pooled.Rmdir env f dir) (fun _ evs => deletes_after_listing false evs = true).
Proof.
  unfold Pooled.Rmdir. wp_step.
  wp_use Pooled_List_listed. destruct H as [Hd Hl].
  destruct r as [[entries [e |]] |]; repeat wp_step; try dal_solve.
  wp_use wp_acquire. destruct H as [Hev H]. acq_cases r H.
  - unfold Pooled.ConnectionFree. repeat wp_step; dal_solve.
  - unfold Pooled.ConnectionFree. repeat wp_step; dal_solve.
  - dal_solve.
Qed.

Lemma Legacy_Rmdir_lists_first (env : Env) (f : Fs) (dir : string) :
  wp (Legacy.Rmdir env f dir) (fun _ evs => deletes_after_listing false evs = true).
Proof.
  unfold Legacy.Rmdir. wp_step.
  wp_use Legacy_List_listed. destruct H as [Hd Hl].
  destruct r as [[entries [e |]] |]; repeat wp_step; try dal_solve.
  wp_use Legacy_xrdremote_dials. destruct H as [Hev H]. dial_cases r H.
  - unfold Legacy.deferred_Close. repeat wp_step; dal_solve.
  - repeat wp_step; dal_solve.
  - repeat wp_step; dal_solve.
Qed.

(** C9, as the code has it.  When [List] returns at least one entry,
    [Rmdir] makes no call beyond those of [List], none of which deletes.
    In the pooled revision [List] then has returned no error and [Rmdir]
    returns [ErrorDirectoryNotEmpty].  In the legacy revision [List] may
    return the entries together with the error of its last
    [client.Close]; [Rmdir] returns [ErrorDirectoryNotEmpty] when [List]
    returned no error and that error, wrapped, otherwise.  In every run
    of [Rmdir], in both revisions, a deleting call comes after a
    [Dirlist] call. *)
Theorem Rmdir_refuses_nonempty (env : Env) (f : Fs) (dir : string) (w w' : world)
  (entries : list DirEntry) (err : option error) :
  entries <> [] ->
  (Pooled.List env f dir w = (Ret (entries, err), w') ->
   err = None
   /\ Pooled.Rmdir env f dir w = (Ret (Some ErrorDirectoryNotEmpty), w')
   /\ none_of is_delete (new_events w w'))
  /\ (Legacy.List env f dir w = (Ret (entries, err), w') ->
      Legacy.Rmdir env f dir w
      = (Ret (Some (match err with
                    | None => ErrorDirectoryNotEmpty
                    | Some e => Wrap e "Rmdir"
                    end)), w')
      /\ none_of is_delete (new_events w w')
      /\ forall e, err = Some e -> exists code, e = ErrServer code)
  /\ deletes_after_listing false (new_events w (snd (Pooled.Rmdir env f dir w))) = true
  /\ deletes_after_listing false (new_events w (snd (Legacy.Rmdir env f dir w))) = true.
Proof.
  intros Hne. split; [| split; [| split]].
  - intros HL.
    pose proof (wp_run _ _ w (Pooled_List_error_no_entries env f dir)) as He.
    pose proof (wp_run _ _ w (Pooled_List_listed env f dir)) as [Hd _].
    rewrite HL in He, Hd. cbn in He, Hd.
    destruct err as [e |]; [contradiction (Hne He) |].
    split; [reflexivity |]. split; [| exact Hd].
    unfold Pooled.Rmdir, bind. rewrite HL.
    destruct entries; [contradiction | reflexivity].
  - intros HL.
    pose proof (wp_run _ _ w (Legacy_List_error_entries env f dir)) as He.
    pose proof (wp_run _ _ w (Legacy_List_listed env f dir)) as [Hd _].
    rewrite HL in He, Hd. cbn in He, Hd.
    split; [| split; [exact Hd |]].
    + unfold Legacy.Rmdir, bind. rewrite HL.
      destruct err as [e |]; [reflexivity |].
      destruct entries; [contradiction | reflexivity].
    + intros e ->. destruct He as [He | He]; [contradiction | exact He].
  - apply (wp_run _ _ w (Pooled_Rmdir_lists_first env f dir)).
  - apply (wp_run _ _ w (Legacy_Rmdir_lists_first env f dir)).
Qed.

Lemma Rmdir_refuses_nonempty_witness :
  [EntObject (setMetadata (new_Object Fixture.fs_a "dir/a.txt") Fixture.info_file)] <> []
  /\ Pooled.Rmdir Fixture.env_ok Fixture.fs_a "dir" empty_world
     = (Ret (Some ErrorDirectoryNotEmpty),
        snd (Pooled.List Fixture.env_ok Fixture.fs_a "dir" empty_world))
  /\ Legacy.Rmdir Fixture.env_ok Fixture.fs_a "dir" empty_world
     = (Ret (Some ErrorDirectoryNotEmpty),
        snd (Legacy.List Fixture.env_ok Fixture.fs_a "dir" empty_world)).
Proof.
  assert (Hne : [EntObject (setMetadata (new_Object Fixture.fs_a "dir/a.txt")
                                        Fixture.info_file)] <> [])
    by discriminate.
  split; [exact Hne |].
  split.
  - apply (proj1 (Rmdir_refuses_nonempty Fixture.env_ok Fixture.fs_a "dir" empty_world
                    _ _ None Hne)).
    vm_compute. reflexivity.
  - apply (proj1 (proj2 (Rmdir_refuses_nonempty Fixture.env_ok Fixture.fs_a "dir"
                           empty_world _ _ None Hne))).
    vm_compute. reflexivity.
Defined.

(** C9 as stated fails in the legacy revision: the directory has one
    entry and every call succeeds but [client.Close]; [List] returns the
    entry together with the error of the close, and [Rmdir] returns that
    error, wrapped, and not [ErrorDirectoryNotEmpty].  Nothing is
    deleted. *)
Lemma legacy_Rmdir_nonempty_returns_close_error :
  fst (Legacy.List Fixture2.env_close_fails Fixture.fs_a "dir" empty_world)
  = Ret ([EntObject (setMetadata (new_Object Fixture.fs_a "dir/a.txt") Fixture.info_file)],
         Some (ErrServer 9))
  /\ fst (Legacy.Rmdir Fixture2.env_close_fails Fixture.fs_a "dir" empty_world)
     = Ret (Some (Wrap (ErrServer 9) "Rmdir"))
  /\ trace (snd (Legacy.Rmdir Fixture2.env_close_fails Fixture.fs_a "dir" empty_world))
     = [EvDial "localhost:1094" "user"; EvStat 0 "root://hostA:1094//data//dir";
        EvDirlist 0 "root://hostA:1094//data//dir/a.txt"; EvClientClose 0;
        EvClientClose 0].
Proof.
  vm_compute. repeat split.
Qed.

(** ** Move *)




(** ** Close of a download *)

Lemma wrap64_add (a n : Z) : wrap64 (wrap64 a + n) = wrap64 (a + n).
Proof.
  unfold wrap64.
  replace ((a + 2 ^ 63) mod 2 ^ 64 - 2 ^ 63 + n + 2 ^ 63)%Z
    with ((a + 2 ^ 63) mod 2 ^ 64 + n)%Z by lia.
  rewrite Zplus_mod_idemp_l. f_equal. f_equal. lia.
Qed.

Lemma wrap64_idem (a : Z) : wrap64 (wrap64 a) = wrap64 a.
Proof.
  pose proof (wrap64_add a 0) as H. rewrite !Z.add_0_r in H. exact H.
Qed.

Lemma fold_add_shift (reads : list (Z * option error)) (a : Z) :
  fold_left (fun acc r => (acc + fst r)%Z) reads a = (a + delivered reads)%Z.
Proof.
  unfold delivered. revert a. induction reads as [| [n err] rest IH]; intros a; cbn.
  - lia.
  - rewrite IH, (IH n). lia.
Qed.

Lemma delivered_cons (n : Z) (err : option error) (rest : list (Z * option error)) :
  delivered ((n, err) :: rest) = (n + delivered rest)%Z.
Proof.
  unfold delivered at 1. cbn [fold_left fst]. now rewrite fold_add_shift.
Qed.

(** The counter of a stream after its reads: the object is the one the
    stream was opened for, and [bytes] is the sum of what the reads
    returned, wrapped to [int64]. *)
Lemma read_all_counts (o : Object) (reads : list (Z * option error)) :
  file_o (read_all (newObjectReader o) reads) = o
  /\ file_bytes (read_all (newObjectReader o) reads) = wrap64 (delivered reads).
Proof.
  assert (G : forall file,
             file_o (read_all file reads) = file_o file
             /\ wrap64 (file_bytes (read_all file reads))
                = wrap64 (file_bytes file + delivered reads)
             /\ (wrap64 (file_bytes file) = file_bytes file ->
                 wrap64 (file_bytes (read_all file reads)) = file_bytes (read_all file reads))).
  { induction reads as [| [n err] rest IH]; intros file.
    - cbn. rewrite Z.add_0_r. auto.
    - unfold read_all in *. cbn [fold_left fst snd].
      destruct (IH (fst (xrdOpenFile_Read file n err))) as (Ho & Hb & Hr).
      split; [rewrite Ho; reflexivity |]. split.
      + rewrite Hb. cbn [xrdOpenFile_Read fst file_bytes].
        rewrite wrap64_add, delivered_cons. f_equal. lia.
      + intros _. apply Hr. cbn [xrdOpenFile_Read fst file_bytes]. apply wrap64_idem. }
  destruct (G (newObjectReader o)) as (Ho & Hb & Hr). split; [exact Ho |].
  rewrite <- Hr by reflexivity. rewrite Hb. reflexivity.
Qed.

(** C4, as the code has it.  [Close] compares the bytes delivered with
    the size of the object in both revisions, but only the legacy revision
    returns the mismatch as an error (and then in place of the error of
    the underlying close); the pooled revision returns what the
    underlying close returned. *)
Theorem Close_length_check_by_revision (o : Object) (reads : list (Z * option error))
  (cerr : option error) :
  let file := read_all (newObjectReader o) reads in
  (o_size o <> wrap64 (delivered reads) ->
   Legacy.xrdOpenFile_Close file cerr
   = Some (ErrLengthMismatch (o_size o) (wrap64 (delivered reads))))
  /\ (o_size o = wrap64 (delivered reads) -> Legacy.xrdOpenFile_Close file cerr = cerr)
  /\ Pooled.xrdOpenFile_Close file cerr = cerr.
Proof.
  cbn zeta. destruct (read_all_counts o reads) as [Ho Hb].
  unfold Legacy.xrdOpenFile_Close, Pooled.xrdOpenFile_Close. rewrite Ho, Hb.
  repeat split.
  - intros Hne. apply Z.eqb_neq in Hne. now rewrite Hne.
  - intros He. apply Z.eqb_eq in He. now rewrite He.
  - now destruct cerr.
Qed.

Lemma Close_length_check_by_revision_witness :
  o_size Fixture.obj_ten <> wrap64 (delivered [(4%Z, Some io_EOF)])
  /\ Legacy.xrdOpenFile_Close Fixture.short_download None
     = Some (ErrLengthMismatch 10 4)
  /\ Legacy.xrdOpenFile_Close
       (read_all (newObjectReader Fixture.obj_ten) [(4%Z, None); (6%Z, Some io_EOF)]) None
     = None.
Proof.
  assert (Hne : o_size Fixture.obj_ten <> wrap64 (delivered [(4%Z, Some io_EOF)]))
    by (vm_compute; discriminate).
  assert (He : o_size Fixture.obj_ten
               = wrap64 (delivered [(4%Z, None); (6%Z, Some io_EOF)]))
    by (vm_compute; reflexivity).
  split; [exact Hne |]. split.
  - exact (proj1 (Close_length_check_by_revision Fixture.obj_ten
                    [(4%Z, Some io_EOF)] None) Hne).
  - exact (proj1 (proj2 (Close_length_check_by_revision Fixture.obj_ten
                           [(4%Z, None); (6%Z, Some io_EOF)] None)) He).
Defined.

(** C4 as stated fails in the pooled revision: four bytes of an object of
    ten were delivered, and [Close] returns no error. *)
Lemma pooled_Close_returns_no_mismatch :
  o_size (file_o Fixture.short_download) = 10%Z
  /\ file_bytes Fixture.short_download = 4%Z
  /\ Pooled.xrdOpenFile_Close Fixture.short_download None = None.
Proof.
  vm_compute. repeat split.
Qed.

(** ** Parsing the checksum answer *)

Lemma Split_no_sep (s : string) (sep : ascii) :
  string_forallb (fun ch => negb (Ascii.eqb ch sep)) s = true ->
  strings_Split s sep = [s].
Proof.
  induction s as [| ch rest IH]; cbn; intros H; [reflexivity |].
  apply andb_true_iff in H. destruct H as [Hc Hr].
  apply negb_true_iff in Hc. rewrite Hc, (IH Hr). reflexivity.
Qed.

Lemma Split_at_sep (s1 s2 : string) (sep : ascii) :
  string_forallb (fun ch => negb (Ascii.eqb ch sep)) s1 = true ->
  strings_Split (s1 ++ String sep s2)%string sep = s1 :: strings_Split s2 sep.
Proof.
  induction s1 as [| ch rest IH]; cbn; intros H.
  - now rewrite Ascii.eqb_refl.
  - apply andb_true_iff in H. destruct H as [Hc Hr].
    apply negb_true_iff in Hc. rewrite Hc, (IH Hr). reflexivity.
Qed.

Lemma string_forallb_impl (p q : ascii -> bool) (s : string) :
  (forall ch, p ch = true -> q ch = true) ->
  string_forallb p s = true -> string_forallb q s = true.
Proof.
  intros Hpq. induction s as [| ch rest IH]; cbn; [reflexivity |].
  intros H. apply andb_true_iff in H. destruct H as [Hc Hr].
  rewrite (Hpq ch Hc), (IH Hr). reflexivity.
Qed.

Lemma string_forallb_app (p : ascii -> bool) (s1 s2 : string) :
  string_forallb p (s1 ++ s2)%string = string_forallb p s1 && string_forallb p s2.
Proof.
  induction s1 as [| ch rest IH]; cbn; [reflexivity |].
  now rewrite IH, andb_assoc.
Qed.

Lemma hex_digit_not_space (ch : ascii) :
  is_hex_digit ch = true -> negb (Ascii.eqb ch " ") = true.
Proof.
  destruct ch as [[] [] [] [] [] [] [] []]; vm_compute; congruence.
Qed.

Lemma hex_digit_not_NUL (ch : ascii) :
  is_hex_digit ch = true -> negb (Ascii.eqb ch "000") = true.
Proof.
  destruct ch as [[] [] [] [] [] [] [] []]; vm_compute; congruence.
Qed.

Lemma substring_prefix (d s : string) :
  String.substring 0 (String.length d) (d ++ s)%string = d.
Proof.
  induction d as [| ch rest IH]; cbn.
  - now destruct s.
  - now rewrite IH.
Qed.

Lemma length_append (s1 s2 : string) :
  String.length (s1 ++ s2)%string = String.length s1 + String.length s2.
Proof.
  induction s1 as [| ch rest IH]; cbn; auto.
Qed.

(** A step of a [wp] proof that uses what is known about the answer to
    the checksum query. *)
Ltac wp_step_with H :=
  first [ apply wp_call_res; intros ?; cbv beta; rewrite H; cbn [server_result]
        | wp_step ].

Lemma parsers_agree (cached d : string) :
  String.length d = 8 -> string_forallb is_hex_digit d = true ->
  Legacy.parse_checksum (well_formed_answer d) = Ret d
  /\ Pooled.parse_checksum cached Adler32HashType (well_formed_answer d) = Ret d.
Proof.
  intros Hlen Hhex. unfold well_formed_answer. split.
  - unfold Legacy.parse_checksum.
    rewrite !length_append, Hlen. cbn [String.length Nat.add Nat.ltb Nat.leb].
    cbn [String.append String.substring]. rewrite <- Hlen. now rewrite substring_prefix.
  - unfold Pooled.parse_checksum.
    change ("adler32 " ++ d ++ String "000" "")%string
      with ("adler32" ++ String " " (d ++ String "000" ""))%string.
    rewrite Split_at_sep by reflexivity.
    rewrite Split_no_sep.
    + cbn [String.eqb hash_Type_eqb andb]. cbn.
      rewrite Split_at_sep.
      * now rewrite Hlen.
      * revert Hhex. apply string_forallb_impl, hex_digit_not_NUL.
    + rewrite string_forallb_app. cbn. rewrite andb_true_r.
      revert Hhex. apply string_forallb_impl, hex_digit_not_space.
Qed.

Lemma Legacy_Hash_well_formed (env : Env) (o : Object) (d : string) :
  String.length d = 8 -> string_forallb is_hex_digit d = true ->
  (forall tr p, srv_Checksum env tr p = inr (well_formed_answer d)) ->
  wp (Legacy.Hash env o Adler32HashType) (fun r _ => digest_is d r).
Proof.
  intros Hlen Hhex Hsrv. unfold Legacy.Hash. cbn [hash_Type_eqb negb].
  destruct (parsers_agree "" d Hlen Hhex) as [HL _].
  wp_step. wp_use Legacy_xrdremote_dials. destruct H as [_ H]. dial_cases r H;
    repeat wp_step_with Hsrv; cbn; auto.
  all: try discriminate; injection HL as ->; auto.
Qed.

Lemma Pooled_Hash_well_formed (env : Env) (o : Object) (d : string) :
  String.length d = 8 -> string_forallb is_hex_digit d = true ->
  (forall tr p, srv_Checksum env tr p = inr (well_formed_answer d)) ->
  HashChosen (fs_opt (o_fs o)) <> "none" ->
  wp (Pooled.Hash env o Adler32HashType) (fun r _ => digest_is d r).
Proof.
  intros Hlen Hhex Hsrv Hn. unfold Pooled.Hash. cbn [hash_Type_eqb negb].
  destruct (String.eqb_spec (HashChosen (fs_opt (o_fs o))) "none") as [E | _];
    [contradiction |].
  destruct (parsers_agree (o_hash o) d Hlen Hhex) as [_ HP].
  repeat wp_step; cbn; auto.
  wp_use wp_acquire. destruct H as [_ H]. acq_cases r H;
    unfold Pooled.ConnectionFree; repeat wp_step_with Hsrv; cbn; auto.
  all: try discriminate; injection HP as ->; auto.
Qed.

(** C7.  On an answer made of ["adler32 "], eight hexadecimal digits and
    a NUL, the slice of the legacy revision and the textual parse of the
    pooled revision give the same digest, the eight digits; and when the
    server gives that answer, a [Hash] of either revision (the pooled one
    with hashing enabled) that returns without an error returns these
    eight digits and caches them. *)
Theorem Hash_parsers_agree (cached d : string) :
  String.length d = 8 -> string_forallb is_hex_digit d = true ->
  (Legacy.parse_checksum (well_formed_answer d) = Ret d
   /\ Pooled.parse_checksum cached Adler32HashType (well_formed_answer d) = Ret d)
  /\ (forall env o w,
         (forall tr p, srv_Checksum env tr p = inr (well_formed_answer d)) ->
         HashChosen (fs_opt (o_fs o)) <> "none" ->
         digest_is d (fst (Legacy.Hash env o Adler32HashType w))
         /\ digest_is d (fst (Pooled.Hash env o Adler32HashType w))).
Proof.
  intros Hlen Hhex. split; [exact (parsers_agree cached d Hlen Hhex) |].
  intros env o w Hsrv Hn. split.
  - exact (wp_run _ _ w (Legacy_Hash_well_formed env o d Hlen Hhex Hsrv)).
  - exact (wp_run _ _ w (Pooled_Hash_well_formed env o d Hlen Hhex Hsrv Hn)).
Qed.

Lemma Hash_parsers_agree_witness :
  String.length "95ec3712" = 8
  /\ (forall tr p, srv_Checksum Fixture.env_ok tr p = inr (well_formed_answer "95ec3712"))
  /\ HashChosen (fs_opt (o_fs Fixture.obj_a)) <> "none"
  /\ Legacy.parse_checksum (well_formed_answer "95ec3712") = Ret "95ec3712"
  /\ Pooled.parse_checksum "" Adler32HashType (well_formed_answer "95ec3712")
     = Ret "95ec3712"
  /\ fst (Legacy.Hash Fixture.env_ok Fixture.obj_a Adler32HashType empty_world)
     = Ret (set_hash Fixture.obj_a "95ec3712", ("95ec3712", None))
  /\ fst (Pooled.Hash Fixture.env_ok Fixture.obj_a Adler32HashType empty_world)
     = Ret (set_hash Fixture.obj_a "95ec3712", ("95ec3712", None))
  /\ digest_is "95ec3712"
       (fst (Pooled.Hash Fixture.env_ok Fixture.obj_a Adler32HashType empty_world)).
Proof.
  assert (Hsrv : forall tr p,
             srv_Checksum Fixture.env_ok tr p = inr (well_formed_answer "95ec3712"))
    by (intros; reflexivity).
  assert (Hn : HashChosen (fs_opt (o_fs Fixture.obj_a)) <> "none")
    by (vm_compute; discriminate).
  split; [reflexivity |].
  split; [exact Hsrv |].
  split; [exact Hn |].
  destruct (Hash_parsers_agree "" "95ec3712" eq_refl eq_refl) as [[HL HP] HH].
  split; [exact HL |].
  split; [exact HP |].
  split; [vm_compute; reflexivity |].
  split; [vm_compute; reflexivity |].
  exact (proj2 (HH Fixture.env_ok Fixture.obj_a empty_world Hsrv Hn)).
Defined.

(** ** Hash in the pooled revision *)

(** With hashing disabled, [Hash] returns the empty string and no error
    before anything else: no path is resolved and no call is made. *)
Lemma Hash_disabled (env : Env) (o : Object) (t : hash_Type) (w : world) :
  HashChosen (fs_opt (o_fs o)) = "none" ->
  Pooled.Hash env o t w = (Ret (o, ("", None)), w).
Proof.
  intros H. unfold Pooled.Hash. rewrite H. reflexivity.
Qed.

(** An answer whose first field is not ["adler32"], or whose digest does
    not have eight bytes, leaves the cached hash as it is, and that is what
    [Hash] returns: the empty string for an object without a cached
    hash. *)
Lemma parse_checksum_mismatch (cached : string) :
  Pooled.parse_checksum cached Adler32HashType "md5 0123456789abcdef" = Ret cached
  /\ Pooled.parse_checksum cached Adler32HashType "adler32 95ec" = Ret cached
  /\ Pooled.parse_checksum cached Adler32HashType "" = Ret cached.
Proof.
  repeat split.
Qed.

Lemma Split_nonempty (s : string) (sep : ascii) : strings_Split s sep <> [].
Proof.
  destruct s as [| ch rest]; cbn; [discriminate |].
  destruct (Ascii.eqb ch sep); [discriminate |].
  destruct (strings_Split rest sep); discriminate.
Qed.

Lemma Split_single (s x : string) (sep : ascii) :
  strings_Split s sep = [x] -> s = x.
Proof.
  revert x. induction s as [| ch rest IH]; cbn; intros x H.
  - congruence.
  - destruct (Ascii.eqb ch sep).
    + inversion H as [[Hx Hnil]]. now destruct (Split_nonempty rest sep).
    + destruct (strings_Split rest sep) as [| h t] eqn:E.
      * now destruct (Split_nonempty rest sep).
      * inversion H; subst. now rewrite (IH h eq_refl).
Qed.

(** The answers on which the parse of the pooled [Hash] panics: exactly
    the seven bytes ["adler32"]. *)
Lemma parse_checksum_panics_iff (cached data : string) :
  (exists msg, Pooled.parse_checksum cached Adler32HashType data = Panic msg)
  <-> data = "adler32".
Proof.
  split.
  - intros [msg H]. unfold Pooled.parse_checksum in H.
    destruct (strings_Split data " ") as [| s0 tl] eqn:E.
    + now destruct (Split_nonempty data " ").
    + destruct (String.eqb_spec s0 "adler32") as [-> | _]; cbn in H; [| discriminate].
      destruct tl as [| s1 tl].
      * now apply Split_single in E.
      * destruct (strings_Split s1 "000") as [| h t] eqn:E1.
        -- now destruct (Split_nonempty s1 "000").
        -- destruct (Nat.eqb (String.length h) 8); discriminate.
  - intros ->. eexists. reflexivity.
Qed.

(** C8, the failing input.  The server answers the checksum query with
    the seven bytes ["adler32"]: [strings.Split] gives one field, and
    [stringdata[1]] panics. *)
Theorem Hash_panics_on_bare_algorithm_name :
  HashChosen (fs_opt (o_fs Fixture.obj_a)) <> "none"
  /\ (forall cached, Pooled.parse_checksum cached Adler32HashType "adler32"
                     = Panic "index out of range [1] with length 1")
  /\ fst (Pooled.Hash Fixture.env_bare_name Fixture.obj_a Adler32HashType empty_world)
     = Panic "index out of range [1] with length 1".
Proof.
  split; [vm_compute; discriminate |].
  split; [intros cached; reflexivity |].
  vm_compute. reflexivity.
Qed.

(** ** Upload of a source without data *)

Lemma count_reads_only (fp : event -> bool) (evs : list event) :
  (forall e, fp e = true -> is_read_or_write e = false) -> only fp evs ->
  count_reads evs = 0.
Proof.
  intros Hfp H. apply count_reads_none. now apply (only_none_of fp).
Qed.


















Lemma wrap64_small (z : Z) :
  (- 2 ^ 63 <= z < 2 ^ 63)%Z -> wrap64 z = z.
Proof.
  intros H. unfold wrap64. rewrite Z.mod_small; lia.
Qed.

(** For every source, not only an empty one: when the loop is left
    without an error the turn counter has grown, as long as it cannot
    wrap around.  So the diagnostic division has a divisor of at least
    1. *)
Lemma Pooled_loop_turn_grows (env : Env) (c : nat) (path : string) (input : reader)
  (index turn : Z) :
  (0 <= turn)%Z -> (turn + Z.of_nat (List.length input) + 1 < 2 ^ 63)%Z ->
  wp (Pooled.stream_loop env c path input index turn)
     (fun r _ => nil_panic r /\ forall i t, r = Ret (i, t, None) -> (turn < t)%Z).
Proof.
  revert index turn.
  induction input as [| [data err_read] rest IH]; intros index turn H0 Hb;
    cbn [Pooled.stream_loop]; unfold Pooled.loop_turn.
  - change (Z.of_nat (List.length (@nil (list byte * option error)))) with 0%Z in Hb.
    cbn [is_nil is_EOF negb andb]. repeat wp_step; cbn; (split; [exact I |]);
      intros i t [= _ <-]; try discriminate.
    rewrite wrap64_small; lia.
  - cbn [List.length] in Hb. rewrite Nat2Z.inj_succ in Hb.
    pose proof (Nat2Z.is_nonneg (List.length rest)) as Hlen.
    destruct err_read as [e |]; [destruct e |]; cbn [is_nil is_EOF negb andb];
      repeat wp_step; cbn; try (split; [exact I |]; intros; discriminate).
    + split; [exact I |]. intros i t [= _ <-]. rewrite wrap64_small; lia.
    + rewrite (wrap64_small (turn + 1)) by lia.
      assert (H1 : (0 <= turn + 1)%Z) by lia.
      assert (H2 : (turn + 1 + Z.of_nat (List.length rest) + 1 < 2 ^ 63)%Z) by lia.
      wp_use (IH (wrap64 (index + Z.of_nat (List.length data))) (turn + 1)%Z H1 H2).
      destruct H as [Hp H]. split; [assumption |].
      intros i t Hr. specialize (H _ _ Hr). lia.
Qed.

Lemma Legacy_loop_turn_grows (env : Env) (o : Object) (c : nat) (path : string)
  (input : reader) (index turn : Z) (d : digest) :
  (0 <= turn)%Z -> (turn + Z.of_nat (List.length input) + 1 < 2 ^ 63)%Z ->
  wp (Legacy.stream_loop env o c path input index turn d)
     (fun r _ => nil_panic r /\ forall i t d', r = Ret (i, t, d', None) -> (turn < t)%Z).
Proof.
  revert index turn d.
  induction input as [| [data err_read] rest IH]; intros index turn d H0 Hb;
    cbn [Legacy.stream_loop]; unfold Legacy.loop_turn.
  - cbn [is_nil is_EOF negb andb]. repeat wp_step; cbn.
    + wp_use Legacy_Update_remove_cleanup. destruct H as [_ Hp].
      destruct r; repeat wp_step; cbn; split; auto; intros; discriminate.
    + change (Z.of_nat (List.length (@nil (list byte * option error)))) with 0%Z in Hb.
      split; auto. intros i t d' [= _ <- _]. rewrite wrap64_small; lia.
  - cbn [List.length] in Hb. rewrite Nat2Z.inj_succ in Hb.
    pose proof (Nat2Z.is_nonneg (List.length rest)) as Hlen.
    destruct err_read as [e |]; [destruct e |]; cbn [is_nil is_EOF negb andb];
      repeat wp_step; cbn; try (split; auto; intros; discriminate);
      try (wp_use Legacy_Update_remove_cleanup; destruct H as [_ Hp];
           destruct r; repeat wp_step; cbn; split; auto; intros; discriminate).
    + split; auto. intros i t d' [= _ <- _]. rewrite wrap64_small; lia.
    + rewrite (wrap64_small (turn + 1)) by lia.
      assert (H1 : (0 <= turn + 1)%Z) by lia.
      assert (H2 : (turn + 1 + Z.of_nat (List.length rest) + 1 < 2 ^ 63)%Z) by lia.
      wp_use (IH (wrap64 (index + Z.of_nat (List.length data))) (turn + 1)%Z
                (adler32_Write d data) H1 H2).
      destruct H as [Hp H]. split; auto. intros i t d' Hr. specialize (H _ _ _ Hr). lia.
Qed.

(** The diagnostic of [Update] does not divide by zero, whatever the
    source, in both revisions. *)
Lemma Update_stream_never_divides_by_zero (env : Env) (o : Object) (c : nat)
  (path : string) (input : reader) (src : ObjectInfo) :
  (Z.of_nat (List.length input) + 1 < 2 ^ 63)%Z ->
  wp (Pooled.Update_stream env o c path input src) (fun r _ => r <> Panic divide_by_zero)
  /\ wp (Legacy.Update_stream env o c path input src) (fun r _ => r <> Panic divide_by_zero).
Proof.
  intros Hb. split.
  - unfold Pooled.Update_stream. wp_step.
    wp_use (Pooled_loop_turn_grows env c path input 0 0 ltac:(lia) ltac:(lia)).
    destruct H as [Hp H].
    destruct r as [[[i t] [e |]] |]; [| | cbn in Hp; subst; discriminate].
    + wp_step. wp_use Pooled_Update_remove_cleanup. destruct H0 as [_ Hq].
      destruct r; repeat wp_step; try discriminate. cbn in Hq. subst. discriminate.
    + specialize (H i t eq_refl).
      destruct (Z.eqb_spec t 0) as [-> | _]; [lia |].
      repeat wp_step; try discriminate.
      * wp_use Pooled_Update_remove_cleanup. destruct H0 as [_ Hq].
        destruct r; repeat wp_step; try discriminate. cbn in Hq. subst. discriminate.
      * wp_use Pooled_SetModTime_quiet. destruct H0 as (_ & Hq & _).
        destruct r as [[o1 err] |]; repeat wp_step; try discriminate.
        cbn in Hq. subst. discriminate.
  - unfold Legacy.Update_stream. wp_step.
    wp_use (Legacy_loop_turn_grows env o c path input 0 0 adler32_New ltac:(lia) ltac:(lia)).
    destruct H as [Hp H].
    destruct r as [[[[i t] d] [e |]] |]; cbn in Hp.
    + repeat wp_step. discriminate.
    + specialize (H i t d eq_refl).
      destruct (Z.eqb_spec t 0) as [-> | _]; [lia |].
      repeat wp_step; try discriminate.
      * wp_use Legacy_Update_remove_cleanup. destruct H0 as [_ Hq].
        destruct r; repeat wp_step; try discriminate. cbn in Hq. subst. discriminate.
      * wp_use Legacy_SetModTime_quiet. destruct H0 as (_ & Hq & _).
        destruct r as [[o1 err] |]; repeat wp_step; try discriminate.
        cbn in Hq. subst. discriminate.
    + subst. discriminate.
Qed.



(** ** What is passed to ConnectionFree *)


(** The same happens in [List], whose deferred release is written with
    the variable that later receives the outcome of the remote stat: the
    argument of a deferred call is evaluated when [defer] is executed. *)
Lemma List_releases_failed_session_as_good :
  Pooled.List Fixture.env_stat_fails Fixture.fs_a "d" empty_world
  = (Ret ([], Some ErrorDirNotFound),
     mkWorld [Some 0] [None]
             [EvDial "hostA" "user"; EvStat 0 "root://hostA:1094//data//d";
              EvFree 0 None]).
Proof.
  vm_compute. reflexivity.
Qed.

(** ** The checksum of an upload *)

Lemma Legacy_Hash_queried (env : Env) (o : Object) (t : hash_Type) :
  wp (Legacy.Hash env o t) queried.
Proof.
  unfold Legacy.Hash. repeat wp_step; cbn; auto.
  wp_use Legacy_xrdremote_dials. destruct H as [_ H]. dial_cases r H;
    repeat wp_step; cbn; auto.
  all: unfold Legacy.parse_checksum; repeat wp_step; cbn; auto.
  all: rewrite !existsb_app; cbn; now rewrite ?orb_true_r.
Qed.

Lemma Pooled_Hash_queried (env : Env) (o : Object) (t : hash_Type) :
  HashChosen (fs_opt (o_fs o)) <> "none" ->
  wp (Pooled.Hash env o t) queried.
Proof.
  intros Hn. unfold Pooled.Hash.
  destruct (String.eqb_spec (HashChosen (fs_opt (o_fs o))) "none") as [E | _];
    [contradiction |].
  repeat wp_step; cbn; auto.
  wp_use wp_acquire. destruct H as [_ H]. acq_cases r H; repeat wp_step; cbn; auto.
  all: unfold Pooled.ConnectionFree; repeat wp_step; cbn; auto.
  all: try (destruct (Pooled.parse_checksum _ _ _); repeat wp_step; cbn; auto).
  all: rewrite !existsb_app; cbn; now rewrite ?orb_true_r.
Qed.

(** C3, as the code has it.  A legacy [Update] that returns without an
    error wrote exactly the chunks of the input and left in [o.hash] the
    adler32 sum of exactly these bytes, printed with [%x]; the pooled
    [Update] computes no checksum and leaves [o.hash] empty; and [Hash],
    in both revisions (in the pooled one unless hashing is disabled),
    returns a digest only after a checksum query to the server. *)
Theorem Update_checksum_by_revision (env : Env) (o : Object) (input : reader)
  (src : ObjectInfo) (w : world) :
  (forall o' w',
      Legacy.Update env o input src w = (Ret (o', None), w') ->
      written_bytes (new_events w w') = List.concat (upload_chunks input)
      /\ o_hash o' = Sprintf_x (adler32_Checksum (written_bytes (new_events w w'))))
  /\ (forall o' err w',
         Pooled.Update env o input src w = (Ret (o', err), w') -> o_hash o' = "")
  /\ (forall t, queried (fst (Legacy.Hash env o t w))
                        (new_events w (snd (Legacy.Hash env o t w))))
  /\ (forall t, HashChosen (fs_opt (o_fs o)) <> "none" ->
                queried (fst (Pooled.Hash env o t w))
                        (new_events w (snd (Pooled.Hash env o t w)))).
Proof.
  split; [| split; [| split]].
  - intros o' w' H.
    pose proof (wp_run _ _ w (Legacy_Update_published env o input src)) as P.
    rewrite H in P. exact P.
  - intros o' err w' H.
    pose proof (wp_run _ _ w (Pooled_Update_post env o input src)) as [_ P].
    rewrite H in P. exact P.
  - intros t. apply (wp_run _ _ w (Legacy_Hash_queried env o t)).
  - intros t Hn. apply (wp_run _ _ w (Pooled_Hash_queried env o t Hn)).
Qed.

Lemma Update_checksum_by_revision_witness :
  fst (Legacy.Update Fixture.env_ok Fixture.obj_a Fixture.input_abc Fixture.src_info
         empty_world)
  = Ret (mkObject Fixture.fs_a "a.txt" 3 1590000000 420 "24d0127", None)
  /\ o_hash (mkObject Fixture.fs_a "a.txt" 3 1590000000 420 "24d0127")
     = Sprintf_x (adler32_Checksum
                    (written_bytes
                       (new_events empty_world
                          (snd (Legacy.Update Fixture.env_ok Fixture.obj_a Fixture.input_abc
                                  Fixture.src_info empty_world))))).
Proof.
  assert (H : Legacy.Update Fixture.env_ok Fixture.obj_a Fixture.input_abc Fixture.src_info
                empty_world
              = (Ret (mkObject Fixture.fs_a "a.txt" 3 1590000000 420 "24d0127", None),
                 snd (Legacy.Update Fixture.env_ok Fixture.obj_a Fixture.input_abc
                        Fixture.src_info empty_world)))
    by (vm_compute; reflexivity).
  split; [rewrite H; reflexivity |].
  exact (proj2 (proj1 (Update_checksum_by_revision Fixture.env_ok Fixture.obj_a
                         Fixture.input_abc Fixture.src_info empty_world) _ _ H)).
Defined.

(** C3 as stated fails in the pooled revision: with the checksum enabled,
    an upload of "abc" completes without an error and the cached hash is
    empty, not the adler32 sum of "abc"; the [Hash] that follows asks the
    server. *)
Lemma pooled_Update_publishes_no_checksum :
  HashChosen (fs_opt (o_fs Fixture.obj_a)) = "adler32"
  /\ fst (Pooled.Update Fixture.env_ok Fixture.obj_a Fixture.input_abc Fixture.src_info
            empty_world)
     = Ret (mkObject Fixture.fs_a "a.txt" 3 1590000000 420 "", None)
  /\ written_bytes
       (trace (snd (Pooled.Update Fixture.env_ok Fixture.obj_a Fixture.input_abc
                      Fixture.src_info empty_world)))
     = [x61; x62; x63]
  /\ Sprintf_x (adler32_Checksum [x61; x62; x63]) = "24d0127"
  /\ existsb is_Checksum
       (trace (snd (Pooled.Hash Fixture.env_ok
                      (mkObject Fixture.fs_a "a.txt" 3 1590000000 420 "")
                      Adler32HashType empty_world))) = true.
Proof.
  vm_compute. repeat split.
Qed.

(** ** An upload aborted by a read error *)

(** When the loop of the legacy [Update] is left by a read error, it has
    not called the cleanup: no [RemoveFile]. *)
Lemma Legacy_read_abort_skips_remove (env : Env) (o : Object) (c : nat) (path : string)
  (input : reader) (index turn : Z) (d : digest) :
  wp (Legacy.stream_loop env o c path input index turn d)
     (fun r evs =>
        forall i t d' e,
          r = Ret (i, t, d', Some (Wrap e "update: could not read data")) ->
          none_of is_RemoveFile evs).
Proof.
  revert index turn d.
  induction input as [| [data err_read] rest IH]; intros index turn d;
    cbn [Legacy.stream_loop]; unfold Legacy.loop_turn.
  - repeat wp_step; cbn; try (intros; reflexivity).
    wp_use Legacy_Update_remove_cleanup.
    destruct r; repeat wp_step; cbn; intros; discriminate.
  - destruct err_read as [e |]; [destruct e |]; cbn [is_nil is_EOF negb andb];
      repeat wp_step; cbn; try (intros; reflexivity);
      try (wp_use Legacy_Update_remove_cleanup;
           destruct r; repeat wp_step; cbn; intros; discriminate).
    wp_use IH.
    match goal with
    | Hr : _ = Ret _ |- _ => specialize (H _ _ _ _ Hr)
    end.
    only_solve.
Qed.

(** The same for the whole of the legacy [Update]: whenever it returns a
    read error, no [RemoveFile] call was made. *)
Lemma Legacy_Update_read_abort_skips_remove (env : Env) (o : Object) (input : reader)
  (src : ObjectInfo) :
  wp (Legacy.Update env o input src)
     (fun r evs =>
        forall o' e,
          r = Ret (o', Some (Wrap e "update: could not read data")) ->
          none_of is_RemoveFile evs).
Proof.
  unfold Legacy.Update. repeat wp_step; try (cbn; intros; discriminate).
  wp_use Legacy_xrdremote_dials. destruct H as [Hev H].
  apply (only_weaken _ (fun e => negb (is_RemoveFile e))) in Hev; [| fp_side].
  dial_cases r H; repeat wp_step; try (cbn; intros; discriminate).
  all: try (cbn; intros ? ? [= ? ?]; subst; cbn in *; contradiction).
  all: unfold Legacy.deferred_Close, Legacy.Update_stream;
    repeat wp_step; try (cbn; intros; discriminate).
  all: wp_use Legacy_read_abort_skips_remove;
    destruct r as [[[[i t] d] [x |]] |]; repeat wp_step; try (cbn; intros; discriminate).
  all: try (intros o' e' [= ? ?]; subst;
            match goal with
            | Hl : forall _ _ _ _, _ = _ -> _ |- _ => specialize (Hl _ _ _ _ eq_refl)
            end; only_solve).
  all: try (wp_use Legacy_Update_remove_cleanup; destruct r; repeat wp_step;
            cbn; intros; discriminate).
  all: try (wp_use Legacy_SetModTime_quiet; destruct r as [[o1 [? |]] |]; repeat wp_step;
            cbn; intros; discriminate).
Qed.

(** [Put] makes a new object and returns what [Update] on it returns. *)
Lemma Put_is_Update (env : Env) (f : Fs) (input : reader) (src : ObjectInfo) (w : world) :
  fst (Pooled.Put env f input src w)
  = match fst (Pooled.Update env (new_Object f (src_Remote src)) input src w) with
    | Ret (_, Some e) => Ret (None, Some e)
    | Ret (o, None) => Ret (Some o, None)
    | Panic msg => Panic msg
    end
  /\ snd (Pooled.Put env f input src w)
     = snd (Pooled.Update env (new_Object f (src_Remote src)) input src w)
  /\ fst (Legacy.Put env f input src w)
     = match fst (Legacy.Update env (new_Object f (src_Remote src)) input src w) with
       | Ret (_, Some e) => Ret (None, Some e)
       | Ret (o, None) => Ret (Some o, None)
       | Panic msg => Panic msg
       end
  /\ snd (Legacy.Put env f input src w)
     = snd (Legacy.Update env (new_Object f (src_Remote src)) input src w).
Proof.
  unfold Pooled.Put, Legacy.Put, bind.
  destruct (Pooled.Update env (new_Object f (src_Remote src)) input src w)
    as [[[o1 [e1 |]] | m1] w1];
    destruct (Legacy.Update env (new_Object f (src_Remote src)) input src w)
    as [[[o2 [e2 |]] | m2] w2]; cbn; auto.
Qed.

(** C2, the failing input.  The source gives two bytes and then a read
    error.  The legacy [Update] returns the read error, wrapped, and makes
    no [RemoveFile] call: the two bytes written stay on the server.  The
    pooled [Update] on the same input returns the read error and calls
    [RemoveFile]. *)
Theorem legacy_Update_read_error_leaves_partial_object :
  (fst (Legacy.Update Fixture.env_ok Fixture.obj_a Fixture.input_broken Fixture.src_info
          empty_world)
   = Ret (Fixture.obj_a, Some (Wrap (ErrReader 7) "update: could not read data"))
   /\ errors_Cause (Wrap (ErrReader 7) "update: could not read data") = ErrReader 7
   /\ written_bytes
        (trace (snd (Legacy.Update Fixture.env_ok Fixture.obj_a Fixture.input_broken
                       Fixture.src_info empty_world)))
      = [x61; x62]
   /\ none_of is_RemoveFile
        (trace (snd (Legacy.Update Fixture.env_ok Fixture.obj_a Fixture.input_broken
                       Fixture.src_info empty_world))))
  /\ (fst (Pooled.Update Fixture.env_ok Fixture.obj_a Fixture.input_broken Fixture.src_info
             empty_world)
      = Ret (Fixture.obj_a, Some (ErrReader 7))
      /\ existsb is_RemoveFile
           (trace (snd (Pooled.Update Fixture.env_ok Fixture.obj_a Fixture.input_broken
                          Fixture.src_info empty_world))) = true).
Proof.
  vm_compute. repeat split.
Qed.

(** ** Sessions and clients an operation uses *)

Lemma used_app (a b : list event) : used (a ++ b) = used a ++ used b.
Proof.
  induction a as [| e a IH]; cbn; auto. destruct (client_of e); cbn; now rewrite IH.
Qed.

Lemma freed_app (a b : list event) : freed (a ++ b) = freed a ++ freed b.
Proof.
  induction a as [| e a IH]; cbn; auto. destruct e; cbn; now rewrite ?IH.
Qed.

Lemma closed_app (a b : list event) : closed (a ++ b) = closed a ++ closed b.
Proof.
  induction a as [| e a IH]; cbn; auto. destruct e; cbn; now rewrite ?IH.
Qed.

Lemma used_pool_event (evs : list event) : only pool_event evs -> used evs = [].
Proof.
  unfold only. induction evs as [| e evs IH]; cbn; auto.
  intros H. apply andb_true_iff in H. destruct H as [He H].
  destruct e; cbn in He; try discriminate; cbn; auto.
Qed.

Lemma used_read_write (c : nat) (evs : list event) :
  only (fun e => match e with EvRead => true | EvWriteAt c' _ _ _ => Nat.eqb c' c | _ => false end) evs ->
  forall x, In x (used evs) -> x = c.
Proof.
  unfold only. induction evs as [| e evs IH]; cbn; [tauto |].
  intros H. apply andb_true_iff in H. destruct H as [He H].
  destruct e; cbn in He; try discriminate; cbn; auto.
  intros x [<- | Hx]; auto. now apply Nat.eqb_eq.
Qed.

Ltac acc_solve :=
  cbv beta; unfold accounted, uses_only in *;
  repeat match goal with
         | H : only pool_event ?evs /\ _ |- _ => destruct H as [H ?]
         end;
  repeat match goal with
         | H : only pool_event ?evs |- _ => apply used_pool_event in H
         end;
  let x := fresh "x" in
  let Hx := fresh "Hx" in
  intros x Hx;
  rewrite ?used_app, ?freed_app, ?closed_app in *;
  repeat match goal with
         | H : used ?evs = [] |- _ => rewrite H in *
         end;
  cbn [used freed closed client_of app] in *;
  rewrite ?in_app_iff in *; cbn [In] in *;
  repeat match goal with
         | H : forall y, In y (used _) -> _ |- _ => specialize (H x)
         end;
  rewrite ?in_app_iff in *; cbn [In] in *;
  intuition (subst; auto).

Lemma Pooled_Fs_stat_released (env : Env) (f : Fs) (remote : string) :
  wp (Pooled.Fs_stat env f remote) (fun _ evs => accounted freed [] evs).
Proof.
  unfold Pooled.Fs_stat. repeat wp_step; try acc_solve.
  wp_use wp_acquire. destruct H as [Hev H]. acq_cases r H.
  - unfold Pooled.ConnectionFree. repeat wp_step; acc_solve.
  - repeat wp_step. acc_solve.
  - acc_solve.
Qed.

Ltac acquire_cases :=
  wp_use wp_acquire;
  match goal with
  | H : only pool_event _ /\ acquired ?r |- _ =>
      let Hev := fresh "Hev" in destruct H as [Hev H]; acq_cases r H
  end.

Lemma Pooled_Object_stat_released (env : Env) (o : Object) :
  wp (Pooled.Object_stat env o) (fun _ evs => accounted freed [] evs).
Proof.
  unfold Pooled.Object_stat. wp_step.
  wp_use Pooled_Fs_stat_released.
  destruct r as [[info err] | msg]; repeat wp_step; acc_solve.
Qed.

Lemma Pooled_NewObject_released (env : Env) (f : Fs) (remote : string) :
  wp (Pooled.NewObject env f remote) (fun _ evs => accounted freed [] evs).
Proof.
  unfold Pooled.NewObject. wp_step.
  wp_use Pooled_Object_stat_released.
  destruct r as [[o err] | msg]; repeat wp_step; acc_solve.
Qed.

Lemma Pooled_SetModTime_released (env : Env) (o : Object) (modTime : Z) :
  wp (Pooled.SetModTime env o modTime) (fun _ evs => accounted freed [] evs).
Proof.
  unfold Pooled.SetModTime. wp_step.
  wp_use Pooled_Object_stat_released.
  destruct r as [[o1 err] | msg]; repeat wp_step; acc_solve.
Qed.

Lemma display_uses (env : Env) (f : Fs) (c : nat) (root : string) (info : FileInfo)
  (dir : string) :
  wp (display env f c root info dir) (fun _ evs => uses_only c evs).
Proof.
  unfold display. repeat wp_step; acc_solve.
Qed.

Lemma Pooled_List_released (env : Env) (f : Fs) (dir : string) :
  wp (Pooled.List env f dir) (fun _ evs => accounted freed [] evs).
Proof.
  unfold Pooled.List. repeat wp_step; try acc_solve.
  acquire_cases.
  - unfold Pooled.ConnectionFree. repeat wp_step; try acc_solve.
    wp_use display_uses.
    destruct r as [[entries err] | msg]; repeat wp_step; acc_solve.
  - repeat wp_step; acc_solve.
  - acc_solve.
Qed.

Lemma Pooled_Update_remove_released (env : Env) (o : Object) :
  wp (Pooled.Update_remove env o) (fun _ evs => accounted freed [] evs).
Proof.
  unfold Pooled.Update_remove. repeat wp_step; try acc_solve.
  acquire_cases.
  - unfold Pooled.ConnectionFree. repeat wp_step; acc_solve.
  - repeat wp_step; acc_solve.
  - acc_solve.
Qed.

Lemma Pooled_stream_loop_uses (env : Env) (c : nat) (path : string) (input : reader)
  (index turn : Z) :
  wp (Pooled.stream_loop env c path input index turn)
     (fun _ evs => uses_only c evs).
Proof.
  revert index turn. induction input as [| [data err_read] rest IH]; intros index turn;
    cbn [Pooled.stream_loop]; unfold Pooled.loop_turn; repeat wp_step; try acc_solve.
  all: wp_use IH; acc_solve.
Qed.

Lemma Pooled_Update_stream_uses (env : Env) (o : Object) (c : nat) (path : string)
  (input : reader) (src : ObjectInfo) :
  wp (Pooled.Update_stream env o c path input src)
     (fun _ evs => accounted freed [c] evs).
Proof.
  unfold Pooled.Update_stream. wp_step.
  wp_use Pooled_stream_loop_uses.
  destruct r as [[[index turn] errClient] | msg]; [| acc_solve].
  destruct errClient as [e |].
  - wp_step. wp_use Pooled_Update_remove_released.
    destruct r; repeat wp_step; acc_solve.
  - repeat wp_step; try acc_solve.
    + wp_use Pooled_Update_remove_released.
      destruct r; repeat wp_step; acc_solve.
    + wp_use Pooled_SetModTime_released.
      destruct r as [[o1 err] |]; repeat wp_step; acc_solve.
Qed.

Lemma Pooled_Update_released (env : Env) (o : Object) (input : reader) (src : ObjectInfo) :
  wp (Pooled.Update env o input src) (fun _ evs => accounted freed [] evs).
Proof.
  unfold Pooled.Update. repeat wp_step; try acc_solve.
  acquire_cases.
  - unfold Pooled.ConnectionFree. repeat wp_step; try acc_solve.
    all: wp_use Pooled_Update_stream_uses;
      destruct r as [[o1 err] |]; repeat wp_step; acc_solve.
  - repeat wp_step; acc_solve.
  - acc_solve.
Qed.

Ltac simple_released :=
  repeat wp_step; try acc_solve;
  acquire_cases;
  unfold Pooled.ConnectionFree; repeat wp_step; try acc_solve.

Lemma Pooled_Mkdir_released (env : Env) (f : Fs) (dir : string) :
  wp (Pooled.Mkdir env f dir) (fun _ evs => accounted freed [] evs).
Proof. unfold Pooled.Mkdir. simple_released. Qed.

Lemma Pooled_Purge_released (env : Env) (f : Fs) :
  wp (Pooled.Purge env f) (fun _ evs => accounted freed [] evs).
Proof. unfold Pooled.Purge. simple_released. Qed.

Lemma Pooled_Remove_released (env : Env) (o : Object) :
  wp (Pooled.Remove env o) (fun _ evs => accounted freed [] evs).
Proof. unfold Pooled.Remove. simple_released. Qed.

Lemma Pooled_Hash_released (env : Env) (o : Object) (t : hash_Type) :
  wp (Pooled.Hash env o t) (fun _ evs => accounted freed [] evs).
Proof. unfold Pooled.Hash. simple_released. Qed.

Lemma Pooled_Rmdir_released (env : Env) (f : Fs) (dir : string) :
  wp (Pooled.Rmdir env f dir) (fun _ evs => accounted freed [] evs).
Proof.
  unfold Pooled.Rmdir. wp_step.
  wp_use Pooled_List_released.
  destruct r as [[entries err] |]; [| acc_solve].
  simple_released.
Qed.

Lemma Pooled_Move_released (env : Env) (f : Fs) (src : fs_Object) (remote : string) :
  wp (Pooled.Move env f src remote) (fun _ evs => accounted freed [] evs).
Proof.
  unfold Pooled.Move. repeat wp_step; try acc_solve.
  acquire_cases.
  - unfold Pooled.ConnectionFree. repeat wp_step; try acc_solve.
    wp_use Pooled_NewObject_released.
    destruct r as [[dstObj err] |]; repeat wp_step; acc_solve.
  - repeat wp_step; acc_solve.
  - acc_solve.
Qed.

Lemma Pooled_dirExists_released (env : Env) (ne : error -> bool) (f : Fs) (dir : string) :
  wp (PooledRest.dirExists env ne f dir) (fun _ evs => accounted freed [] evs).
Proof. unfold PooledRest.dirExists. simple_released. Qed.

Lemma Pooled_DirMove_released (env : Env) (dir_of : string -> string) (ne : error -> bool)
  (f : Fs) (src : fs_Fs) (a b : string) :
  wp (PooledRest.DirMove env dir_of ne f src a b) (fun _ evs => accounted freed [] evs).
Proof.
  unfold PooledRest.DirMove. repeat wp_step; try acc_solve.
  wp_use Pooled_dirExists_released.
  destruct r as [[ok err] |]; [| acc_solve].
  simple_released.
Qed.

(** *** The legacy revision: clients *)
Ltac dial :=
  wp_use Legacy_xrdremote_dials;
  match goal with
  | H : only pool_event _ /\ dialled ?r |- _ =>
      let Hev := fresh "Hev" in destruct H as [Hev H]; dial_cases r H
  end.

Ltac simple_closed :=
  repeat wp_step; try acc_solve;
  dial;
  unfold Legacy.deferred_Close; repeat wp_step; try acc_solve.

Lemma Legacy_Fs_stat_closed (env : Env) (f : Fs) (remote : string) :
  wp (Legacy.Fs_stat env f remote) (fun _ evs => accounted closed [] evs).
Proof. unfold Legacy.Fs_stat. simple_closed. Qed.

Lemma Legacy_Object_stat_closed (env : Env) (o : Object) :
  wp (Legacy.Object_stat env o) (fun _ evs => accounted closed [] evs).
Proof.
  unfold Legacy.Object_stat. wp_step.
  wp_use Legacy_Fs_stat_closed.
  destruct r as [[info err] | msg]; repeat wp_step; acc_solve.
Qed.

Lemma Legacy_NewObject_closed (env : Env) (f : Fs) (remote : string) :
  wp (Legacy.NewObject env f remote) (fun _ evs => accounted closed [] evs).
Proof.
  unfold Legacy.NewObject. wp_step.
  wp_use Legacy_Object_stat_closed.
  destruct r as [[o err] | msg]; repeat wp_step; acc_solve.
Qed.

Lemma Legacy_SetModTime_closed (env : Env) (o : Object) (modTime : Z) :
  wp (Legacy.SetModTime env o modTime) (fun _ evs => accounted closed [] evs).
Proof.
  unfold Legacy.SetModTime. wp_step.
  wp_use Legacy_Object_stat_closed.
  destruct r as [[o1 err] | msg]; repeat wp_step; acc_solve.
Qed.

Lemma Legacy_List_closed (env : Env) (f : Fs) (dir : string) :
  wp (Legacy.List env f dir) (fun _ evs => accounted closed [] evs).
Proof.
  unfold Legacy.List. repeat wp_step; try acc_solve.
  dial.
  - unfold Legacy.deferred_Close. repeat wp_step; try acc_solve.
    wp_use display_uses.
    destruct r as [[entries err] | msg]; repeat wp_step; acc_solve.
  - repeat wp_step; acc_solve.
  - repeat wp_step; acc_solve.
Qed.

Lemma Legacy_Rmdir_closed (env : Env) (f : Fs) (dir : string) :
  wp (Legacy.Rmdir env f dir) (fun _ evs => accounted closed [] evs).
Proof.
  unfold Legacy.Rmdir. wp_step.
  wp_use Legacy_List_closed.
  destruct r as [[entries err] |]; [| acc_solve].
  simple_closed.
Qed.

Lemma Legacy_Move_closed (env : Env) (f : Fs) (src : fs_Object) (remote : string) :
  wp (Legacy.Move env f src remote) (fun _ evs => accounted closed [] evs).
Proof.
  unfold Legacy.Move. repeat wp_step; try acc_solve.
  dial; [| repeat wp_step; acc_solve ..].
  wp_step. wp_step. dial; unfold Legacy.deferred_Close; repeat wp_step; try acc_solve.
  wp_use Legacy_NewObject_closed.
  destruct r as [[dstObj err] |]; repeat wp_step; acc_solve.
Qed.

Lemma Legacy_Update_remove_closed (env : Env) (o : Object) :
  wp (Legacy.Update_remove env o) (fun _ evs => accounted closed [] evs).
Proof. unfold Legacy.Update_remove. simple_closed. Qed.

Lemma Legacy_stream_loop_uses (env : Env) (o : Object) (c : nat) (path : string)
  (input : reader) (index turn : Z) (d : digest) :
  wp (Legacy.stream_loop env o c path input index turn d)
     (fun _ evs => accounted closed [c] evs).
Proof.
  revert index turn d. induction input as [| [data err_read] rest IH]; intros index turn d;
    cbn [Legacy.stream_loop]; unfold Legacy.loop_turn; repeat wp_step; try acc_solve.
  all: first [ wp_use IH; acc_solve
             | wp_use Legacy_Update_remove_closed; destruct r; repeat wp_step; acc_solve ].
Qed.

Lemma Legacy_Update_stream_uses (env : Env) (o : Object) (c : nat) (path : string)
  (input : reader) (src : ObjectInfo) :
  wp (Legacy.Update_stream env o c path input src)
     (fun _ evs => accounted closed [c] evs).
Proof.
  unfold Legacy.Update_stream. wp_step.
  wp_use Legacy_stream_loop_uses.
  destruct r as [[[[index turn] d] exit] | msg]; [| acc_solve].
  repeat wp_step; try acc_solve.
  - wp_use Legacy_Update_remove_closed.
    destruct r; repeat wp_step; acc_solve.
  - wp_use Legacy_SetModTime_closed.
    destruct r as [[o1 err] |]; repeat wp_step; acc_solve.
Qed.

Lemma Legacy_Update_closed (env : Env) (o : Object) (input : reader) (src : ObjectInfo) :
  wp (Legacy.Update env o input src) (fun _ evs => accounted closed [] evs).
Proof.
  unfold Legacy.Update. repeat wp_step; try acc_solve.
  dial; unfold Legacy.deferred_Close; repeat wp_step; try acc_solve.
  all: wp_use Legacy_Update_stream_uses;
    destruct r as [[o1 err] |]; repeat wp_step; acc_solve.
Qed.

Lemma Legacy_Mkdir_closed (env : Env) (f : Fs) (dir : string) :
  wp (LegacyRest.Mkdir env f dir) (fun _ evs => accounted closed [] evs).
Proof. unfold LegacyRest.Mkdir. simple_closed. Qed.

Lemma Legacy_Purge_closed (env : Env) (f : Fs) :
  wp (LegacyRest.Purge env f) (fun _ evs => accounted closed [] evs).
Proof. unfold LegacyRest.Purge. simple_closed. Qed.

Lemma Legacy_Remove_closed (env : Env) (o : Object) :
  wp (LegacyRest.Remove env o) (fun _ evs => accounted closed [] evs).
Proof. unfold LegacyRest.Remove. simple_closed. Qed.

Lemma Legacy_dirExists_closed (env : Env) (ne : error -> bool) (f : Fs) (dir : string) :
  wp (LegacyRest.dirExists env ne f dir) (fun _ evs => accounted closed [] evs).
Proof. unfold LegacyRest.dirExists. simple_closed. Qed.

Lemma Legacy_DirMove_closed (env : Env) (dir_of : string -> string) (ne : error -> bool)
  (f : Fs) (src : fs_Fs) (a b : string) :
  wp (LegacyRest.DirMove env dir_of ne f src a b) (fun _ evs => accounted closed [] evs).
Proof.
  unfold LegacyRest.DirMove. repeat wp_step; try acc_solve.
  dial; [| repeat wp_step; acc_solve ..].
  wp_step. wp_step.
  wp_use Legacy_dirExists_closed.
  destruct r as [[ok err] |]; unfold Legacy.deferred_Close; repeat wp_step; acc_solve.
Qed.

Lemma Legacy_xrdremote_only_dials (env : Env) (name : string) :
  wp (Legacy.xrdremote env name) (fun r evs => only is_Dial evs /\ dialled r).
Proof.
  unfold Legacy.xrdremote. repeat wp_step; fin.
Qed.

Lemma Legacy_Hash_never_closes (env : Env) (o : Object) (t : hash_Type) :
  wp (Legacy.Hash env o t) (fun _ evs => none_of is_ClientClose evs).
Proof.
  unfold Legacy.Hash. repeat wp_step; try only_solve.
  wp_use Legacy_xrdremote_only_dials. destruct H as [Hev H].
  apply (only_none_of _ is_ClientClose) in Hev; [| fp_side].
  dial_cases r H; repeat wp_step; only_solve.
Qed.

(** ** What the operations return *)

Lemma setMetadata_fields (o : Object) (info : FileInfo) :
  setMetadata o info =
  mkObject (o_fs o) (o_remote o) (fi_Size info) (fi_ModTime info) (fi_Mode info) (o_hash o).
Proof.
  unfold setMetadata. destruct o as [f r s t m h]. cbn.
  destruct (Z.eqb_spec s (fi_Size info)); cbn;
    destruct (Z.eqb_spec t (fi_ModTime info)); cbn;
    destruct (Z.eqb_spec m (fi_Mode info)); cbn; subst; reflexivity.
Qed.

Lemma Pooled_Object_stat_outcome (env : Env) (o : Object) :
  wp (Pooled.Object_stat env o) (fun r _ => stat_outcome o r).
Proof.
  unfold Pooled.Object_stat. wp_step.
  wp_use Pooled_Fs_stat_quiet. destruct H as [_ H].
  destruct r as [[info err] | msg]; [| exact I].
  repeat wp_step; cbn; auto. rewrite setMetadata_fields. cbn. auto.
Qed.

Lemma Legacy_Object_stat_outcome (env : Env) (o : Object) :
  wp (Legacy.Object_stat env o) (fun r _ => stat_outcome o r).
Proof.
  unfold Legacy.Object_stat. wp_step.
  wp_use Legacy_Fs_stat_quiet. destruct H as [_ H].
  destruct r as [[info err] | msg]; [| exact I].
  repeat wp_step; cbn; auto. rewrite setMetadata_fields. cbn. auto.
Qed.

Lemma Pooled_NewObject_found (env : Env) (f : Fs) (remote : string) :
  wp (Pooled.NewObject env f remote) (fun r _ => found r).
Proof.
  unfold Pooled.NewObject. wp_step.
  wp_use (wp_conj _ _ _ (Pooled_Object_stat_outcome env (new_Object f remote))
                        (Pooled_Object_stat_quiet env (new_Object f remote))).
  destruct H as (H & _ & Hp & _).
  destruct r as [[o [e |]] | msg]; repeat wp_step; cbn in *; auto.
  destruct H as [_ [-> | ->]]; reflexivity.
Qed.

Lemma Legacy_NewObject_found (env : Env) (f : Fs) (remote : string) :
  wp (Legacy.NewObject env f remote) (fun r _ => found r).
Proof.
  unfold Legacy.NewObject. wp_step.
  wp_use (wp_conj _ _ _ (Legacy_Object_stat_outcome env (new_Object f remote))
                        (Legacy_Object_stat_quiet env (new_Object f remote))).
  destruct H as (H & _ & Hp & _).
  destruct r as [[o [e |]] | msg]; repeat wp_step; cbn in *; auto.
  destruct H as [_ [-> | ->]]; reflexivity.
Qed.

Lemma Pooled_NewFs_result (env : Env) (dir_of : string -> string) (name root : string)
  (opt : Options) (path : string) :
  Pooled.xrdremote env (make_url opt root) = inr path ->
  wp (PooledRest.NewFs env dir_of name root (inr opt))
     (fun r _ => newfs_result false root path (parent_of dir_of path) r).
Proof.
  intros Hp. unfold PooledRest.NewFs. rewrite Hp. cbv zeta.
  destruct (String.eqb_spec root "") as [-> | Hr]; cbn [negb].
  - apply wp_ret. reflexivity.
  - wp_step. wp_use Pooled_NewObject_found.
    destruct r as [[[o |] [e |]] | msg]; cbn in H; try contradiction; auto.
    + apply wp_ret. cbn. split; auto.
    + rewrite H. apply wp_ret. cbn.
      destruct (String.eqb_spec root ""); [contradiction | reflexivity].
Qed.

Lemma Legacy_NewFs_result (env : Env) (dir_of : string -> string) (name root : string)
  (opt : Options) (u : URL) :
  xrdio_Parse env (make_url opt root) = inr u ->
  wp (LegacyRest.NewFs env dir_of name root (inr opt))
     (fun r _ => newfs_result true root (url_Path u) (parent_of dir_of (url_Path u)) r).
Proof.
  intros Hp. unfold LegacyRest.NewFs, Legacy.xrdremote. rewrite Hp. cbv zeta.
  destruct (String.eqb_spec root "") as [-> | Hr]; cbn [negb].
  - unfold Legacy.deferred_Close, other. repeat wp_step; reflexivity.
  - assert (Hroot : (root =? "") = false) by now apply String.eqb_neq.
    unfold newfs_result, other. rewrite !Hroot. cbn [negb].
    repeat wp_step; try reflexivity.
    wp_use Legacy_NewObject_found.
    destruct r as [[[o |] [e |]] | msg]; cbn in H; try contradiction.
    + unfold Legacy.deferred_Close. repeat wp_step; cbn; auto.
    + rewrite H. unfold Legacy.deferred_Close. repeat wp_step; cbn; auto.
    + unfold Legacy.deferred_Close. repeat wp_step; cbn; auto.
Qed.

(** ** Acquisitions that fail, sessions that are reused *)

Lemma getXrootdConnection_fails (env : Env) (f : Fs) (w : world) (code : nat) :
  pool w = [] ->
  srv_NewClient env (trace w) (Servername (fs_opt f)) (User (fs_opt f)) = Some code ->
  Pooled.getXrootdConnection env f w =
  (Ret (None, Some (dial_error code)),
   mkWorld [] (conns w) (trace w ++ [EvDial (Servername (fs_opt f)) (User (fs_opt f))])).
Proof.
  intros Hp Hd. rewrite (getXrootdConnection_empty env f w Hp), Hd. reflexivity.
Qed.

Lemma Mkdir_panics (env : Env) (f : Fs) (dir : string) (w : world) (code : nat) (path : string) :
  Pooled.xrdremote env (fs_url f ++ "/" ++ dir)%string = inr path ->
  pool w = [] ->
  srv_NewClient env (trace w) (Servername (fs_opt f)) (User (fs_opt f)) = Some code ->
  fst (Pooled.Mkdir env f dir w) = Panic nil_deref.
Proof.
  intros Hd Hp Hn. unfold Pooled.Mkdir. rewrite Hd. cbv zeta. unfold bind.
  rewrite (getXrootdConnection_fails env f w code Hp Hn). reflexivity.
Qed.

Lemma Purge_panics (env : Env) (f : Fs) (w : world) (code : nat) (path : string) :
  Pooled.xrdremote env (fs_root f) = inr path ->
  pool w = [] ->
  srv_NewClient env (trace w) (Servername (fs_opt f)) (User (fs_opt f)) = Some code ->
  fst (Pooled.Purge env f w) = Panic nil_deref.
Proof.
  intros Hd Hp Hn. unfold Pooled.Purge. rewrite Hd. cbv zeta. unfold bind.
  rewrite (getXrootdConnection_fails env f w code Hp Hn). reflexivity.
Qed.

Lemma list_set_same {A} (l : list A) (i : nat) (d : A) :
  i < List.length l -> list_set l i (nth i l d) = l.
Proof.
  revert i. induction l as [| h t IH]; intros [| j]; cbn; intros H; try lia; auto.
  f_equal. apply IH. lia.
Qed.

Lemma list_set_idle (w : world) (c : nat) :
  conn_err w c = None -> c < List.length (conns w) -> list_set (conns w) c None = conns w.
Proof.
  unfold conn_err. intros He Hc. rewrite <- He. now apply list_set_same.
Qed.

(** The sessions checked out are pairwise distinct. *)
Lemma NoDup_drop (c : nat) (l : list nat) : NoDup l -> NoDup (drop c l).
Proof. intros H. unfold drop. now apply NoDup_filter. Qed.

Lemma pool_step_distinct (env : Env) (f : Fs) (op : pool_op) (g g' : gstate) (r : connptr) :
  pool_inv g -> NoDup (held g) -> pool_step env f op g = Some (g', r) -> NoDup (held g').
Proof.
  intros [Hnn Hnd Hpool Hheld Hdead] Hd Hstep. destruct g as [w hl dl]. cbn in *.
  destruct op as [| c err]; unfold pool_step in Hstep; cbn [gw held dead] in Hstep.
  - destruct (pool w) as [| [c |] rest] eqn:Hp.
    + rewrite (getXrootdConnection_empty env f w Hp) in Hstep.
      destruct (srv_NewClient env (trace w) _ _) as [e |]; inversion Hstep; subst; cbn; auto.
      constructor; auto. intros Hin. apply Hheld in Hin. lia.
    + destruct (Hpool c (or_introl eq_refl)) as (He & Hlt & Hnh & Hndd).
      rewrite (getXrootdConnection_head env f w c rest Hp He) in Hstep.
      inversion Hstep; subst; cbn. constructor; auto.
    + exfalso. apply Hnn. now left.
  - destruct (mem c hl); [| discriminate].
    destruct (Pooled.ConnectionFree env (Some c) err w) as [[u | msg] w']; [| discriminate].
    inversion Hstep; subst; cbn. now apply NoDup_drop.
Qed.

Lemma pool_run_distinct (env : Env) (f : Fs) (ops : list pool_op) (g g' : gstate)
  (rs : list connptr) :
  pool_inv g -> NoDup (held g) -> pool_run env f ops g = Some (g', rs) -> NoDup (held g').
Proof.
  revert g g' rs. induction ops as [| op rest IH]; intros g g' rs Hinv Hd Hrun; cbn in Hrun.
  - now inversion Hrun; subst.
  - destruct (pool_step env f op g) as [[g1 r] |] eqn:Hstep; [| discriminate].
    destruct (pool_run env f rest g1) as [[g2 rs'] |] eqn:Hrest; [| discriminate].
    inversion Hrun; subst; clear Hrun.
    destruct (pool_step_inv env f op g g1 r Hinv Hstep) as (Hinv1 & _).
    exact (IH g1 g' rs' Hinv1 (pool_step_distinct env f op g g1 r Hinv Hd Hstep) Hrest).
Qed.

(** An acquire hands out no session that is checked out. *)
Lemma acquire_not_held (env : Env) (f : Fs) (g g' : gstate) (c : nat) :
  pool_inv g -> pool_step env f Acquire g = Some (g', Some c) -> ~ In c (held g).
Proof.
  intros [Hnn Hnd Hpool Hheld Hdead] Hstep. destruct g as [w hl dl].
  cbn [gw held dead] in *.
  unfold pool_step in Hstep; cbn [gw held dead] in Hstep.
  destruct (pool w) as [| [c' |] rest] eqn:Hp.
  - rewrite (getXrootdConnection_empty env f w Hp) in Hstep.
    destruct (srv_NewClient env (trace w) _ _) as [e |]; inversion Hstep; subst.
    intros Hin. apply Hheld in Hin. lia.
  - destruct (Hpool c' (or_introl eq_refl)) as (He & Hlt & Hnh & Hndd).
    rewrite (getXrootdConnection_head env f w c' rest Hp He) in Hstep.
    inversion Hstep; subst. auto.
  - exfalso. apply Hnn. now left.
Qed.

(** ** The file an upload leaves *)

Lemma write_at_end (content data : list byte) :
  write_at content data (Z.of_nat (List.length content)) = content ++ data.
Proof.
  unfold write_at. rewrite Nat2Z.id, firstn_all, Nat.sub_diag. cbn.
  rewrite skipn_all2 by lia. now rewrite app_nil_r.
Qed.

Lemma replay_app (a b : list event) (content : list byte) :
  replay (a ++ b) content = replay b (replay a content).
Proof.
  revert content. induction a as [| e a IH]; intros content; cbn; auto.
  destruct e; auto.
Qed.

Lemma replay_none (evs : list event) (content : list byte) :
  none_of is_write evs -> replay evs content = content.
Proof.
  unfold none_of. induction evs as [| e evs IH]; cbn; auto.
  intros H. apply andb_true_iff in H. destruct H as [He H].
  destruct e; cbn in He; try discriminate; auto.
Qed.

Lemma replay_only (fp : event -> bool) (evs : list event) (content : list byte) :
  (forall e, fp e = true -> is_write e = false) -> only fp evs -> replay evs content = content.
Proof.
  intros Hfp H. apply replay_none. now apply (only_none_of fp).
Qed.

Lemma Pooled_loop_replay (env : Env) (c : nat) (path : string) (input : reader)
  (content : list byte) (turn : Z) :
  (Z.of_nat (List.length content + List.length (List.concat (upload_chunks input))) < 2 ^ 63)%Z ->
  wp (Pooled.stream_loop env c path input (Z.of_nat (List.length content)) turn)
     (fun r evs => stored input content (loop_ok r) evs).
Proof.
  revert content turn.
  induction input as [| [data err_read] rest IH]; intros content turn Hb;
    cbn [Pooled.stream_loop]; unfold Pooled.loop_turn.
  - cbn [is_nil is_EOF negb andb]. repeat wp_step; intros Hr; try discriminate.
    cbn. rewrite write_at_end. auto.
  - destruct err_read as [e |]; [destruct e |]; cbn [is_nil is_EOF negb andb];
      repeat wp_step; try (intros Hr; discriminate).
    + intros _. cbn. rewrite write_at_end, app_nil_r. auto.
    + cbn [upload_chunks is_EOF List.concat] in *.
      rewrite length_app in Hb.
      rewrite wrap64_small by lia.
      rewrite <- Nat2Z.inj_add, <- length_app.
      assert (Hb' : (Z.of_nat (List.length (content ++ data)
                       + List.length (List.concat (upload_chunks rest))) < 2 ^ 63)%Z)
        by (rewrite length_app; lia).
      wp_use (IH (content ++ data) (wrap64 (turn + 1)) Hb').
      intros Hr. destruct (H Hr) as [H1 H2]. cbn.
      rewrite write_at_end, H1, H2, <- app_assoc. auto.
Qed.

Lemma Legacy_loop_replay (env : Env) (o : Object) (c : nat) (path : string) (input : reader)
  (content : list byte) (turn : Z) (d : digest) :
  (Z.of_nat (List.length content + List.length (List.concat (upload_chunks input))) < 2 ^ 63)%Z ->
  wp (Legacy.stream_loop env o c path input (Z.of_nat (List.length content)) turn d)
     (fun r evs => stored input content (loop_ok r) evs).
Proof.
  revert content turn d.
  induction input as [| [data err_read] rest IH]; intros content turn d Hb;
    cbn [Legacy.stream_loop]; unfold Legacy.loop_turn.
  - cbn [is_nil is_EOF negb andb]. repeat wp_step.
    + wp_use Legacy_Update_remove_cleanup.
      destruct r; repeat wp_step; intros Hr; discriminate.
    + intros _. cbn. rewrite write_at_end. auto.
  - destruct err_read as [e |]; [destruct e |]; cbn [is_nil is_EOF negb andb];
      repeat wp_step; try (intros Hr; discriminate);
      try (wp_use Legacy_Update_remove_cleanup;
           destruct r; repeat wp_step; intros Hr; discriminate).
    + intros _. cbn. rewrite write_at_end, app_nil_r. auto.
    + cbn [upload_chunks is_EOF List.concat] in *.
      rewrite length_app in Hb.
      rewrite wrap64_small by lia.
      rewrite <- Nat2Z.inj_add, <- length_app.
      assert (Hb' : (Z.of_nat (List.length (content ++ data)
                       + List.length (List.concat (upload_chunks rest))) < 2 ^ 63)%Z)
        by (rewrite length_app; lia).
      wp_use (IH (content ++ data) (wrap64 (turn + 1)) (adler32_Write d data) Hb').
      intros Hr. destruct (H Hr) as [H1 H2]. cbn.
      rewrite write_at_end, H1, H2, <- app_assoc. auto.
Qed.

Ltac no_write H :=
  let Hc := fresh "Hc" in let Hw := fresh "Hw" in
  match type of H with
  | only ?fp ?evs =>
      assert (Hc : count_reads evs = 0)
        by (apply (count_reads_only fp evs); [fp_side | exact H]);
      assert (Hw : forall content, replay evs content = content)
        by (intros; apply (replay_only fp evs); [fp_side | exact H]);
      clear H
  end.

Ltac st_solve :=
  lazymatch goal with
  | |- wp _ _ => fail
  | |- _ =>
      unfold stored in *; cbn [loop_ok] in *;
      let Hr := fresh "Hr" in
      intros Hr;
      first
        [ discriminate
        | repeat match goal with
                 | H : true = true -> _ |- _ => specialize (H eq_refl); destruct H
                 end;
          repeat first
            [ rewrite replay_app
            | rewrite count_reads_app
            | progress cbn [replay count_reads app]
            | match goal with
              | H : count_reads _ = _ |- _ => rewrite H
              | H : forall content, replay _ content = content |- _ => rewrite H
              | H : replay _ _ = _ |- _ => rewrite H
              end ];
          split; [reflexivity | lia] ]
  end.

Lemma Pooled_Update_stream_replay (env : Env) (o : Object) (c : nat) (path : string)
  (input : reader) (src : ObjectInfo) :
  (Z.of_nat (List.length (List.concat (upload_chunks input))) < 2 ^ 63)%Z ->
  wp (Pooled.Update_stream env o c path input src)
     (fun r evs => stored input [] (loop_ok r) evs).
Proof.
  intros Hb. unfold Pooled.Update_stream. wp_step.
  wp_use (Pooled_loop_replay env c path input [] 0%Z Hb).
  destruct r as [[[index turn] errClient] | msg]; [| st_solve].
  destruct errClient as [e |]; cbn [loop_ok] in H.
  - wp_step. wp_use Pooled_Update_remove_cleanup.
    destruct r; repeat wp_step; st_solve.
  - repeat wp_step; try st_solve.
    + wp_use Pooled_Update_remove_cleanup.
      destruct r; repeat wp_step; st_solve.
    + wp_use Pooled_SetModTime_quiet. destruct H0 as (Hq & _). no_write Hq.
      destruct r as [[o1 err] |]; repeat wp_step; st_solve.
Qed.

Lemma Pooled_Update_replay (env : Env) (o : Object) (input : reader) (src : ObjectInfo) :
  (Z.of_nat (List.length (List.concat (upload_chunks input))) < 2 ^ 63)%Z ->
  wp (Pooled.Update env o input src) (fun r evs => stored input [] (loop_ok r) evs).
Proof.
  intros Hb. unfold Pooled.Update. repeat wp_step; try st_solve.
  wp_use wp_acquire. destruct H as [Hev H]. no_write Hev. acq_cases r H.
  - unfold Pooled.ConnectionFree. repeat wp_step; try st_solve.
    all: wp_use (Pooled_Update_stream_replay env (set_hash o "") n s input src Hb);
      destruct r as [[o1 [e |]] |]; repeat wp_step; st_solve.
  - repeat wp_step; st_solve.
  - st_solve.
Qed.

Lemma Legacy_Update_stream_replay (env : Env) (o : Object) (c : nat) (path : string)
  (input : reader) (src : ObjectInfo) :
  (Z.of_nat (List.length (List.concat (upload_chunks input))) < 2 ^ 63)%Z ->
  wp (Legacy.Update_stream env o c path input src)
     (fun r evs => stored input [] (loop_ok r) evs).
Proof.
  intros Hb. unfold Legacy.Update_stream. wp_step.
  wp_use (Legacy_loop_replay env o c path input [] 0%Z adler32_New Hb).
  destruct r as [[[[index turn] d] exit] | msg]; [| st_solve].
  destruct exit as [e |]; cbn [loop_ok] in H.
  - repeat wp_step; st_solve.
  - repeat wp_step; try st_solve.
    + wp_use Legacy_Update_remove_cleanup.
      destruct r; repeat wp_step; st_solve.
    + wp_use Legacy_SetModTime_quiet. destruct H0 as (Hq & _). no_write Hq.
      destruct r as [[o1 err] |]; repeat wp_step; st_solve.
Qed.

Lemma Legacy_Update_replay (env : Env) (o : Object) (input : reader) (src : ObjectInfo) :
  (Z.of_nat (List.length (List.concat (upload_chunks input))) < 2 ^ 63)%Z ->
  wp (Legacy.Update env o input src) (fun r evs => stored input [] (loop_ok r) evs).
Proof.
  intros Hb. unfold Legacy.Update. repeat wp_step; try st_solve.
  wp_use Legacy_xrdremote_dials. destruct H as [Hev H]. no_write Hev. dial_cases r H.
  - unfold Legacy.deferred_Close. repeat wp_step; try st_solve.
    all: wp_use (Legacy_Update_stream_replay env (set_hash o "") n s input src Hb);
      destruct r as [[o1 [e |]] |]; repeat wp_step; st_solve.
  - repeat wp_step; st_solve.
  - repeat wp_step; st_solve.
Qed.

(** ** DirMove *)

Lemma existsb_only (fp p : event -> bool) (evs : list event) :
  (forall e, fp e = true -> p e = false) -> only fp evs -> existsb p evs = false.
Proof.
  intros Hfp. unfold only. induction evs as [| e evs IH]; cbn; auto.
  intros H. apply andb_true_iff in H. destruct H as [He H].
  rewrite (Hfp e He), IH; auto.
Qed.

Lemma Pooled_dirExists_quiet (env : Env) (ne : error -> bool) (f : Fs) (dir : string) :
  wp (PooledRest.dirExists env ne f dir) (fun r evs => only quiet evs /\ nil_panic r).
Proof.
  unfold PooledRest.dirExists. repeat wp_step; try fin.
  wp_use wp_acquire. weaken_to quiet. acq_cases r H.
  - unfold Pooled.ConnectionFree. repeat wp_step; fin.
  - repeat wp_step; fin.
  - fin.
Qed.

Lemma Legacy_dirExists_quiet (env : Env) (ne : error -> bool) (f : Fs) (dir : string) :
  wp (LegacyRest.dirExists env ne f dir) (fun r evs => only quiet evs /\ nil_panic r).
Proof.
  unfold LegacyRest.dirExists. repeat wp_step; try fin.
  wp_use Legacy_xrdremote_dials. weaken_to quiet. dial_cases r H.
  - unfold Legacy.deferred_Close. repeat wp_step; fin.
  - repeat wp_step; fin.
  - repeat wp_step; fin.
Qed.

(** Turns the footprint of a part of the trace into the two facts the
    proofs about MkdirAll and Rename need. *)
Ltac no_move H :=
  let Hm := fresh "Hm" in let Hr := fresh "Hr" in
  match type of H with
  | only ?fp ?evs =>
      assert (Hm : existsb is_MkdirAll evs = false)
        by (apply (existsb_only fp); [fp_side | exact H]);
      assert (Hr : existsb is_Rename evs = false)
        by (apply (existsb_only fp); [fp_side | exact H]);
      clear H
  end.

Ltac mv_solve :=
  lazymatch goal with
  | |- wp _ _ => fail
  | |- _ =>
      cbv beta;
      repeat first
        [ rewrite existsb_app
        | progress cbn [existsb app is_MkdirAll is_Rename orb]
        | match goal with
          | H : existsb _ _ = false |- _ => rewrite H
          end ];
      try (intros; discriminate); try reflexivity; auto
  end.

Lemma Pooled_DirMove_renames_after_mkdir (env : Env) (dir_of : string -> string)
  (ne : error -> bool) (f : Fs) (src : fs_Fs) (a b : string) :
  wp (PooledRest.DirMove env dir_of ne f src a b)
     (fun _ evs => existsb is_MkdirAll evs = true -> existsb is_Rename evs = true).
Proof.
  unfold PooledRest.DirMove. repeat wp_step; try mv_solve.
  wp_use Pooled_dirExists_quiet. destruct H as [Hq _]. no_move Hq.
  destruct r as [[ok err] |]; [| mv_solve].
  repeat wp_step; try mv_solve.
  wp_use wp_acquire. destruct H as [Hev H]. no_move Hev. acq_cases r H.
  - unfold Pooled.ConnectionFree. repeat wp_step; mv_solve.
  - repeat wp_step; mv_solve.
  - mv_solve.
Qed.

Lemma Pooled_DirMove_never_reports_mkdir (env : Env) (dir_of : string -> string)
  (ne : error -> bool) (f : Fs) (src : fs_Fs) (a b : string) :
  wp (PooledRest.DirMove env dir_of ne f src a b) (fun r _ => mkdir_failed r = false).
Proof.
  unfold PooledRest.DirMove, other. repeat wp_step; try reflexivity.
  wp_use Pooled_dirExists_quiet.
  destruct r as [[ok err] |]; [| reflexivity].
  repeat wp_step; try reflexivity.
  wp_use wp_acquire. destruct H0 as [_ H0]. acq_cases r H0.
  - unfold Pooled.ConnectionFree. repeat wp_step; reflexivity.
  - repeat wp_step; reflexivity.
  - reflexivity.
Qed.

Lemma Legacy_DirMove_stops_after_mkdir (env : Env) (dir_of : string -> string)
  (ne : error -> bool) (f : Fs) (src : fs_Fs) (a b : string) :
  wp (LegacyRest.DirMove env dir_of ne f src a b)
     (fun r evs => mkdir_failed r = true -> existsb is_Rename evs = false).
Proof.
  unfold LegacyRest.DirMove, other. repeat wp_step; try mv_solve.
  wp_use Legacy_xrdremote_dials. destruct H as [Hev H]. no_move Hev. dial_cases r H.
  - wp_step. wp_step. wp_use Legacy_dirExists_quiet. destruct H0 as [Hq _]. no_move Hq.
    destruct r as [[ok err] |]; unfold Legacy.deferred_Close; repeat wp_step; mv_solve.
  - repeat wp_step; mv_solve.
  - repeat wp_step; mv_solve.
Qed.

(** *** A destination that exists *)
Lemma acquire_healthy (env : Env) (f : Fs) (w : world) :
  pool_healthy w ->
  (forall tr a b, srv_NewClient env tr a b = None) ->
  exists c w1, Pooled.getXrootdConnection env f w = (Ret (Some c, None), w1).
Proof.
  intros Hh Hd. destruct (pool w) as [| c rest] eqn:Hp.
  - rewrite (getXrootdConnection_empty env f w Hp), Hd. eauto.
  - destruct (Hh c) as (i & -> & He & Hlt); [rewrite Hp; now left |].
    rewrite (getXrootdConnection_head env f w i rest Hp He). eauto.
Qed.

Lemma Pooled_dirExists_true (env : Env) (ne : error -> bool) (f : Fs) (dir path : string)
  (w : world) :
  Pooled.xrdremote env dir = inr path ->
  pool_healthy w ->
  (forall tr a b, srv_NewClient env tr a b = None) ->
  (forall tr, exists info, srv_Stat env tr path = inr info /\ fi_IsDir info = true) ->
  fst (PooledRest.dirExists env ne f dir w) = Ret (true, None).
Proof.
  intros Hx Hh Hd Hs. unfold PooledRest.dirExists. rewrite Hx. unfold bind.
  destruct (acquire_healthy env f w Hh Hd) as (c & w1 & ->).
  unfold defer, bind, deref, ret, call_res, call. cbn -[Pooled.ConnectionFree].
  destruct (Hs (trace w1)) as (info & -> & Hdir). cbn -[Pooled.ConnectionFree].
  rewrite Hdir. cbn -[Pooled.ConnectionFree]. rewrite ConnectionFree_nil. reflexivity.
Qed.

Lemma Pooled_DirMove_exists (env : Env) (dir_of : string -> string) (ne : error -> bool)
  (f srcFs : Fs) (srcRemote dstRemote path path' : string) (w : world) :
  Pooled.xrdremote env (fs_url f ++ "/" ++ dstRemote)%string = inr path ->
  Pooled.xrdremote env path = inr path' ->
  pool_healthy w ->
  (forall tr a b, srv_NewClient env tr a b = None) ->
  (forall tr, exists info, srv_Stat env tr path' = inr info /\ fi_IsDir info = true) ->
  fst (PooledRest.DirMove env dir_of ne f (XrdFs srcFs) srcRemote dstRemote w)
  = Ret (Some ErrorDirExists)
  /\ none_of is_modifying
       (new_events w (snd (PooledRest.DirMove env dir_of ne f (XrdFs srcFs) srcRemote dstRemote w))).
Proof.
  intros Hx Hx' Hh Hd Hs.
  pose proof (Pooled_dirExists_true env ne f path path' w Hx' Hh Hd Hs) as Ht.
  pose proof (wp_run _ _ w (Pooled_dirExists_quiet env ne f path)) as [Hq _].
  unfold PooledRest.DirMove. rewrite Hx. cbv zeta. unfold bind.
  destruct (PooledRest.dirExists env ne f path w) as [r w'].
  cbn [fst snd] in *. subst r. cbn [fst snd]. split; [reflexivity |].
  revert Hq. apply only_none_of. fp_side.
Qed.

Lemma Legacy_DirMove_exists (env : Env) (dir_of : string -> string) (ne : error -> bool)
  (f srcFs : Fs) (srcRemote dstRemote : string) (u u' : URL) :
  xrdio_Parse env (fs_url f ++ "/" ++ dstRemote)%string = inr u ->
  xrdio_Parse env (url_Path u) = inr u' ->
  (forall tr a b, srv_NewClient env tr a b = None) ->
  (forall tr, exists info, srv_Stat env tr (url_Path u') = inr info /\ fi_IsDir info = true) ->
  wp (LegacyRest.DirMove env dir_of ne f (XrdFs srcFs) srcRemote dstRemote)
     (fun r evs => r = Ret (Some ErrorDirExists) /\ none_of is_modifying evs).
Proof.
  intros Hx Hx' Hd Hs.
  unfold LegacyRest.DirMove, LegacyRest.dirExists, Legacy.xrdremote, Legacy.deferred_Close.
  rewrite Hx. cbv zeta.
  repeat first
    [ rewrite Hx'
    | progress cbv beta iota
    | match goal with
      | |- wp (call_res (EvStat _ _) _) _ =>
          apply wp_call_res; let tr := fresh "tr" in
          let Hdir := fresh "Hdir" in
          intros tr; cbv beta; destruct (Hs tr) as (? & -> & Hdir);
          cbn [server_result]; cbv beta iota; rewrite Hdir; cbn [negb]
      | |- wp (call_err (EvDial _ _) _) _ =>
          apply wp_call_err; intros ?; cbv beta; rewrite Hd; cbn [server_error]
      end
    | wp_step ].
  all: split; [reflexivity | only_solve].
Qed.

(** ** SetModTime, Read and Put *)

Lemma Pooled_Fs_stat_from_server (env : Env) (f : Fs) (remote : string) :
  wp (Pooled.Fs_stat env f remote) (fun r _ => from_server env r).
Proof.
  unfold Pooled.Fs_stat. repeat wp_step; try exact I.
  wp_use wp_acquire. destruct H as [_ H]. acq_cases r H; try exact I.
  - unfold Pooled.ConnectionFree.
    wp_step. wp_step. wp_step. wp_step.
    apply wp_call_res. intros tr.
    destruct (srv_Stat env tr s) as [code | info] eqn:E; cbn [server_result];
      repeat wp_step; cbn; auto; exists tr, s; exact E.
  - repeat wp_step; exact I.
Qed.

Lemma Legacy_Fs_stat_from_server (env : Env) (f : Fs) (remote : string) :
  wp (Legacy.Fs_stat env f remote) (fun r _ => from_server env r).
Proof.
  unfold Legacy.Fs_stat. repeat wp_step; try exact I.
  wp_use Legacy_xrdremote_dials. destruct H as [_ H]. dial_cases r H.
  - unfold Legacy.deferred_Close.
    wp_step. wp_step. wp_step. wp_step.
    apply wp_call_res. intros tr.
    destruct (srv_Stat env tr s) as [code | info] eqn:E; cbn [server_result];
      repeat wp_step; cbn; auto; exists tr, s; exact E.
  - repeat wp_step; exact I.
  - repeat wp_step; exact I.
Qed.

Lemma Pooled_SetModTime_outcome (env : Env) (o : Object) (t : Z) :
  wp (Pooled.SetModTime env o t) (fun r _ => modtime_outcome env o t r).
Proof.
  unfold Pooled.SetModTime, Pooled.Object_stat. wp_step. wp_step.
  wp_use Pooled_Fs_stat_from_server.
  destruct r as [[[info |] [e |]] | msg]; repeat wp_step; cbn; auto.
  exists info. split; [exact H |]. now rewrite setMetadata_fields.
Qed.

Lemma Legacy_SetModTime_outcome (env : Env) (o : Object) (t : Z) :
  wp (Legacy.SetModTime env o t) (fun r _ => modtime_outcome env o t r).
Proof.
  unfold Legacy.SetModTime, Legacy.Object_stat. wp_step. wp_step.
  wp_use Legacy_Fs_stat_from_server.
  destruct r as [[[info |] [e |]] | msg]; repeat wp_step; cbn; auto.
  exists info. split; [exact H |]. now rewrite setMetadata_fields.
Qed.

Lemma read_all_eof (reads : list (Z * option error)) (file : xrdOpenFile) :
  file_eof (read_all file reads)
  = file_eof file || existsb (fun r => is_EOF (snd r)) reads.
Proof.
  unfold read_all. revert file. induction reads as [| [n err] rest IH]; intros file; cbn.
  - now rewrite orb_false_r.
  - rewrite IH. cbn. destruct (is_EOF err); cbn; auto. now rewrite orb_true_r.
Qed.

Lemma read_all_object (reads : list (Z * option error)) (file : xrdOpenFile) :
  file_o (read_all file reads) = file_o file.
Proof.
  unfold read_all. revert file. induction reads as [| [n err] rest IH]; intros file; cbn; auto.
  now rewrite IH.
Qed.

Lemma stat_outcome_same (o : Object) (r : res (Object * option error)) :
  stat_outcome o r -> same_object o r.
Proof.
  destruct r as [[o' [e |]] |]; cbn; auto.
  - intros [-> _]. auto.
  - intros (H1 & H2 & _). auto.
Qed.

Lemma Pooled_SetModTime_same (env : Env) (o : Object) (t : Z) :
  wp (Pooled.SetModTime env o t) (fun r _ => same_object o r).
Proof.
  unfold Pooled.SetModTime. wp_step.
  wp_use Pooled_Object_stat_outcome. apply stat_outcome_same in H.
  destruct r as [[o1 err] |]; repeat wp_step; exact H.
Qed.

Lemma Legacy_SetModTime_same (env : Env) (o : Object) (t : Z) :
  wp (Legacy.SetModTime env o t) (fun r _ => same_object o r).
Proof.
  unfold Legacy.SetModTime. wp_step.
  wp_use Legacy_Object_stat_outcome. apply stat_outcome_same in H.
  destruct r as [[o1 err] |]; repeat wp_step; exact H.
Qed.

Lemma Pooled_Update_stream_same (env : Env) (o : Object) (c : nat) (path : string)
  (input : reader) (src : ObjectInfo) :
  wp (Pooled.Update_stream env o c path input src) (fun r _ => same_object o r).
Proof.
  unfold Pooled.Update_stream. wp_step.
  wp_use Pooled_stream_loop_events.
  destruct r as [[[index turn] errClient] | msg]; [| exact I].
  destruct errClient as [e |].
  - wp_step. wp_use Pooled_Update_remove_cleanup.
    destruct r; repeat wp_step; cbn; auto.
  - repeat wp_step; cbn; auto.
    + wp_use Pooled_Update_remove_cleanup.
      destruct r; repeat wp_step; cbn; auto.
    + wp_use Pooled_SetModTime_same.
      destruct r as [[o1 err] |]; repeat wp_step; cbn; auto.
Qed.

Lemma Pooled_Update_same (env : Env) (o : Object) (input : reader) (src : ObjectInfo) :
  wp (Pooled.Update env o input src) (fun r _ => same_object o r).
Proof.
  unfold Pooled.Update. repeat wp_step; cbn; auto.
  wp_use wp_acquire. destruct H as [_ H]. acq_cases r H.
  - unfold Pooled.ConnectionFree. repeat wp_step; cbn; auto.
    all: wp_use Pooled_Update_stream_same;
      destruct r as [[o1 err] |]; repeat wp_step; cbn; auto.
  - repeat wp_step; cbn; auto.
  - exact I.
Qed.

Lemma Legacy_Update_stream_same (env : Env) (o : Object) (c : nat) (path : string)
  (input : reader) (src : ObjectInfo) :
  wp (Legacy.Update_stream env o c path input src) (fun r _ => same_object o r).
Proof.
  unfold Legacy.Update_stream. wp_step.
  wp_use Legacy_stream_loop_done.
  destruct r as [[[[index turn] d] exit] | msg]; [| exact I].
  repeat wp_step; cbn; auto.
  - wp_use Legacy_Update_remove_cleanup.
    destruct r; repeat wp_step; cbn; auto.
  - wp_use Legacy_SetModTime_same.
    destruct r as [[o1 err] |]; repeat wp_step; cbn; auto.
Qed.

Lemma Legacy_Update_same (env : Env) (o : Object) (input : reader) (src : ObjectInfo) :
  wp (Legacy.Update env o input src) (fun r _ => same_object o r).
Proof.
  unfold Legacy.Update. repeat wp_step; cbn; auto.
  wp_use Legacy_xrdremote_dials. destruct H as [_ H]. dial_cases r H.
  - unfold Legacy.deferred_Close. repeat wp_step; cbn; auto.
    all: wp_use Legacy_Update_stream_same;
      destruct r as [[o1 err] |]; repeat wp_step; cbn; auto.
  - repeat wp_step; cbn; auto.
  - repeat wp_step; cbn; auto.
Qed.

Lemma Pooled_Put_outcome (env : Env) (f : Fs) (input : reader) (src : ObjectInfo) :
  wp (Pooled.Put env f input src) (fun r _ => put_outcome f src r).
Proof.
  unfold Pooled.Put. wp_step. wp_use Pooled_Update_same.
  destruct r as [[o [e |]] |]; repeat wp_step; cbn in *; auto.
Qed.

Lemma Legacy_Put_outcome (env : Env) (f : Fs) (input : reader) (src : ObjectInfo) :
  wp (Legacy.Put env f input src) (fun r _ => put_outcome f src r).
Proof.
  unfold Legacy.Put. wp_step. wp_use Legacy_Update_same.
  destruct r as [[o [e |]] |]; repeat wp_step; cbn in *; auto.
Qed.

(** ** The pool stays healthy *)

Section SafeRules.

Context {A B : Type}.
Variable base : world.
Variable held : list nat.




Lemma safe_call (e : event) (answer : list event -> A) (Q : res A -> Prop) :
  (forall a, Q (Ret a)) -> safe base held (call e answer) Q.
Proof. intros H w Hw. split; [exact Hw | apply H]. Qed.




End SafeRules.










Lemma empty_world_healthy : pool_healthy empty_world.
Proof. intros c []. Qed.























(** ** The properties of the operations *)

Lemma run_op_released (env : Env) (op : operation) :
  wp (run_op env op) (fun _ evs => all_released evs).
Proof.
  unfold all_released.
  destruct op; cbn [run_op]; try wp_step.
  - wp_use Pooled_List_released. destruct r; repeat wp_step; acc_solve.
  - apply Pooled_Mkdir_released.
  - apply Pooled_Rmdir_released.
  - apply Pooled_Purge_released.
  - wp_use Pooled_Move_released. destruct r; repeat wp_step; acc_solve.
  - wp_use Pooled_Fs_stat_released. destruct r; repeat wp_step; acc_solve.
  - wp_use Pooled_Hash_released. destruct r; repeat wp_step; acc_solve.
  - wp_use Pooled_Update_released. destruct r; repeat wp_step; acc_solve.
  - apply Pooled_Remove_released.
Qed.

(** X1.  In the pooled revision every operation releases each session
    it made a call on: in the calls one run of [List], [Mkdir], [Rmdir],
    [Purge], [Move], [stat], [Hash], [Update], [Remove] or [DirMove]
    adds to the trace, every session that a remote call was made on is
    also passed to [ConnectionFree], whatever the server answers and
    also when the operation panics. *)
Theorem pooled_operations_release_what_they_use (env : Env) (dir_of : string -> string)
  (not_exist : error -> bool) :
  (forall op w, all_released (new_events w (snd (run_op env op w))))
  /\ (forall f src srcRemote dstRemote w,
        all_released
          (new_events w (snd (PooledRest.DirMove env dir_of not_exist f src
                                srcRemote dstRemote w)))).
Proof.
  split.
  - intros op w. apply (wp_run _ _ w (run_op_released env op)).
  - intros f src a b w.
    apply (wp_run _ _ w (Pooled_DirMove_released env dir_of not_exist f src a b)).
Qed.

Lemma ignore_result {A} (m : M A) (Q : list event -> Prop) :
  wp m (fun _ evs => Q evs) -> wp (_ <- m;; ret tt) (fun _ evs => Q evs).
Proof.
  intros H. wp_step. wp_use H. destruct r; [| exact H0].
  apply wp_ret. now rewrite app_nil_r.
Qed.

(** X2.  In the legacy revision every operation but [Hash] closes each
    client it made a call on, on every path. *)
Theorem legacy_operations_close_what_they_use (env : Env) (dir_of : string -> string)
  (not_exist : error -> bool) (op : legacy_operation) (w : world) :
  all_closed (new_events w (snd (run_legacy env dir_of not_exist op w))).
Proof.
  apply (wp_run _ (fun _ evs => all_closed evs) w). unfold all_closed.
  destruct op; cbn [run_legacy];
    apply (ignore_result _ (fun evs => accounted closed [] evs)).
  - apply Legacy_List_closed.
  - apply Legacy_Mkdir_closed.
  - apply Legacy_Rmdir_closed.
  - apply Legacy_Purge_closed.
  - apply Legacy_Move_closed.
  - apply Legacy_DirMove_closed.
  - apply Legacy_Fs_stat_closed.
  - apply Legacy_Update_closed.
  - apply Legacy_Remove_closed.
Qed.

Lemma closed_none (evs : list event) : none_of is_ClientClose evs -> closed evs = [].
Proof.
  unfold none_of. induction evs as [| e evs IH]; cbn; auto.
  intros H. apply andb_true_iff in H. destruct H as [He H].
  destruct e; cbn in He; try discriminate; auto.
Qed.

Lemma used_Checksum (evs : list event) :
  existsb is_Checksum evs = true -> exists c, In c (used evs).
Proof.
  induction evs as [| e evs IH]; cbn; [discriminate |].
  intros H. apply orb_true_iff in H. destruct H as [He | H].
  - destruct e; cbn in He; try discriminate. exists c. now left.
  - destruct (IH H) as [c Hc]. exists c. destruct (client_of e); [now right | exact Hc].
Qed.

(** X3.  The legacy [Hash] never closes the client it dials: no run of
    it calls [client.Close], and a run that returns a digest has made
    calls on a client that is left open. *)
Theorem legacy_Hash_leaves_client_open (env : Env) (o : Object) (t : hash_Type) (w : world) :
  let r := fst (Legacy.Hash env o t w) in
  let evs := new_events w (snd (Legacy.Hash env o t w)) in
  none_of is_ClientClose evs
  /\ match r with
     | Ret (_, (_, None)) => ~ all_closed evs
     | _ => True
     end.
Proof.
  cbv zeta.
  pose proof (wp_run _ _ w (Legacy_Hash_never_closes env o t)) as Hn.
  pose proof (wp_run _ _ w (Legacy_Hash_queried env o t)) as Hq.
  split; [exact Hn |].
  destruct (fst (Legacy.Hash env o t w)) as [[o' [h [e |]]] | msg]; auto.
  cbn in Hq. intros Hc. destruct (used_Checksum _ Hq) as [c Hu].
  destruct (Hc c Hu) as [[] | Hin]. rewrite (closed_none _ Hn) in Hin. exact Hin.
Qed.

(** X4.  [Object.stat], in both revisions, returns only two errors, and
    with either the object is as it was: [ErrorObjectNotFound] for every
    failure of [Fs.stat] (also a failed dial), and [ErrorNotAFile]
    wrapped with the remote for a directory.  Without an error the
    object keeps its [fs], [remote] and cached hash. *)
Theorem Object_stat_outcomes (env : Env) (o : Object) (w : world) :
  stat_outcome o (fst (Pooled.Object_stat env o w))
  /\ stat_outcome o (fst (Legacy.Object_stat env o w)).
Proof.
  split.
  - apply (wp_run _ (fun r _ => stat_outcome o r) w (Pooled_Object_stat_outcome env o)).
  - apply (wp_run _ (fun r _ => stat_outcome o r) w (Legacy_Object_stat_outcome env o)).
Qed.

(** X5.  Once the configuration and the URL are accepted, [NewFs]
    returns an [Fs] in every case but a failed dial of the legacy
    revision: with the path as root and no error, or rooted at the
    parent with [ErrorIsFile] when the root names a file.  The error of
    [NewObject] is never returned. *)
Theorem NewFs_outcomes (env : Env) (dir_of : string -> string) (name root : string)
  (opt : Options) (u : URL) (w : world) :
  xrdio_Parse env (make_url opt root) = inr u ->
  newfs_result false root (url_Path u) (parent_of dir_of (url_Path u))
    (fst (PooledRest.NewFs env dir_of name root (inr opt) w))
  /\ newfs_result true root (url_Path u) (parent_of dir_of (url_Path u))
       (fst (LegacyRest.NewFs env dir_of name root (inr opt) w)).
Proof.
  intros Hp. split.
  - assert (Hx : Pooled.xrdremote env (make_url opt root) = inr (url_Path u))
      by (unfold Pooled.xrdremote; now rewrite Hp).
    apply (wp_run _ (fun r _ => newfs_result false root (url_Path u) _ r) w
             (Pooled_NewFs_result env dir_of name root opt (url_Path u) Hx)).
  - apply (wp_run _ (fun r _ => newfs_result true root (url_Path u) _ r) w
             (Legacy_NewFs_result env dir_of name root opt u Hp)).
Qed.

Lemma NewFs_outcomes_witness :
  xrdio_Parse Fixture.env_ok (make_url (fs_opt Fixture.fs_a) "a.txt")
  = inr (mkURL "localhost:1094" "user" (make_url (fs_opt Fixture.fs_a) "a.txt"))
  /\ fst (PooledRest.NewFs Fixture.env_ok Fixture2.dir_of "a" "a.txt"
            (inr (fs_opt Fixture.fs_a)) empty_world)
     = Ret (Some (mkFs "a" (make_url (fs_opt Fixture.fs_a) "a.txt") (fs_opt Fixture.fs_a)
                       (make_url (fs_opt Fixture.fs_a) "a.txt")),
            Some ErrorIsFile)
  /\ newfs_result false "a.txt" (make_url (fs_opt Fixture.fs_a) "a.txt")
       (parent_of Fixture2.dir_of (make_url (fs_opt Fixture.fs_a) "a.txt"))
       (fst (PooledRest.NewFs Fixture.env_ok Fixture2.dir_of "a" "a.txt"
               (inr (fs_opt Fixture.fs_a)) empty_world)).
Proof.
  split; [reflexivity |]. split; [vm_compute; reflexivity |].
  apply (NewFs_outcomes Fixture.env_ok Fixture2.dir_of "a" "a.txt" (fs_opt Fixture.fs_a)
           (mkURL "localhost:1094" "user" (make_url (fs_opt Fixture.fs_a) "a.txt"))
           empty_world).
  reflexivity.
Defined.

(** X6.  [setMetadata] gives the object the size, modification time
    and mode of the info and keeps [fs], [remote] and the cached hash:
    the three tests before the assignments change nothing.  Applying it
    twice is applying it once. *)
Theorem setMetadata_overwrites (o : Object) (info : FileInfo) :
  setMetadata o info
  = mkObject (o_fs o) (o_remote o) (fi_Size info) (fi_ModTime info) (fi_Mode info) (o_hash o)
  /\ setMetadata (setMetadata o info) info = setMetadata o info.
Proof.
  split; [apply setMetadata_fields |]. now rewrite !setMetadata_fields.
Qed.

(** X7.  The pooled [List] returns no entries together with an error.
    The legacy [List] returns entries together with an error only when
    the error is the one of the final [client.Close]. *)
Theorem List_entries_with_an_error (env : Env) (f : Fs) (dir : string) (w : world) :
  match fst (Pooled.List env f dir w) with
  | Ret (entries, Some _) => entries = []
  | _ => True
  end
  /\ match fst (Legacy.List env f dir w) with
     | Ret (entries, Some e) => entries = [] \/ exists code, e = ErrServer code
     | _ => True
     end.
Proof.
  split.
  - apply (wp_run _ _ w (Pooled_List_error_no_entries env f dir)).
  - apply (wp_run _ _ w (Legacy_List_error_entries env f dir)).
Qed.

(** X8.  When the pool is empty and the dial fails, the pooled [Move]
    of an object of this backend returns no object and no error, after
    the one dial: it wraps the nil error of the path resolution. *)
Theorem pooled_Move_without_session_returns_nothing (env : Env) (f : Fs) (srcObj : Object)
  (remote : string) (w : world) (code : nat) (pathsrc pathdst : string) :
  Pooled.xrdremote env (Object_path env srcObj) = inr pathsrc ->
  Pooled.xrdremote env (fs_url f ++ "/" ++ remote)%string = inr pathdst ->
  pool w = [] ->
  srv_NewClient env (trace w) (Servername (fs_opt f)) (User (fs_opt f)) = Some code ->
  Pooled.Move env f (XrdObject srcObj) remote w =
  (Ret (None, None),
   mkWorld [] (conns w) (trace w ++ [EvDial (Servername (fs_opt f)) (User (fs_opt f))])).
Proof.
  intros Hs Hd Hp Hn. unfold Pooled.Move. rewrite Hs, Hd. cbv zeta. unfold bind.
  rewrite (getXrootdConnection_fails env f w code Hp Hn). reflexivity.
Qed.

Lemma pooled_Move_without_session_returns_nothing_witness :
  Pooled.Move Fixture2.env_no_dial Fixture.fs_a (XrdObject Fixture.obj_a) "b.txt" empty_world
  = (Ret (None, None), mkWorld [] [] [EvDial "hostA" "user"]).
Proof.
  apply (pooled_Move_without_session_returns_nothing Fixture2.env_no_dial Fixture.fs_a
           Fixture.obj_a "b.txt" empty_world 111
           (Object_path Fixture2.env_no_dial Fixture.obj_a)
           (fs_url Fixture.fs_a ++ "/" ++ "b.txt")%string);
    reflexivity.
Defined.

(** X9.  When the pool is empty and the dial fails, the pooled [Mkdir]
    and [Purge] panic with a nil dereference: the test after the
    acquisition reads the error of [xrdremote], not the error of the
    acquisition. *)
Theorem pooled_Mkdir_and_Purge_panic_without_session (env : Env) (f : Fs) (dir : string)
  (w : world) (code : nat) :
  pool w = [] ->
  srv_NewClient env (trace w) (Servername (fs_opt f)) (User (fs_opt f)) = Some code ->
  (forall path, Pooled.xrdremote env (fs_url f ++ "/" ++ dir)%string = inr path ->
                fst (Pooled.Mkdir env f dir w) = Panic nil_deref)
  /\ (forall path, Pooled.xrdremote env (fs_root f) = inr path ->
                   fst (Pooled.Purge env f w) = Panic nil_deref).
Proof.
  intros Hp Hn. split; intros path Hx.
  - exact (Mkdir_panics env f dir w code path Hx Hp Hn).
  - exact (Purge_panics env f w code path Hx Hp Hn).
Qed.

Lemma pooled_Mkdir_and_Purge_panic_without_session_witness :
  fst (Pooled.Mkdir Fixture2.env_no_dial Fixture.fs_a "d" empty_world) = Panic nil_deref
  /\ fst (Pooled.Purge Fixture2.env_no_dial Fixture.fs_a empty_world) = Panic nil_deref.
Proof.
  pose proof (pooled_Mkdir_and_Purge_panic_without_session Fixture2.env_no_dial
                Fixture.fs_a "d" empty_world 111 eq_refl eq_refl) as [H1 H2].
  split.
  - apply (H1 (fs_url Fixture.fs_a ++ "/" ++ "d")%string). reflexivity.
  - apply (H2 (fs_root Fixture.fs_a)). reflexivity.
Defined.

(** X10.  When the first entry of the pool is a session without a
    recorded error, [Fs.stat] dials nothing: it makes its one call on
    that session, returns what the server answered, and the session
    goes to the back of the pool. *)
Theorem stat_reuses_idle_session (env : Env) (f : Fs) (remote : string) (w : world)
  (c : nat) (rest : list connptr) (path : string) :
  Pooled.xrdremote env
    (if negb (String.eqb (filepath_Base env (fs_url f)) remote)
     then (fs_url f ++ "/" ++ remote)%string else fs_url f) = inr path ->
  pool w = Some c :: rest -> conn_err w c = None -> c < List.length (conns w) ->
  Pooled.Fs_stat env f remote w =
  (Ret (stat_answer (srv_Stat env (trace w) path)),
   mkWorld (rest ++ [Some c]) (conns w) (trace w ++ [EvStat c path; EvFree c None])).
Proof.
  intros Hx Hp He Hc. unfold Pooled.Fs_stat. cbv zeta. rewrite Hx. unfold bind.
  rewrite (getXrootdConnection_head env f w c rest Hp He).
  unfold defer, bind, deref, ret, call_res, call. cbn -[Pooled.ConnectionFree].
  destruct (srv_Stat env (trace w) path) as [code | info]; cbn -[Pooled.ConnectionFree];
    rewrite ConnectionFree_nil; cbn;
    rewrite (list_set_idle w c He Hc), <- app_assoc; reflexivity.
Qed.

Lemma stat_reuses_idle_session_witness :
  Pooled.Fs_stat Fixture.env_ok Fixture.fs_a "a.txt" Fixture2.world_idle =
  (Ret (Some Fixture.info_file, None),
   mkWorld [Some 0] [None]
     [EvDial "hostA" "user"; EvStat 0 "root://hostA:1094//data//a.txt";
      EvFree 0 None]).
Proof.
  apply (stat_reuses_idle_session Fixture.env_ok Fixture.fs_a "a.txt" Fixture2.world_idle
           0 [] "root://hostA:1094//data//a.txt"); try reflexivity.
  cbn. lia.
Defined.

(** X11.  Along a sequence of acquires and releases in which only held
    sessions are released, the sessions checked out stay pairwise
    distinct, and an acquire returns no session that is checked out. *)
Theorem held_sessions_are_distinct (env : Env) (f : Fs) (ops : list pool_op)
  (g g' : gstate) (rs : list connptr) :
  pool_inv g -> held_distinct g -> pool_run env f ops g = Some (g', rs) ->
  held_distinct g'
  /\ forall g'' c, pool_step env f Acquire g' = Some (g'', Some c) -> ~ In c (held g').
Proof.
  intros Hinv Hd Hrun. split.
  - exact (pool_run_distinct env f ops g g' rs Hinv Hd Hrun).
  - intros g'' c Hstep.
    destruct (pool_run_inv env f ops g g' rs Hinv Hrun) as (Hinv' & _).
    exact (acquire_not_held env f g' g'' c Hinv' Hstep).
Qed.

Lemma held_sessions_are_distinct_witness :
  held Fixture.ops_example_final = [1]
  /\ held_distinct Fixture.ops_example_final.
Proof.
  split; [reflexivity |].
  apply (held_sessions_are_distinct Fixture.env_ok Fixture.fs_a Fixture.ops_example start
           Fixture.ops_example_final Fixture.ops_example_rets).
  - exact start_inv.
  - constructor.
  - vm_compute. reflexivity.
Defined.

(** X12.  An [Update] that returns no error has written the input, in
    both revisions: played back on an empty file, the [WriteAt] calls of
    the run give the concatenation of the chunks read, and there was one
    [Read] for each chunk.  The offsets must fit an [int64]. *)
Theorem upload_stores_the_input (env : Env) (o : Object) (input : reader) (src : ObjectInfo)
  (w : world) :
  (Z.of_nat (List.length (List.concat (upload_chunks input))) < 2 ^ 63)%Z ->
  stored input [] (loop_ok (fst (Pooled.Update env o input src w)))
    (new_events w (snd (Pooled.Update env o input src w)))
  /\ stored input [] (loop_ok (fst (Legacy.Update env o input src w)))
       (new_events w (snd (Legacy.Update env o input src w))).
Proof.
  intros Hb. split.
  - apply (wp_run _ (fun r evs => stored input [] (loop_ok r) evs) w
             (Pooled_Update_replay env o input src Hb)).
  - apply (wp_run _ (fun r evs => stored input [] (loop_ok r) evs) w
             (Legacy_Update_replay env o input src Hb)).
Qed.

Lemma upload_stores_the_input_witness :
  replay (new_events empty_world
            (snd (Pooled.Update Fixture.env_ok Fixture.obj_a Fixture.input_abc
                    Fixture.src_info empty_world))) []
  = [x61; x62; x63].
Proof.
  assert (Hb : (Z.of_nat (List.length (List.concat (upload_chunks Fixture.input_abc)))
                < 2 ^ 63)%Z) by (vm_compute; reflexivity).
  destruct (upload_stores_the_input Fixture.env_ok Fixture.obj_a Fixture.input_abc
              Fixture.src_info empty_world Hb) as [H _].
  destruct (H ltac:(vm_compute; reflexivity)) as [Hr _].
  exact Hr.
Defined.

(** X13.  The pooled [DirMove] never returns the error of [MkdirAll]:
    every run that calls [MkdirAll] goes on to [Rename].  The legacy
    [DirMove] that returns this error has made no [Rename]. *)
Theorem DirMove_and_a_failed_MkdirAll (env : Env) (dir_of : string -> string)
  (not_exist : error -> bool) (f : Fs) (src : fs_Fs) (srcRemote dstRemote : string)
  (w : world) :
  (let r := fst (PooledRest.DirMove env dir_of not_exist f src srcRemote dstRemote w) in
   let evs := new_events w
                (snd (PooledRest.DirMove env dir_of not_exist f src srcRemote dstRemote w)) in
   mkdir_failed r = false
   /\ (existsb is_MkdirAll evs = true -> existsb is_Rename evs = true))
  /\ (let r := fst (LegacyRest.DirMove env dir_of not_exist f src srcRemote dstRemote w) in
      let evs := new_events w
                   (snd (LegacyRest.DirMove env dir_of not_exist f src srcRemote dstRemote w)) in
      mkdir_failed r = true -> existsb is_Rename evs = false).
Proof.
  cbv zeta. split; [split |].
  - apply (wp_run _ (fun r _ => mkdir_failed r = false) w
             (Pooled_DirMove_never_reports_mkdir env dir_of not_exist f src srcRemote dstRemote)).
  - apply (wp_run _ _ w
             (Pooled_DirMove_renames_after_mkdir env dir_of not_exist f src srcRemote dstRemote)).
  - apply (wp_run _ _ w
             (Legacy_DirMove_stops_after_mkdir env dir_of not_exist f src srcRemote dstRemote)).
Qed.

(** X14.  When the destination is an existing directory and sessions
    can be dialled, [DirMove] returns [ErrorDirExists] and makes no call
    that changes anything on the server, in both revisions.  [dirExists]
    is given the path and resolves it a second time, so the URL and its
    path must both be accepted. *)
Theorem DirMove_onto_existing_directory (env : Env) (dir_of : string -> string)
  (not_exist : error -> bool) (f srcFs : Fs) (srcRemote dstRemote : string)
  (u u' : URL) (w : world) :
  xrdio_Parse env (fs_url f ++ "/" ++ dstRemote)%string = inr u ->
  xrdio_Parse env (url_Path u) = inr u' ->
  (forall tr a b, srv_NewClient env tr a b = None) ->
  (forall tr, exists info, srv_Stat env tr (url_Path u') = inr info /\ fi_IsDir info = true) ->
  (pool_healthy w ->
   fst (PooledRest.DirMove env dir_of not_exist f (XrdFs srcFs) srcRemote dstRemote w)
   = Ret (Some ErrorDirExists)
   /\ none_of is_modifying
        (new_events w (snd (PooledRest.DirMove env dir_of not_exist f (XrdFs srcFs)
                              srcRemote dstRemote w))))
  /\ fst (LegacyRest.DirMove env dir_of not_exist f (XrdFs srcFs) srcRemote dstRemote w)
     = Ret (Some ErrorDirExists)
  /\ none_of is_modifying
       (new_events w (snd (LegacyRest.DirMove env dir_of not_exist f (XrdFs srcFs)
                             srcRemote dstRemote w))).
Proof.
  intros Hx Hx' Hd Hs. split.
  - intros Hh.
    apply (Pooled_DirMove_exists env dir_of not_exist f srcFs srcRemote dstRemote
             (url_Path u) (url_Path u') w); auto.
    + unfold Pooled.xrdremote. now rewrite Hx.
    + unfold Pooled.xrdremote. now rewrite Hx'.
  - apply (wp_run _ (fun r evs => r = Ret (Some ErrorDirExists) /\ none_of is_modifying evs) w
             (Legacy_DirMove_exists env dir_of not_exist f srcFs srcRemote dstRemote u u'
                Hx Hx' Hd Hs)).
Qed.

Lemma DirMove_onto_existing_directory_witness :
  fst (PooledRest.DirMove Fixture2.env_dir Fixture2.dir_of Fixture2.not_exist Fixture.fs_a
         (XrdFs Fixture.fs_a) "x" "y" empty_world)
  = Ret (Some ErrorDirExists)
  /\ fst (LegacyRest.DirMove Fixture2.env_dir Fixture2.dir_of Fixture2.not_exist Fixture.fs_a
            (XrdFs Fixture.fs_a) "x" "y" empty_world)
     = Ret (Some ErrorDirExists).
Proof.
  destruct (DirMove_onto_existing_directory Fixture2.env_dir Fixture2.dir_of
              Fixture2.not_exist Fixture.fs_a Fixture.fs_a "x" "y"
              (mkURL "localhost:1094" "user" (fs_url Fixture.fs_a ++ "/" ++ "y")%string)
              (mkURL "localhost:1094" "user" (fs_url Fixture.fs_a ++ "/" ++ "y")%string)
              empty_world)
    as (Hp & Hl & _); try reflexivity.
  - intros tr. exists Fixture2.info_dir. split; reflexivity.
  - split; [| exact Hl]. apply Hp. exact empty_world_healthy.
Defined.

Lemma Pooled_SetModTime_no_modification (env : Env) (o : Object) (t : Z) :
  wp (Pooled.SetModTime env o t) (fun _ evs => none_of is_modifying evs).
Proof.
  wp_use Pooled_SetModTime_quiet. destruct H as [H _].
  revert H. apply only_none_of. fp_side.
Qed.

Lemma Legacy_SetModTime_no_modification (env : Env) (o : Object) (t : Z) :
  wp (Legacy.SetModTime env o t) (fun _ evs => none_of is_modifying evs).
Proof.
  wp_use Legacy_SetModTime_quiet. destruct H as [H _].
  revert H. apply only_none_of. fp_side.
Qed.

(** X15.  [SetModTime], in both revisions, makes no call that changes
    anything on the server.  After an error the object holds the time
    that was asked for; without an error it holds the time a stat of
    the server reported. *)
Theorem SetModTime_sets_nothing_on_the_server (env : Env) (o : Object) (t : Z) (w : world) :
  (none_of is_modifying (new_events w (snd (Pooled.SetModTime env o t w)))
   /\ modtime_outcome env o t (fst (Pooled.SetModTime env o t w)))
  /\ (none_of is_modifying (new_events w (snd (Legacy.SetModTime env o t w)))
      /\ modtime_outcome env o t (fst (Legacy.SetModTime env o t w))).
Proof.
  split; split.
  - apply (wp_run _ _ w (Pooled_SetModTime_no_modification env o t)).
  - apply (wp_run _ (fun r _ => modtime_outcome env o t r) w
             (Pooled_SetModTime_outcome env o t)).
  - apply (wp_run _ _ w (Legacy_SetModTime_no_modification env o t)).
  - apply (wp_run _ (fun r _ => modtime_outcome env o t r) w
             (Legacy_SetModTime_outcome env o t)).
Qed.

(** X16.  After a sequence of [Read]s the stream's [eof] flag is set
    exactly if it was set before or one of the reads returned [io.EOF],
    and the stream still belongs to the same object. *)
Theorem Read_sets_eof_at_EOF (file : xrdOpenFile) (reads : list (Z * option error)) :
  file_eof (read_all file reads)
  = file_eof file || existsb (fun r => is_EOF (snd r)) reads
  /\ file_o (read_all file reads) = file_o file.
Proof.
  split; [apply read_all_eof | apply read_all_object].
Qed.

(** X17.  [Put], in both revisions, returns either an object and no
    error or no object and an error; the object is the one the source
    names, on the [Fs] that [Put] was called on. *)
Theorem Put_outcomes (env : Env) (f : Fs) (input : reader) (src : ObjectInfo) (w : world) :
  put_outcome f src (fst (Pooled.Put env f input src w))
  /\ put_outcome f src (fst (Legacy.Put env f input src w)).
Proof.
  split.
  - apply (wp_run _ (fun r _ => put_outcome f src r) w (Pooled_Put_outcome env f input src)).
  - apply (wp_run _ (fun r _ => put_outcome f src r) w (Legacy_Put_outcome env f input src)).
Qed.



Lemma Legacy_Mkdir_closed_twice (env : Env) (f : Fs) (dir : string) :
  wp (LegacyRest.Mkdir env f dir) closed_twice.
Proof.
  unfold LegacyRest.Mkdir, Legacy.xrdremote, Legacy.deferred_Close, closed_twice.
  repeat wp_step; intros Hr; try discriminate; cbn; eauto 10.
Qed.

Lemma Legacy_Purge_closed_twice (env : Env) (f : Fs) :
  wp (LegacyRest.Purge env f) closed_twice.
Proof.
  unfold LegacyRest.Purge, Legacy.xrdremote, Legacy.deferred_Close, closed_twice.
  repeat wp_step; intros Hr; try discriminate; cbn; eauto 10.
Qed.

Lemma Legacy_Remove_closed_twice (env : Env) (o : Object) :
  wp (LegacyRest.Remove env o) closed_twice.
Proof.
  unfold LegacyRest.Remove, Legacy.xrdremote, Legacy.deferred_Close, closed_twice.
  repeat wp_step; intros Hr; try discriminate; cbn; eauto 10.
Qed.

(** X19.  A legacy [Mkdir], [Purge] or [Remove] that returns no error
    has made exactly four calls: the dial, the one call that changes the
    server, and [client.Close] twice on the same client, once in the
    body and once deferred. *)
Theorem legacy_success_closes_the_client_twice (env : Env) (f : Fs) (dir : string)
  (o : Object) (w : world) :
  closed_twice (fst (LegacyRest.Mkdir env f dir w))
    (new_events w (snd (LegacyRest.Mkdir env f dir w)))
  /\ closed_twice (fst (LegacyRest.Purge env f w))
       (new_events w (snd (LegacyRest.Purge env f w)))
  /\ closed_twice (fst (LegacyRest.Remove env o w))
       (new_events w (snd (LegacyRest.Remove env o w))).
Proof.
  split; [| split].
  - apply (wp_run _ _ w (Legacy_Mkdir_closed_twice env f dir)).
  - apply (wp_run _ _ w (Legacy_Purge_closed_twice env f)).
  - apply (wp_run _ _ w (Legacy_Remove_closed_twice env o)).
Qed.

(** On a server whose [MkdirAll] fails, the pooled [DirMove] renames and
    returns no error; the legacy one returns the error. *)
Lemma DirMove_failed_MkdirAll_example :
  (let x := PooledRest.DirMove Fixture2.env_mkdir_fails Fixture2.dir_of Fixture2.not_exist
              Fixture.fs_a (XrdFs Fixture.fs_a) "x" "y" empty_world in
   fst x = Ret None
   /\ trace (snd x)
      = [EvDial "hostA" "user"; EvStat 0 "root://hostA:1094//data//y"; EvFree 0 None;
         EvMkdirAll 0 "root://hostA:1094//data//y";
         EvRename 0 "/x" "root://hostA:1094//data//y"; EvFree 0 None])
  /\ fst (LegacyRest.DirMove Fixture2.env_mkdir_fails Fixture2.dir_of Fixture2.not_exist
            Fixture.fs_a (XrdFs Fixture.fs_a) "x" "y" empty_world)
     = Ret (Some (OtherError (Wrap (ErrServer 13) "DirMove mkParentDir dst failed"))).
Proof.
  vm_compute. repeat split.
Qed.

(** A legacy [Mkdir] on a server that answers every call without an
    error, and a legacy [Hash] on the same server. *)
Lemma legacy_traces_example :
  (let x := LegacyRest.Mkdir Fixture.env_ok Fixture.fs_a "d" empty_world in
   fst x = Ret None
   /\ trace (snd x)
      = [EvDial "localhost:1094" "user"; EvMkdirAll 0 "root://hostA:1094//data//d";
         EvClientClose 0; EvClientClose 0])
  /\ trace (snd (Legacy.Hash Fixture.env_ok Fixture.obj_a Adler32HashType empty_world))
     = [EvDial "localhost:1094" "user";
        EvOpen 0 "root://hostA:1094//data//a.txt" OpenRead;
        EvChecksum 0 "root://hostA:1094//data//a.txt";
        EvFileClose 0 "root://hostA:1094//data//a.txt"].
Proof.
  vm_compute. repeat split.
Qed.

(** ** Open *)

Lemma Pooled_Open_cases (o : Object) (options : list fs_OpenOption)
  (xrdio_Open : option error) (Seek : Z -> Z * option error) :
  let offset := fst (Open_options (o_size o) options) in
  let r := PooledRest.Open o options xrdio_Open Seek in
  ((open_in r = None /\ open_err r = None) <-> short_seek offset xrdio_Open Seek)
  /\ (open_closed r = true <-> seek_rejected offset xrdio_Open Seek)
  /\ (forall file limit, open_in r = Some (file, limit) ->
        open_err r = None /\ file = newObjectReader o
        /\ limit = snd (Open_options (o_size o) options)).
Proof.
  cbv zeta. unfold PooledRest.Open, short_seek, seek_rejected.
  destruct (Open_options (o_size o) options) as [offset limit]. cbn [fst snd].
  destruct xrdio_Open as [e |]; cbn;
    [| destruct (Z.gtb_spec offset 0) as [Hgt | Hle];
       [destruct (Seek offset) as [off [e |]]; cbn;
        [| destruct (Z.eqb_spec off offset) as [-> | Hne]; cbn] |]].
  all: cbn; repeat split; intros; cbn in *;
    repeat match goal with
           | H : _ /\ _ |- _ => destruct H
           | H : _ \/ _ |- _ => destruct H
           | H : Some _ = Some _ |- _ => inversion H; subst; clear H
           end;
    try congruence; try lia; auto.
  all: try (left; congruence); try (right; congruence).
Qed.

Lemma Legacy_Open_cases (o : Object) (options : list fs_OpenOption)
  (xrdio_Open : option error) (Seek : Z -> Z * option error) :
  let offset := fst (Open_options (o_size o) options) in
  let r := LegacyRest.Open o options xrdio_Open Seek in
  ((open_in r = None /\ open_err r = None) <-> short_seek offset xrdio_Open Seek)
  /\ open_closed r = false
  /\ (forall file limit, open_in r = Some (file, limit) ->
        open_err r = None /\ file = newObjectReader o
        /\ limit = snd (Open_options (o_size o) options)).
Proof.
  cbv zeta. unfold LegacyRest.Open, short_seek, seek_rejected.
  destruct (Open_options (o_size o) options) as [offset limit]. cbn [fst snd].
  destruct xrdio_Open as [e |]; cbn;
    [| destruct (Z.gtb_spec offset 0) as [Hgt | Hle];
       [destruct (Seek offset) as [off [e |]]; cbn;
        [| destruct (Z.eqb_spec off offset) as [-> | Hne]; cbn] |]].
  all: cbn; repeat split; intros; cbn in *;
    repeat match goal with
           | H : _ /\ _ |- _ => destruct H
           | H : _ \/ _ |- _ => destruct H
           | H : Some _ = Some _ |- _ => inversion H; subst; clear H
           end;
    try congruence; try lia; auto.
Qed.

(** X20.  [Open] returns neither a reader nor an error exactly when the
    file was opened, the offset is positive and the seek returned no
    error but another offset: [errors.Wrap] of a nil error is nil.  The
    pooled revision closes the file exactly when it gives up after the
    seek; the legacy revision never closes it.  A reader that is
    returned comes without an error, has read nothing, and is wrapped
    with the limit the options gave. *)
Theorem Open_after_a_rejected_seek (o : Object) (options : list fs_OpenOption)
  (xrdio_Open : option error) (Seek : Z -> Z * option error) :
  let offset := fst (Open_options (o_size o) options) in
  let limit := snd (Open_options (o_size o) options) in
  let p := PooledRest.Open o options xrdio_Open Seek in
  let l := LegacyRest.Open o options xrdio_Open Seek in
  ((open_in p = None /\ open_err p = None) <-> short_seek offset xrdio_Open Seek)
  /\ ((open_in l = None /\ open_err l = None) <-> short_seek offset xrdio_Open Seek)
  /\ (open_closed p = true <-> seek_rejected offset xrdio_Open Seek)
  /\ open_closed l = false
  /\ (forall file lim, open_in p = Some (file, lim) ->
        open_err p = None /\ file = newObjectReader o /\ lim = limit)
  /\ (forall file lim, open_in l = Some (file, lim) ->
        open_err l = None /\ file = newObjectReader o /\ lim = limit).
Proof.
  cbv zeta.
  destruct (Pooled_Open_cases o options xrdio_Open Seek) as (P1 & P2 & P3).
  destruct (Legacy_Open_cases o options xrdio_Open Seek) as (L1 & L2 & L3).
  split; [exact P1 |]. split; [exact L1 |]. split; [exact P2 |]. split; [exact L2 |].
  split; [exact P3 | exact L3].
Qed.

(** A seek to offset 5 that lands at 0 without an error. *)
Lemma Open_short_seek_example :
  PooledRest.Open Fixture.obj_ten [SeekOption 5] None (fun _ => (0%Z, None))
  = mkOpened None None true
  /\ LegacyRest.Open Fixture.obj_ten [SeekOption 5] None (fun _ => (0%Z, None))
     = mkOpened None None false.
Proof.
  split; reflexivity.
Qed.

(** ** What is passed to ConnectionFree, and where the session goes *)


